(** * xcdat: the query engine of the double-array trie dictionary

    A shallow embedding of [include/xcdat/Trie.hpp]: exact lookup, decoding
    by id, the two suffix ("tail") encodings, the common-prefix and the
    predictive cursors, and the serialized layout.

    Conventions of the embedding.
    - Ids, node ids and tail positions ([id_type], [size_t]) are binary
      naturals [N]; no operation of the engine wraps around on them (XOR of
      two ids, increments of in-range positions). Positions in a key and
      depths of the traversal are [nat].
    - Bytes ([char], [uint8_t]) are [Byte.byte]; a [std::string_view] or
      [std::string] is a [list byte].
    - Reading a container outside its bounds is undefined behaviour in C++.
      The embedding makes it explicit: every read returns a [result], and an
      out-of-range read is [Err] with the container that was overrun.
    - The two [reserve(max_length_)] calls, in [access] and in the
      constructor of the predictive cursor, throw [std::length_error] when
      [max_length_] is above the [max_size()] of a string; this is
      [Err LengthError]. Running out of memory is not modelled.
    - A loop that the C++ text does not bound is given a fuel argument;
      running out of it is [Err Fuel]. *)

From Stdlib Require Import NArith.
From Stdlib.Strings Require Import Byte String.
From stdpp Require Import base tactics option list numbers sorting.

Local Open Scope N_scope.

(** ** Results of reads *)

Inductive fault : Set :=
| KeyBounds     (* std::string_view read at or past its length *)
| NodeBounds    (* BASE/CHECK/LINK/leaf read past num_nodes *)
| BitBounds     (* BitVector read, rank or select out of range *)
| TailBounds    (* tail_ read past its size *)
| TableBounds   (* table_ read past its 512 entries *)
| StreamBounds  (* deserializer ran off the stream *)
| LengthError   (* std::length_error of std::string::reserve *)
| Fuel.         (* the loop did not finish within the given fuel *)

Inductive result (A : Type) : Type :=
| Ok (a : A)
| Err (e : fault).
Arguments Ok {A} a.
Arguments Err {A} e.

Definition bind {A B} (m : result A) (f : A -> result B) : result B :=
  match m with
  | Ok a => f a
  | Err e => Err e
  end.

Notation "'let*' x := m 'in' k" := (bind m (fun x => k))
  (at level 10, x name, m at level 100, k at level 200,
   format "'[v' 'let*'  x  :=  m  'in' '/' k ']'").

Definition read {A} (e : fault) (o : option A) : result A :=
  match o with
  | Some a => Ok a
  | None => Err e
  end.

Definition is_Ok {A} (r : result A) : bool :=
  match r with
  | Ok _ => true
  | Err _ => false
  end.

#[global] Instance byte_eq_decision : EqDecision byte := Byte.byte_eq_dec.

(** ** Arrays indexed by [N]

    [Vector<T>::operator[]]: [get l i] is the element at index [i], [from l i]
    the part of the array that starts at index [i]. *)

Fixpoint get {A} (l : list A) (i : N) : option A :=
  match l with
  | [] => None
  | x :: l' => if i =? 0 then Some x else get l' (N.pred i)
  end.

Fixpoint from {A} (l : list A) (i : N) : list A :=
  match l with
  | [] => []
  | _ :: l' => if i =? 0 then l else from l' (N.pred i)
  end.

Definition size_N {A} (l : list A) : N := N.of_nat (length l).

(** ** Identifiers *)

Definition id_type := N.

(** Modelled from the spec: [ID_MAX] is declared outside [Trie.hpp]; the spec
    calls it "the maximum representable id value". [id_type] is taken to be
    the 32-bit unsigned integer of the upstream headers. *)
Definition ID_MAX : id_type := 2 ^ 32 - 1.

(** [static constexpr auto NOT_FOUND = ID_MAX;] *)
Definition NOT_FOUND : id_type := ID_MAX.

(** ** std::string::reserve

    [s.reserve(n)] throws [std::length_error] when [n] is above
    [s.max_size()] and otherwise changes the capacity only, which no result
    of the engine depends on. [max_size()] is fixed by the standard library
    and not by [Trie.hpp]; it is taken to be that of libstdc++ on a 64-bit
    target, the smallest among the common implementations. *)
Definition STRING_MAX_SIZE : N := 2 ^ 62 - 1.

Definition reserve (n : N) : result unit :=
  if n <=? STRING_MAX_SIZE then Ok tt else Err LengthError.

(** ** BitVector

    Modelled from the spec: the bit-vector backend is an external
    collaborator (section 4.3). It is an immutable bit sequence with bit test,
    [rank i] = the number of set bits at positions below [i], and [select k] =
    the position of the [k]-th set bit, counting from 0; this is the
    convention under which [rank (select k) = k]. *)

Definition BitVector := list bool.

Definition bv_get (bv : BitVector) (i : N) : result bool :=
  read BitBounds (get bv i).

Definition count_ones (bs : list bool) : N :=
  size_N (filter (fun b => b = true) bs).

Definition rank (bv : BitVector) (i : N) : result id_type :=
  if i <=? size_N bv then Ok (count_ones (take (N.to_nat i) bv)) else Err BitBounds.

Fixpoint select_from (bs : list bool) (k : N) (i : N) : result id_type :=
  match bs with
  | [] => Err BitBounds
  | b :: bs' =>
      if b then (if k =? 0 then Ok i else select_from bs' (N.pred k) (N.succ i))
      else select_from bs' k (N.succ i)
  end.

Definition select (bv : BitVector) (k : N) : result id_type :=
  select_from bv k 0.

(** ** PackedArray (DacBc / FastDacBc)

    Modelled from the spec: the array-compression backend is an external
    collaborator (section 4.3): a random-access store of BASE, CHECK, LINK
    and the leaf flag for every node id below [num_nodes], free slots
    included. The two encodings differ in representation only. *)

Record bc_cell : Set := BcCell {
  cell_base : id_type;
  cell_check : id_type;
  cell_is_leaf : bool;
  cell_link : id_type
}.

Definition bc_type := list bc_cell.

Definition cell_at (bc : bc_type) (i : id_type) : result bc_cell :=
  read NodeBounds (get bc i).

Definition bc_base (bc : bc_type) (i : id_type) : result id_type :=
  let* c := cell_at bc i in Ok (cell_base c).
Definition bc_check (bc : bc_type) (i : id_type) : result id_type :=
  let* c := cell_at bc i in Ok (cell_check c).
Definition bc_is_leaf (bc : bc_type) (i : id_type) : result bool :=
  let* c := cell_at bc i in Ok (cell_is_leaf c).
Definition bc_link (bc : bc_type) (i : id_type) : result id_type :=
  let* c := cell_at bc i in Ok (cell_link c).
Definition bc_num_nodes (bc : bc_type) : N := size_N bc.

(** ** The dictionary *)

Record Trie : Type := MkTrie {
  bc_ : bc_type;
  terminal_flags_ : BitVector;
  tail_ : list byte;
  boundary_flags_ : BitVector;     (* used if bin_mode_ = true *)
  alphabet_ : list byte;
  table_ : list byte;              (* uint8_t table_[512]{} *)
  num_keys_ : N;
  max_length_ : N;
  bin_mode_ : bool
}.

Definition num_keys (t : Trie) : N := num_keys_ t.
Definition bin_mode (t : Trie) : bool := bin_mode_ t.
Definition alphabet_size (t : Trie) : N := size_N (alphabet_ t).
Definition num_nodes (t : Trie) : N := bc_num_nodes (bc_ t).

Section Queries.

Variable t : Trie.

Definition base := bc_base (bc_ t).
Definition check := bc_check (bc_ t).
Definition is_leaf := bc_is_leaf (bc_ t).
Definition link := bc_link (bc_ t).
Definition terminal (node_id : id_type) : result bool :=
  bv_get (terminal_flags_ t) node_id.
Definition boundary (tail_pos : N) : result bool :=
  bv_get (boundary_flags_ t) tail_pos.

(** [table_] is a zero-initialised array of 512 bytes: entries the list does
    not spell out are 0, and an index of 512 or more is out of bounds. *)
Definition table_at (i : N) : result byte :=
  if i <? 512 then Ok (nth (N.to_nat i) (table_ t) x00) else Err TableBounds.

Definition to_key_id_ (node_id : id_type) : result id_type :=
  rank (terminal_flags_ t) node_id.

Definition to_node_id_ (string_id : id_type) : result id_type :=
  select (terminal_flags_ t) string_id.

(** [table_[static_cast<uint8_t>(c)]]: the index is below 256. *)
Definition code_ (c : byte) : id_type :=
  Byte.to_N (nth (N.to_nat (Byte.to_N c)) (table_ t) x00).

Definition edge_ (node_id child_id : id_type) : result byte :=
  let* b := base node_id in table_at (N.lxor b child_id + 256).

(** *** Suffix matching

    [match_suffix_ (key, pos, tail_pos)] receives the input and a cursor into
    it; the embedding passes the unread part [key[pos..]], so that
    [pos == key.length()] reads "nothing is left" and the asserted
    [pos <= key.length()] holds by construction. Both loops are do-while
    loops entered with input left; in the recursion the case [[]] is their
    condition [pos < key.length()] failing. *)

Fixpoint match_bin (rest : list byte) (tail_pos : N) : result bool :=
  match rest with
  | [] => Ok false
  | c :: rest' =>
      let* tc := read TailBounds (get (tail_ t) tail_pos) in
      if bool_decide (c ≠ tc) then Ok false
      else
        let* bf := boundary tail_pos in
        if bf then Ok (bool_decide (rest' = []))
        else match_bin rest' (N.succ tail_pos)
  end.

Fixpoint match_text (rest : list byte) (tail_pos : N) : result bool :=
  match rest with
  | [] =>
      let* tc := read TailBounds (get (tail_ t) tail_pos) in
      Ok (bool_decide (tc = x00))
  | c :: rest' =>
      let* tc := read TailBounds (get (tail_ t) tail_pos) in
      if bool_decide (tc = x00) || bool_decide (c ≠ tc) then Ok false
      else match_text rest' (N.succ tail_pos)
  end.

Definition match_suffix_ (rest : list byte) (tail_pos : N) : result bool :=
  match rest with
  | [] => Ok (tail_pos =? 0)
  | _ :: _ => if bin_mode_ t then match_bin rest tail_pos else match_text rest tail_pos
  end.

(** *** Suffix extraction

    The loops walk the tail from [tail_pos] on; [cells] is the part of
    [tail_] not yet read, its head being [tail_[tail_pos]]. *)

Fixpoint extract_bin (cells : list byte) (tail_pos : N) (dec : list byte)
  : result (list byte) :=
  match cells with
  | [] => Err TailBounds
  | c :: cells' =>
      let* bf := boundary tail_pos in
      if bf then Ok (dec ++ [c])
      else extract_bin cells' (N.succ tail_pos) (dec ++ [c])
  end.

Fixpoint extract_text (cells : list byte) (dec : list byte) : result (list byte) :=
  match cells with
  | [] => Err TailBounds
  | c :: cells' =>
      if bool_decide (c = x00) then Ok dec
      else extract_text cells' (dec ++ [c])
  end.

Definition extract_suffix_ (tail_pos : N) (dec : list byte) : result (list byte) :=
  if bin_mode_ t then
    if negb (tail_pos =? 0) then extract_bin (from (tail_ t) tail_pos) tail_pos dec
    else Ok dec
  else extract_text (from (tail_ t) tail_pos) dec.

(** *** lookup

    [lookup_from rest node_id] is the loop from the state in which [rest] is
    the input from [pos] on. *)

Fixpoint lookup_from (rest : list byte) (node_id : id_type) : result id_type :=
  let* leaf := is_leaf node_id in
  if leaf then
    let* tail_pos := link node_id in
    let* m := match_suffix_ rest tail_pos in
    if negb m then Ok NOT_FOUND else to_key_id_ node_id
  else
    match rest with
    | [] =>
        let* tf := terminal node_id in
        if tf then to_key_id_ node_id else Ok NOT_FOUND
    | c :: rest' =>
        let* b := base node_id in
        let child_id := N.lxor b (code_ c) in
        let* ck := check child_id in
        if bool_decide (ck ≠ node_id) then Ok NOT_FOUND
        else lookup_from rest' child_id
    end.

Definition lookup (key : list byte) : result id_type := lookup_from key 0.

(** *** access *)

(** [while (node_id) { ... }]: the climb to the root. *)
Fixpoint access_up (fuel : nat) (node_id : id_type) (dec : list byte)
  : result (list byte) :=
  if node_id =? 0 then Ok dec
  else
    match fuel with
    | O => Err Fuel
    | S fuel' =>
        let* parent_id := check node_id in
        let* e := edge_ parent_id node_id in
        access_up fuel' parent_id (dec ++ [e])
    end.

(** The two inline tail loops of [access]; the text one is a do-while. *)
Definition access_tail (tail_pos : N) (dec : list byte) : result (list byte) :=
  if bin_mode_ t then extract_bin (from (tail_ t) tail_pos) tail_pos dec
  else
    match from (tail_ t) tail_pos with
    | [] => Err TailBounds
    | c :: cells' => extract_text cells' (dec ++ [c])
    end.

Definition access_fuel (fuel : nat) (id : id_type) : result (list byte) :=
  if num_keys_ t <=? id then Ok []
  else
    let* reserved := reserve (max_length_ t) in   (* dec.reserve(max_length_) *)
    let* node_id := to_node_id_ id in
    let* leaf := is_leaf node_id in
    let* tail_pos := (if leaf then link node_id else Ok NOT_FOUND) in
    let* dec := access_up fuel node_id [] in
    let dec := rev dec in
    if negb (tail_pos =? 0) && negb (tail_pos =? NOT_FOUND)
    then access_tail tail_pos dec
    else Ok dec.

(** A climb that has not reached the root after [num_nodes] steps, all of
    them inside the array, has visited some node twice and goes on for
    ever; [num_nodes] is therefore the fuel of [access]. *)
Definition access (id : id_type) : result (list byte) :=
  access_fuel (N.to_nat (num_nodes t)) id.

End Queries.

(** ** PrefixIterator: common-prefix search *)

Module PrefixIterator.

Record t : Type := Mk {
  trie_ : option Trie;             (* const trie_type* trie_{} *)
  key_ : list byte;
  pos_ : nat;
  node_id_ : id_type;
  id_ : id_type;
  begin_flag_ : bool;
  end_flag_ : bool
}.

(** [PrefixIterator() = default] *)
Definition empty : t := Mk None [] 0 0 0 true false.

(** [std::string_view key() const { return {key_.data(), pos_}; }] *)
Definition key (it : t) : list byte := take (pos_ it) (key_ it).
Definition id (it : t) : id_type := id_ it.

Definition set_pos (p : nat) (it : t) : t :=
  Mk (trie_ it) (key_ it) p (node_id_ it) (id_ it) (begin_flag_ it) (end_flag_ it).
Definition set_node_id (n : id_type) (it : t) : t :=
  Mk (trie_ it) (key_ it) (pos_ it) n (id_ it) (begin_flag_ it) (end_flag_ it).
Definition set_id (i : id_type) (it : t) : t :=
  Mk (trie_ it) (key_ it) (pos_ it) (node_id_ it) i (begin_flag_ it) (end_flag_ it).
Definition set_begin_flag (b : bool) (it : t) : t :=
  Mk (trie_ it) (key_ it) (pos_ it) (node_id_ it) (id_ it) b (end_flag_ it).
Definition set_end_flag (b : bool) (it : t) : t :=
  Mk (trie_ it) (key_ it) (pos_ it) (node_id_ it) (id_ it) (begin_flag_ it) b.

End PrefixIterator.

Definition make_prefix_iterator (t : Trie) (key : list byte) : PrefixIterator.t :=
  PrefixIterator.Mk (Some t) key 0 0 0 true false.

Section NextPrefix.

Import PrefixIterator.
Variable t : Trie.

(** After the loop: one suffix match against what is left of the input. *)
Definition prefix_finish (it : PrefixIterator.t) : result (bool * PrefixIterator.t) :=
  let it := set_end_flag true it in
  let* tail_pos := link t (node_id_ it) in
  if (length (key_ it) <? pos_ it)%nat then Err KeyBounds   (* assert(pos <= key.length()) *)
  else
    let* m := match_suffix_ t (drop (pos_ it) (key_ it)) tail_pos in
    if negb m then Ok (false, set_id NOT_FOUND it)
    else
      let it := set_pos (length (key_ it)) it in
      let* id := to_key_id_ t (node_id_ it) in
      Ok (true, set_id id it).

(** [while (!bc_.is_leaf(it->node_id_)) { ... }]; [rest] is the input from
    [pos_] on, and [key_[pos_++]] with nothing left reads past the view. *)
Fixpoint prefix_loop (rest : list byte) (it : PrefixIterator.t)
  : result (bool * PrefixIterator.t) :=
  let* leaf := is_leaf t (node_id_ it) in
  if leaf then prefix_finish it
  else
    match rest with
    | [] => Err KeyBounds
    | c :: rest' =>
        let* b := base t (node_id_ it) in
        let child_id := N.lxor b (code_ t c) in
        let it := set_pos (S (pos_ it)) it in
        let* ck := check t child_id in
        if bool_decide (ck ≠ node_id_ it)
        then Ok (false, set_id NOT_FOUND (set_end_flag true it))
        else
          let it := set_node_id child_id it in
          let* leaf' := is_leaf t child_id in
          let* hit := (if negb leaf' then terminal t child_id else Ok false) in
          if hit then
            let* id := to_key_id_ t child_id in
            Ok (true, set_id id it)
          else prefix_loop rest' it
    end.

Definition next_prefix_ (it : PrefixIterator.t) : result (bool * PrefixIterator.t) :=
  if end_flag_ it then Ok (false, it)
  else
    let after_begin (it : PrefixIterator.t) :=
      prefix_loop (drop (pos_ it) (key_ it)) it in
    if begin_flag_ it then
      let it := set_begin_flag false it in
      let* tf := terminal t (node_id_ it) in
      if tf then
        let* id := to_key_id_ t (node_id_ it) in
        Ok (true, set_id id it)
      else after_begin it
    else after_begin it.

End NextPrefix.

(** [bool next() { return trie_ != nullptr && trie_->next_prefix_(this); }] *)
Definition prefix_next (it : PrefixIterator.t) : result (bool * PrefixIterator.t) :=
  match PrefixIterator.trie_ it with
  | None => Ok (false, it)
  | Some t => next_prefix_ t it
  end.

(** ** PredictiveIterator: predictive search in lexicographic order *)

Module PredictiveIterator.

Record stack_t : Set := Frame {
  depth : nat;
  c : byte;
  node_id : id_type
}.

(** [stack_] is kept top first: [push_back] conses, [back] is the head. *)
Record t : Type := Mk {
  trie_ : option Trie;
  key_ : list byte;
  begin_flag_ : bool;
  end_flag_ : bool;
  stack_ : list stack_t;
  buf_ : list byte;
  id_ : id_type
}.

Definition empty : t := Mk None [] true false [] [] 0.

Definition key (it : t) : list byte := buf_ it.
Definition id (it : t) : id_type := id_ it.

Definition set_begin_flag (b : bool) (it : t) : t :=
  Mk (trie_ it) (key_ it) b (end_flag_ it) (stack_ it) (buf_ it) (id_ it).
Definition set_end_flag (b : bool) (it : t) : t :=
  Mk (trie_ it) (key_ it) (begin_flag_ it) b (stack_ it) (buf_ it) (id_ it).
Definition set_stack (s : list stack_t) (it : t) : t :=
  Mk (trie_ it) (key_ it) (begin_flag_ it) (end_flag_ it) s (buf_ it) (id_ it).
Definition set_buf (b : list byte) (it : t) : t :=
  Mk (trie_ it) (key_ it) (begin_flag_ it) (end_flag_ it) (stack_ it) b (id_ it).
Definition set_id (i : id_type) (it : t) : t :=
  Mk (trie_ it) (key_ it) (begin_flag_ it) (end_flag_ it) (stack_ it) (buf_ it) i.

End PredictiveIterator.

(** The constructor of the cursor calls [buf_.reserve(trie->max_length_)]. *)
Definition make_predictive_iterator (t : Trie) (key : list byte)
  : result PredictiveIterator.t :=
  let* reserved := reserve (max_length_ t) in
  Ok (PredictiveIterator.Mk (Some t) key true false [] [] 0).

(** [buf_.resize(depth); buf_.back() = c;] *)
Definition set_back (c : byte) (buf : list byte) : list byte :=
  <[pred (length buf) := c]> buf.

Section NextPredictive.

Import PredictiveIterator.
Variable t : Trie.

(** What [next_predictive_] does after its first phase: it has returned, or
    it goes on to the traversal loop. *)
Inductive flow : Type :=
| Return (b : bool) (it : PredictiveIterator.t)
| Continue (it : PredictiveIterator.t).

(** The exit of both matching loops of the first phase. *)
Definition predictive_yield_leaf (node_id : id_type) (tail_pos : N)
  (it : PredictiveIterator.t) : result (bool * PredictiveIterator.t) :=
  let* id := to_key_id_ t node_id in
  let it := set_id id it in
  let* buf := extract_suffix_ t tail_pos (buf_ it) in
  Ok (true, set_buf buf it).

Fixpoint predictive_match_bin (rest : list byte) (node_id : id_type) (tail_pos : N)
  (it : PredictiveIterator.t) : result (bool * PredictiveIterator.t) :=
  match rest with
  | [] => predictive_yield_leaf node_id tail_pos it
  | c :: rest' =>
      let* tc := read TailBounds (get (tail_ t) tail_pos) in
      if bool_decide (c ≠ tc) then Ok (false, it)
      else
        let it := set_buf (buf_ it ++ [c]) it in
        let* bf := boundary t tail_pos in
        if bf then
          if bool_decide (rest' = []) then
            let* id := to_key_id_ t node_id in
            Ok (true, set_id id it)
          else Ok (false, it)
        else predictive_match_bin rest' node_id (N.succ tail_pos) it
  end.

Fixpoint predictive_match_text (rest : list byte) (node_id : id_type) (tail_pos : N)
  (it : PredictiveIterator.t) : result (bool * PredictiveIterator.t) :=
  match rest with
  | [] => predictive_yield_leaf node_id tail_pos it
  | c :: rest' =>
      let* tc := read TailBounds (get (tail_ t) tail_pos) in
      if bool_decide (c ≠ tc) || bool_decide (tc = x00) then Ok (false, it)
      else
        predictive_match_text rest' node_id (N.succ tail_pos)
          (set_buf (buf_ it ++ [c]) it)
  end.

(** [for (; pos < it->key_.length(); ++pos) { ... }] followed by the push of
    the seed frame; [rest] is the input from [pos] on. *)
Fixpoint predictive_descend (rest : list byte) (pos : nat) (node_id : id_type)
  (it : PredictiveIterator.t) : result flow :=
  match rest with
  | [] =>
      let seed :=
        match last (buf_ it) with
        | Some b => Frame pos b node_id
        | None => Frame pos x00 node_id
        end in
      Ok (Continue (set_stack (seed :: stack_ it) it))
  | c :: rest' =>
      let* leaf := is_leaf t node_id in
      if leaf then
        let it := set_end_flag true it in
        let* tail_pos := link t node_id in
        if tail_pos =? 0 then Ok (Return false it)
        else
          let* r := (if bin_mode_ t
                     then predictive_match_bin rest node_id tail_pos it
                     else predictive_match_text rest node_id tail_pos it) in
          Ok (Return (fst r) (snd r))
      else
        let* b := base t node_id in
        let child_id := N.lxor b (code_ t c) in
        let* ck := check t child_id in
        if bool_decide (ck ≠ node_id) then Ok (Return false (set_end_flag true it))
        else
          predictive_descend rest' (S pos) child_id (set_buf (buf_ it ++ [c]) it)
  end.

(** [for (auto rit = std::rbegin(alphabet_); rit != std::rend(alphabet_); ++rit)]:
    [letters] is the alphabet in the order of the loop, last letter first. *)
Fixpoint push_children (letters : list byte) (b : id_type) (node_id : id_type)
  (depth : nat) (stack : list stack_t) : result (list stack_t) :=
  match letters with
  | [] => Ok stack
  | a :: letters' =>
      let child_id := N.lxor b (code_ t a) in
      let* ck := check t child_id in
      push_children letters' b node_id depth
        (if bool_decide (ck = node_id) then Frame (S depth) a child_id :: stack
         else stack)
  end.

(** [while (!it->stack_.empty()) { ... }] *)
Fixpoint predictive_loop (fuel : nat) (it : PredictiveIterator.t)
  : result (bool * PredictiveIterator.t) :=
  match stack_ it with
  | [] => Ok (false, set_end_flag true it)
  | top :: stack' =>
      match fuel with
      | O => Err Fuel
      | S fuel' =>
          let it := set_stack stack' it in
          let it :=
            if (0 <? depth top)%nat
            then set_buf (set_back (c top) (resize (depth top) x00 (buf_ it))) it
            else it in
          let* leaf := is_leaf t (node_id top) in
          if leaf then
            let* id := to_key_id_ t (node_id top) in
            let it := set_id id it in
            let* tail_pos := link t (node_id top) in
            let* buf := extract_suffix_ t tail_pos (buf_ it) in
            Ok (true, set_buf buf it)
          else
            let* b := base t (node_id top) in
            let* stack'' :=
              push_children (rev (alphabet_ t)) b (node_id top) (depth top)
                (stack_ it) in
            let it := set_stack stack'' it in
            let* tf := terminal t (node_id top) in
            if tf then
              let* id := to_key_id_ t (node_id top) in
              Ok (true, set_id id it)
            else predictive_loop fuel' it
      end
  end.

Definition next_predictive_ (fuel : nat) (it : PredictiveIterator.t)
  : result (bool * PredictiveIterator.t) :=
  if end_flag_ it then Ok (false, it)
  else if begin_flag_ it then
    let it := set_begin_flag false it in
    let* f := predictive_descend (key_ it) 0 0 it in
    match f with
    | Return b it => Ok (b, it)
    | Continue it => predictive_loop fuel it
    end
  else predictive_loop fuel it.

End NextPredictive.

(** [bool next() { return trie_ != nullptr && trie_->next_predictive_(this); }] *)
Definition predictive_next (fuel : nat) (it : PredictiveIterator.t)
  : result (bool * PredictiveIterator.t) :=
  match PredictiveIterator.trie_ it with
  | None => Ok (false, it)
  | Some t => next_predictive_ t fuel it
  end.

(** ** Draining a cursor

    The client loop [while (it.next()) { ... it.key() ... it.id() ... }]: the
    hits in the order in which [next] reports them, up to the first [false].
    [calls] bounds the number of calls. *)

Fixpoint prefix_hits (calls : nat) (it : PrefixIterator.t)
  : result (list (list byte * id_type)) :=
  match calls with
  | O => Err Fuel
  | S calls' =>
      let* r := prefix_next it in
      if fst r then
        let* hits := prefix_hits calls' (snd r) in
        Ok ((PrefixIterator.key (snd r), PrefixIterator.id (snd r)) :: hits)
      else Ok []
  end.

Fixpoint predictive_hits (calls fuel : nat) (it : PredictiveIterator.t)
  : result (list (list byte * id_type)) :=
  match calls with
  | O => Err Fuel
  | S calls' =>
      let* r := predictive_next fuel it in
      if fst r then
        let* hits := predictive_hits calls' fuel (snd r) in
        Ok ((PredictiveIterator.key (snd r), PredictiveIterator.id (snd r)) :: hits)
      else Ok []
  end.

(** ** Well-formed dictionaries

    The builder is not part of the engine; what it guarantees is stated here
    as a check that runs on a dictionary. It spells out the invariants of the
    data model (section 3 of the specification): the used nodes form a tree
    under node 0 whose edges are the CHECK links, the set bits of
    [terminal_flags_] are used nodes and there are [num_keys_] of them, the
    code table satisfies [table[table[c] + 256] = c] (the comment on
    [table_]), the alphabet is sorted, offset 0 of the tail is the empty
    suffix, and every leaf links to a suffix that ends inside the tail.
    [max_length_] is the length of the longest key; a key is a path of the
    tree followed by a suffix from the tail, so [max_length_] is no more
    than the number of nodes and the size of the tail together. *)

Section WellFormed.

Variable t : Trie.

Definition node_ids : list id_type :=
  map N.of_nat (seq 0 (length (bc_ t))).

Definition codes : list N := map N.of_nat (seq 0 256).

(** [c] sits in the block of children of its CHECK node, and that node
    branches. *)
Definition parent_ok (c : id_type) : bool :=
  match check t c with
  | Ok p =>
      match is_leaf t p, base t p with
      | Ok false, Ok b => N.lxor b c <? 256
      | _, _ => false
      end
  | Err _ => false
  end.

(** The number of CHECK links from [c] up to the root, if the climb gets
    there within [fuel] links. *)
Fixpoint depth_of (fuel : nat) (c : id_type) : option nat :=
  if c =? 0 then Some O
  else
    match fuel with
    | O => None
    | S fuel' =>
        if parent_ok c then
          match check t c with
          | Ok p => S <$> depth_of fuel' p
          | Err _ => None
          end
        else None
    end.

Definition used (c : id_type) : bool :=
  bool_decide (is_Some (depth_of (length (bc_ t)) c)).

Definition is_true_at (r : result bool) : bool :=
  match r with
  | Ok b => b
  | Err _ => false
  end.

Definition sizes_ok : bool :=
  (0 <? num_nodes t) && (num_nodes t <=? ID_MAX)
  && (size_N (terminal_flags_ t) =? num_nodes t)
  && (size_N (tail_ t) <=? ID_MAX)
  && (num_keys_ t =? count_ones (terminal_flags_ t))
  && (max_length_ t <=? num_nodes t + size_N (tail_ t)).

(** [table[table[c] + 256] = c], and the other way round. *)
Definition table_ok : bool :=
  bool_decide (length (table_ t) = 512%nat)
  && forallb (fun x =>
       match Byte.of_N x with
       | Some c =>
           match table_at t (code_ t c + 256) with
           | Ok c' => bool_decide (c' = c)
           | Err _ => false
           end
       | None => false
       end) codes
  && forallb (fun x =>
       match table_at t (x + 256) with
       | Ok c => code_ t c =? x
       | Err _ => false
       end) codes.

Definition used_parent (c : id_type) : bool :=
  match check t c with
  | Ok p => used p
  | Err _ => false
  end.

(** Node 0 is nobody's child; the child of a used node is within [num_nodes]
    links of the root; the block of a used branching node is inside the array. *)
Definition tree_ok : bool :=
  negb (parent_ok 0 && used_parent 0)
  && forallb (fun c =>
       implb (negb (c =? 0) && parent_ok c && used_parent c) (used c)) node_ids
  && forallb (fun p =>
       implb (used p && negb (is_true_at (is_leaf t p)))
         match base t p with
         | Ok b => forallb (fun x => N.lxor b x <? num_nodes t) codes
         | Err _ => false
         end) node_ids.

(** A terminal node is used, and a used leaf is terminal. *)
Definition keys_ok : bool :=
  forallb (fun n => implb (is_true_at (terminal t n)) (used n)) node_ids
  && forallb (fun n =>
       implb (used n && is_true_at (is_leaf t n)) (is_true_at (terminal t n)))
       node_ids.

Fixpoint ascending (l : list byte) : bool :=
  match l with
  | a :: l' =>
      match l' with
      | b :: _ => (Byte.to_N a <? Byte.to_N b) && ascending l'
      | [] => true
      end
  | [] => true
  end.

(** The alphabet is sorted and holds the letter of every edge. *)
Definition alphabet_ok : bool :=
  ascending (alphabet_ t)
  && forallb (fun c =>
       implb (negb (c =? 0) && used c)
         match check t c with
         | Ok p =>
             match edge_ t p c with
             | Ok e => bool_decide (e ∈ alphabet_ t)
             | Err _ => false
             end
         | Err _ => false
         end) node_ids.

(** What a leaf may link to: offset 0, or the start of a suffix that is not
    empty and ends inside the tail. *)
Definition suffix_ok (tail_pos : N) : bool :=
  (tail_pos =? 0)
  || if bin_mode_ t
     then is_Ok (extract_bin t (from (tail_ t) tail_pos) tail_pos [])
     else
       match from (tail_ t) tail_pos with
       | c :: _ =>
           negb (bool_decide (c = x00))
           && is_Ok (extract_text (from (tail_ t) tail_pos) [])
       | [] => false
       end.

(** In text mode offset 0 holds the NUL of the empty suffix. *)
Definition tail_ok : bool :=
  (bin_mode_ t || bool_decide (get (tail_ t) 0 = Some x00))
  && forallb (fun n =>
       implb (used n && is_true_at (is_leaf t n))
         match link t n with
         | Ok p => suffix_ok p
         | Err _ => false
         end) node_ids.

Definition well_formed : bool :=
  sizes_ok && table_ok && tree_ok && keys_ok && alphabet_ok && tail_ok.

End WellFormed.

(** ** Two small dictionaries

    Laid out the way the builder lays a dictionary out: 256 slots, node 0 the
    root, node 1 never used and the CHECK of every free slot, codes given in
    order of letter frequency, offset 0 of the tail reserved for the empty
    suffix. *)

Module Examples.

Definition byte_of_N (n : N) : byte := default x00 (Byte.of_N n).

Definition all_bytes : list byte := map (fun i => byte_of_N (N.of_nat i)) (seq 0 256).

Fixpoint index_of (b : byte) (l : list byte) : N :=
  match l with
  | [] => 0
  | x :: l' => if bool_decide (x = b) then 0 else N.succ (index_of b l')
  end.

(** [table[c]] is the code of [c], [table[code + 256]] the letter of [code];
    [first] lists the letters that get the codes 0, 1, 2, ... *)
Definition make_table (first : list byte) : list byte :=
  let order := first ++ filter (fun b => b ∉ first) all_bytes in
  map (fun b => byte_of_N (index_of b order)) all_bytes ++ order.

Definition free_cell : bc_cell := BcCell 0 1 false 0.

Definition make_bc (used : list bc_cell) : bc_type :=
  used ++ replicate (256 - length used) free_cell.

Definition make_flags (n : nat) (set : list nat) : BitVector :=
  map (fun i => bool_decide (i ∈ set)) (seq 0 n).

Definition str (s : string) : list byte := list_byte_of_string s.

(** The keys "a", "an", "and", "ant", "bird", "cat" in text mode, ids 0 to 5.
    Codes: a = 0, n = 1, d = 2, t = 3, b = 4, c = 5. Nodes: 2 = "a",
    3 = "an", 4 = "and", 5 = "ant", 6 = "b" with the suffix "ird" at tail
    offset 1, 7 = "c" with the suffix "at" at tail offset 5. *)
Definition text_trie : Trie := {|
  bc_ := make_bc [
    BcCell 2 1 false 0;      (* 0: root, children at 2 xor code *)
    free_cell;               (* 1: never used *)
    BcCell 2 0 false 0;      (* 2: "a", child "an" at 2 xor 1 *)
    BcCell 6 2 false 0;      (* 3: "an", children at 6 xor 2 and 6 xor 3 *)
    BcCell 0 3 true 0;       (* 4: "and", leaf, empty suffix *)
    BcCell 0 3 true 0;       (* 5: "ant", leaf, empty suffix *)
    BcCell 0 0 true 1;       (* 6: "b", leaf, suffix at 1 *)
    BcCell 0 0 true 5        (* 7: "c", leaf, suffix at 5 *)
  ];
  terminal_flags_ := make_flags 256 [2; 3; 4; 5; 6; 7]%nat;
  tail_ := x00 :: str "ird" ++ x00 :: str "at" ++ [x00];
  boundary_flags_ := [];
  alphabet_ := str "abcdinrt";
  table_ := make_table (str "andtbcir");
  num_keys_ := 6;
  max_length_ := 4;
  bin_mode_ := false
|}.

(** The keys "a" and "b\0" in binary mode, ids 0 and 1. Codes: a = 0, b = 1,
    NUL = 2. Nodes: 2 = "a" with the empty suffix, 3 = "b" with the
    one-byte suffix NUL at tail offset 1. *)
Definition bin_trie : Trie := {|
  bc_ := make_bc [
    BcCell 2 1 false 0;
    free_cell;
    BcCell 0 0 true 0;
    BcCell 0 0 true 1
  ];
  terminal_flags_ := make_flags 256 [2; 3]%nat;
  tail_ := [x00; x00];
  boundary_flags_ := [false; true];
  alphabet_ := x00 :: str "ab";
  table_ := make_table (str "ab" ++ [x00]);
  num_keys_ := 2;
  max_length_ := 2;
  bin_mode_ := true
|}.

(** The single key "abc" in text mode: the root is a leaf and holds the whole
    key as its suffix. *)
Definition single_key_trie : Trie := {|
  bc_ := make_bc [BcCell 0 1 true 1];
  terminal_flags_ := make_flags 256 [0]%nat;
  tail_ := x00 :: str "abc" ++ [x00];
  boundary_flags_ := [];
  alphabet_ := str "abc";
  table_ := make_table (str "abc");
  num_keys_ := 1;
  max_length_ := 3;
  bin_mode_ := false
|}.

(** The empty key and "a" in text mode, ids 0 and 1: the root is terminal
    and branches, node 2 = "a" is a leaf with the empty suffix. *)
Definition empty_key_trie : Trie := {|
  bc_ := make_bc [
    BcCell 2 1 false 0;
    free_cell;
    BcCell 0 0 true 0
  ];
  terminal_flags_ := make_flags 256 [0; 2]%nat;
  tail_ := [x00];
  boundary_flags_ := [];
  alphabet_ := str "a";
  table_ := make_table (str "a");
  num_keys_ := 2;
  max_length_ := 1;
  bin_mode_ := false
|}.

End Examples.


(** ** The registered keys and the shape of the tree *)

Definition hit : Type := list byte * id_type.

Section KeySet.

Variable t : Trie.

(** The keys of the dictionary are the strings its ids decode to. *)
Definition registered (k : list byte) (id : id_type) : Prop :=
  id < num_keys t ∧ access t id = Ok k.

(** One transition of the double array, as every traversal tests it:
    [child_id = base(node_id) ^ code_(a)] and [check(child_id) == node_id],
    from a node that is not a leaf. *)
Definition child (p : id_type) (a : byte) (c : id_type) : Prop :=
  is_leaf t p = Ok false ∧
  ∃ b, base t p = Ok b ∧ c = N.lxor b (code_ t a) ∧ check t c = Ok p.

Inductive walk : id_type → list byte → id_type → Prop :=
| walk_nil n : walk n [] n
| walk_cons m a c bs n : child m a c → walk c bs n → walk m (a :: bs) n.

(** Node [n], reached from the root by [path], stands for the key [k] with
    the id [id]. *)
Definition key_at (n : id_type) (path : list byte) (k : list byte) (id : id_type)
  : Prop :=
  terminal t n = Ok true ∧ to_key_id_ t n = Ok id ∧
  ∃ leaf, is_leaf t n = Ok leaf ∧
    if leaf then ∃ tail_pos, link t n = Ok tail_pos ∧
                             extract_suffix_ t tail_pos path = Ok k
    else k = path.

(** The keys below a node in the order of a depth-first traversal that
    takes the letters in the order of [alphabet_] and a node before its
    children; [d] bounds the depth. *)
Fixpoint kids_hits (rec : id_type → list byte → result (list hit))
  (b n : id_type) (path : list byte) (letters : list byte) : result (list hit) :=
  match letters with
  | [] => Ok []
  | a :: letters' =>
      let c := N.lxor b (code_ t a) in
      let* ck := check t c in
      let* first := (if bool_decide (ck = n) then rec c (path ++ [a]) else Ok []) in
      let* others := kids_hits rec b n path letters' in
      Ok (first ++ others)
  end.

Fixpoint subtree (d : nat) (n : id_type) (path : list byte) : result (list hit) :=
  match d with
  | O => Err Fuel
  | S d' =>
      let* leaf := is_leaf t n in
      if leaf then
        let* id := to_key_id_ t n in
        let* tail_pos := link t n in
        let* k := extract_suffix_ t tail_pos path in
        Ok [(k, id)]
      else
        let* b := base t n in
        let* kids := kids_hits (subtree d') b n path (alphabet_ t) in
        let* tf := terminal t n in
        if tf then
          let* id := to_key_id_ t n in
          Ok ((path, id) :: kids)
        else Ok kids
  end.

End KeySet.

(** Lexicographic order on byte strings, bytes compared as unsigned. *)
Fixpoint lex_lt (x y : list byte) : Prop :=
  match x, y with
  | _, [] => False
  | [], _ :: _ => True
  | a :: x', b :: y' =>
      Byte.to_N a < Byte.to_N b ∨ (a = b ∧ lex_lt x' y')
  end.

(** ** The serialized layout

    [write] and the reading constructor call the serializers of the
    components, which live with the backends. A component serializer is a
    pair of a writer and a reader; [round_trips c x] is the contract of
    section 4.3 for the value [x]: reading back what was written gives [x]
    and leaves the rest of the stream. *)

Record codec (A : Type) : Type := Codec {
  put : A → list byte;
  get_ : list byte → result (A * list byte)
}.
Arguments put {A} _ _.
Arguments get_ {A} _ _.

Definition round_trips {A} (c : codec A) (x : A) : Prop :=
  ∀ rest, get_ c (put c x ++ rest) = Ok (x, rest).

(** [is.read(buf, n)] *)
Fixpoint read_raw (n : nat) (ins : list byte) : result (list byte * list byte) :=
  match n with
  | O => Ok ([], ins)
  | S n' =>
      match ins with
      | [] => Err StreamBounds
      | b :: ins' =>
          let* r := read_raw n' ins' in
          Ok (b :: fst r, snd r)
      end
  end.

Section Serialization.

Variable bc_codec : codec bc_type.           (* bc_type(is), bc_.write(os) *)
Variable bits_codec : codec BitVector.       (* BitVector(is), write(os) *)
Variable vector_codec : codec (list byte).   (* Vector<char>, Vector<uint8_t> *)
Variable size_codec : codec N.               (* read_value<size_t>, write_value *)
Variable bool_codec : codec bool.            (* read_value<bool>, write_value *)

(** [void write(std::ostream& os) const] *)
Definition write (t : Trie) (os : list byte) : list byte :=
  let os := os ++ put bc_codec (bc_ t) in
  let os := os ++ put bits_codec (terminal_flags_ t) in
  let os := os ++ put vector_codec (tail_ t) in
  let os := os ++ put bits_codec (boundary_flags_ t) in
  let os := os ++ put vector_codec (alphabet_ t) in
  let os := os ++ resize 512 x00 (table_ t) in
  let os := os ++ put size_codec (num_keys_ t) in
  let os := os ++ put size_codec (max_length_ t) in
  os ++ put bool_codec (bin_mode_ t).

(** [explicit Trie(std::istream& is)]; the second component is what is left
    of the stream. *)
Definition read_trie (ins : list byte) : result (Trie * list byte) :=
  let* r := get_ bc_codec ins in
  let bc := fst r in
  let* r := get_ bits_codec (snd r) in
  let terminal_flags := fst r in
  let* r := get_ vector_codec (snd r) in
  let tail := fst r in
  let* r := get_ bits_codec (snd r) in
  let boundary_flags := fst r in
  let* r := get_ vector_codec (snd r) in
  let alphabet := fst r in
  let* r := read_raw 512 (snd r) in
  let table := fst r in
  let* r := get_ size_codec (snd r) in
  let num_keys := fst r in
  let* r := get_ size_codec (snd r) in
  let max_length := fst r in
  let* r := get_ bool_codec (snd r) in
  let bin_mode := fst r in
  Ok (MkTrie bc terminal_flags tail boundary_flags alphabet table
        num_keys max_length bin_mode, snd r).

(** Every component serializer reads back what it writes for the component
    of [t], and the code table has its 512 entries. *)
Definition components_round_trip (t : Trie) : Prop :=
  round_trips bc_codec (bc_ t)
  ∧ round_trips bits_codec (terminal_flags_ t)
  ∧ round_trips vector_codec (tail_ t)
  ∧ round_trips bits_codec (boundary_flags_ t)
  ∧ round_trips vector_codec (alphabet_ t)
  ∧ length (table_ t) = 512%nat
  ∧ round_trips size_codec (num_keys_ t)
  ∧ round_trips size_codec (max_length_ t)
  ∧ round_trips bool_codec (bin_mode_ t).

End Serialization.

(** *** Reference serializers

    Fixed-width little-endian scalars and length-prefixed arrays: stand-ins
    for the serializers of the backends, enough to run [write] and
    [read_trie] on the example dictionaries. *)

Module Wire.

Import Examples.

Fixpoint le_bytes (width : nat) (v : N) : list byte :=
  match width with
  | O => []
  | S w => byte_of_N (v mod 256) :: le_bytes w (v / 256)
  end.

Fixpoint le_value (bs : list byte) : N :=
  match bs with
  | [] => 0
  | b :: bs' => Byte.to_N b + 256 * le_value bs'
  end.

Definition size_codec : codec N := {|
  put := le_bytes 8;
  get_ := fun ins : list byte =>
    let* r := read_raw 8 ins in Ok (le_value (fst r), snd r)
|}.

Definition bool_codec : codec bool := {|
  put := fun b : bool => [if b then x01 else x00];
  get_ := fun ins : list byte =>
    let* r := read_raw 1 ins in Ok (negb (bool_decide (fst r = [x00])), snd r)
|}.

(** [count] items, each read by [item]. *)
Fixpoint get_items {A} (item : list byte → result (A * list byte)) (count : nat)
  (ins : list byte) : result (list A * list byte) :=
  match count with
  | O => Ok ([], ins)
  | S n =>
      let* r := item ins in
      let* rs := get_items item n (snd r) in
      Ok (fst r :: fst rs, snd rs)
  end.

Definition array_codec {A} (c : codec A) : codec (list A) := {|
  put := fun l : list A => put size_codec (size_N l) ++ concat (map (put c) l);
  get_ := fun ins : list byte =>
    let* r := get_ size_codec ins in
    get_items (get_ c) (N.to_nat (fst r)) (snd r)
|}.

Definition byte_codec : codec byte := {|
  put := fun b : byte => [b];
  get_ := fun ins : list byte =>
    match ins with
    | [] => Err StreamBounds
    | b :: ins' => Ok (b, ins')
    end
|}.

Definition cell_codec : codec bc_cell := {|
  put := fun c : bc_cell =>
    put size_codec (cell_base c) ++ put size_codec (cell_check c)
    ++ put bool_codec (cell_is_leaf c) ++ put size_codec (cell_link c);
  get_ := fun ins : list byte =>
    let* b := get_ size_codec ins in
    let* c := get_ size_codec (snd b) in
    let* l := get_ bool_codec (snd c) in
    let* k := get_ size_codec (snd l) in
    Ok (BcCell (fst b) (fst c) (fst l) (fst k), snd k)
|}.

Definition vector_codec : codec (list byte) := array_codec byte_codec.
Definition bits_codec : codec BitVector := array_codec bool_codec.
Definition bc_codec : codec bc_type := array_codec cell_codec.

Definition write_trie (t : Trie) : list byte :=
  write bc_codec bits_codec vector_codec size_codec bool_codec t nil.

Definition read_back (ins : list byte) : result (Trie * list byte) :=
  read_trie bc_codec bits_codec vector_codec size_codec bool_codec ins.

End Wire.

(** ** What the check of well-formedness establishes *)

Record WF (t : Trie) : Prop := {
  wf_root : 0 < num_nodes t;
  wf_nodes_max : num_nodes t <= ID_MAX;
  wf_flags : size_N (terminal_flags_ t) = num_nodes t;
  wf_tail_max : size_N (tail_ t) <= ID_MAX;
  wf_num_keys : num_keys_ t = count_ones (terminal_flags_ t);
  wf_max_length : max_length_ t <= num_nodes t + size_N (tail_ t);
  wf_table_length : length (table_ t) = 512%nat;
  wf_decode_code : ∀ c : byte, table_at t (code_ t c + 256) = Ok c;
  wf_code_decode : ∀ x, x < 256 → ∃ c, table_at t (x + 256) = Ok c ∧ code_ t c = x;
  wf_root_orphan : ¬ (parent_ok t 0 = true ∧ used_parent t 0 = true);
  wf_closed : ∀ c,
    c ≠ 0 → parent_ok t c = true → used_parent t c = true → used t c = true;
  wf_block : ∀ p b x,
    used t p = true → is_leaf t p = Ok false → base t p = Ok b → x < 256 →
    N.lxor b x < num_nodes t;
  wf_terminal_used : ∀ n, terminal t n = Ok true → used t n = true;
  wf_leaf_terminal : ∀ n,
    used t n = true → is_leaf t n = Ok true → terminal t n = Ok true;
  wf_ascending : ascending (alphabet_ t) = true;
  wf_edge_alphabet : ∀ c p e,
    c ≠ 0 → used t c = true → check t c = Ok p → edge_ t p c = Ok e →
    e ∈ alphabet_ t;
  wf_tail0 : bin_mode_ t = false → get (tail_ t) 0 = Some x00;
  wf_suffix : ∀ n p,
    used t n = true → is_leaf t n = Ok true → link t n = Ok p →
    suffix_ok t p = true
}.

(** ** Calling [next] again and again

    The result of one more call after [n] calls whose results are dropped. *)

Fixpoint prefix_next_n (n : nat) (it : PrefixIterator.t)
  : result (bool * PrefixIterator.t) :=
  match n with
  | O => prefix_next it
  | S n' => let* r := prefix_next it in prefix_next_n n' (snd r)
  end.

Fixpoint predictive_next_n (n : nat) (fuel : nat) (it : PredictiveIterator.t)
  : result (bool * PredictiveIterator.t) :=
  match n with
  | O => predictive_next fuel it
  | S n' => let* r := predictive_next fuel it in predictive_next_n n' fuel (snd r)
  end.

(** ** The traversal phase of the predictive cursor *)

(** A cursor of [t] in its traversal phase. *)
Definition scanning (t : Trie) (key : list byte)
  (stack : list PredictiveIterator.stack_t) (buf : list byte) (id : id_type)
  : PredictiveIterator.t :=
  PredictiveIterator.Mk (Some t) key false false stack buf id.

(** The buffer after a frame of depth [d] and letter [c] was popped. *)
Definition popped (d : nat) (c : byte) (buf : list byte) : list byte :=
  if (0 <? d)%nat then set_back c (resize d x00 buf) else buf.

(** The frames the traversal pushes for the children of [n], top first. *)
Fixpoint child_frames (t : Trie) (letters : list byte) (b n : id_type) (d : nat)
  : result (list PredictiveIterator.stack_t) :=
  match letters with
  | [] => Ok []
  | a :: letters' =>
      let c := N.lxor b (code_ t a) in
      let* ck := check t c in
      let* frames := child_frames t letters' b n d in
      Ok (if bool_decide (ck = n)
          then PredictiveIterator.Frame (S d) a c :: frames
          else frames)
  end.

(** Draining the cursor gives [hits], whenever it is given calls and fuel
    enough. *)
Definition drains (it : PredictiveIterator.t) (hits : list hit) : Prop :=
  ∃ n, ∀ calls fuel, (n ≤ calls)%nat → (n ≤ fuel)%nat →
    predictive_hits calls fuel it = Ok hits.

(** What is left on the stack is drained to [hits] from any buffer that
    starts with [path]. *)
Definition drains_below (t : Trie) (key : list byte)
  (stack : list PredictiveIterator.stack_t) (path : list byte) (hits : list hit)
  : Prop :=
  ∀ buf id, path `prefix_of` buf → drains (scanning t key stack buf id) hits.

(** The key [k] with the id [id] sits at or below node [n], whose path from
    the root is [path]. *)
Definition below (t : Trie) (n : id_type) (path : list byte)
  (k : list byte) (id : id_type) : Prop :=
  ∃ bs n', walk t n bs n' ∧ key_at t n' (path ++ bs) k id.

(** With depth [d] to spare, [subtree] lists the keys at or below a node, in
    ascending order. *)
Definition subtree_ok (t : Trie) (d : nat) : Prop :=
  ∀ n path, walk t 0 path n → (length (bc_ t) < d + length path)%nat →
    ∃ L, subtree t d n path = Ok L
         ∧ (∀ k id, (k, id) ∈ L ↔ below t n path k id)
         ∧ StronglySorted lex_lt (L.*1).

(** ** The walking phase of the prefix cursor *)

(** A prefix cursor of [t] after its first call and before its last. *)
(** The predictive cursor as its constructor leaves it. *)
Definition created (t : Trie) (key : list byte) : PredictiveIterator.t :=
  PredictiveIterator.Mk (Some t) key true false [] [] 0.

Definition walking (t : Trie) (key : list byte) (pos : nat) (node_id id : id_type)
  : PrefixIterator.t :=
  PrefixIterator.Mk (Some t) key pos node_id id false false.

(** * Proofs *)

(** ** Results *)

Lemma bind_Ok {A B} (m : result A) (f : A → result B) v :
  bind m f = Ok v ↔ ∃ a, m = Ok a ∧ f a = Ok v.
Proof.
  destruct m as [a|e]; simpl; split.
  - eauto.
  - intros (a' & [= <-] & H); exact H.
  - discriminate.
  - intros (a' & [=] & _).
Qed.

Lemma read_Ok {A} e (o : option A) v : read e o = Ok v ↔ o = Some v.
Proof. destruct o; simpl; split; congruence. Qed.

(** Takes apart the hypotheses that say a monadic computation succeeded. *)
Ltac inv_res :=
  repeat match goal with
  | H : bind _ _ = Ok _ |- _ =>
      let a := fresh "a" in
      let E := fresh "E" in
      apply bind_Ok in H; destruct H as (a & E & H)
  | H : read _ _ = Ok _ |- _ => apply read_Ok in H
  | H : Ok _ = Ok _ |- _ => injection H as H; try subst
  | H : Err _ = Ok _ |- _ => discriminate H
  | H : Ok _ = Err _ |- _ => discriminate H
  end.

(** ** Arrays *)

Lemma get_lookup {A} (l : list A) i : get l i = l !! N.to_nat i.
Proof.
  revert i; induction l as [|x l IH]; intros i; simpl; [done|].
  destruct (N.eqb_spec i 0) as [->|Hi]; [done|].
  rewrite IH. replace (N.to_nat i) with (S (N.to_nat (N.pred i))) by lia. done.
Qed.

Lemma from_drop {A} (l : list A) i : from l i = drop (N.to_nat i) l.
Proof.
  revert i; induction l as [|x l IH]; intros i; simpl.
  - by rewrite drop_nil.
  - destruct (N.eqb_spec i 0) as [->|Hi]; [done|].
    rewrite IH. replace (N.to_nat i) with (S (N.to_nat (N.pred i))) by lia. done.
Qed.

Lemma get_Some_lt {A} (l : list A) i x : get l i = Some x → i < size_N l.
Proof.
  rewrite get_lookup. intros H%lookup_lt_Some. unfold size_N. lia.
Qed.

Lemma get_lt_Some {A} (l : list A) i : i < size_N l → is_Some (get l i).
Proof.
  rewrite get_lookup. intros H. apply lookup_lt_is_Some. unfold size_N in H. lia.
Qed.

Lemma from_cons_inv {A} (l : list A) i c cells :
  from l i = c :: cells → get l i = Some c ∧ from l (N.succ i) = cells.
Proof.
  rewrite !from_drop, get_lookup. intros H.
  replace (N.to_nat (N.succ i)) with (S (N.to_nat i)) by lia.
  assert (l !! N.to_nat i = Some c) as Hc.
  { rewrite <-(Nat.add_0_r (N.to_nat i)), <-lookup_drop, H. done. }
  split; [done|].
  rewrite (drop_S _ _ _ Hc) in H. congruence.
Qed.

Lemma from_nil_inv {A} (l : list A) i : from l i = [] → get l i = None.
Proof.
  rewrite from_drop, get_lookup. intros H.
  apply lookup_ge_None. apply drop_nil_inv in H. lia.
Qed.

Lemma get_from {A} (l : list A) i c :
  get l i = Some c → from l i = c :: from l (N.succ i).
Proof.
  intros H. destruct (from l i) as [|c' cells] eqn:E.
  - apply from_nil_inv in E. congruence.
  - apply from_cons_inv in E as [E1 E2]. congruence.
Qed.

(** ** Rank and select *)

Lemma count_ones_cons b bs :
  count_ones (b :: bs) = (if b then 1 else 0) + count_ones bs.
Proof.
  unfold count_ones, size_N. rewrite filter_cons.
  destruct b; case_decide; simpl; try done; lia.
Qed.

Lemma count_ones_take_le bs j : count_ones (take j bs) <= count_ones bs.
Proof.
  revert j; induction bs as [|b bs IH]; intros [|j]; simpl; try lia.
  - rewrite count_ones_cons. unfold count_ones, size_N; simpl. destruct b; lia.
  - rewrite !count_ones_cons. specialize (IH j). lia.
Qed.

Lemma count_ones_take_lt bs j :
  bs !! j = Some true → count_ones (take j bs) < count_ones bs.
Proof.
  revert j; induction bs as [|b bs IH]; intros [|j] H; simpl in *; try done.
  - injection H as ->. rewrite count_ones_cons. unfold count_ones, size_N; simpl. lia.
  - rewrite !count_ones_cons. specialize (IH j H). lia.
Qed.

Lemma select_from_spec bs k i n :
  select_from bs k i = Ok n →
  ∃ j : nat, n = i + N.of_nat j ∧ bs !! j = Some true ∧ count_ones (take j bs) = k.
Proof.
  revert k i; induction bs as [|b bs IH]; intros k i H; simpl in H; [done|].
  destruct b.
  - destruct (N.eqb_spec k 0) as [->|Hk].
    + injection H as <-. exists 0%nat. split; [lia|]. done.
    + apply IH in H as (j & -> & Hj & Hc). exists (S j). split; [lia|].
      split; [done|]. simpl. rewrite count_ones_cons. lia.
  - apply IH in H as (j & -> & Hj & Hc). exists (S j). split; [lia|].
    split; [done|]. simpl. rewrite count_ones_cons. lia.
Qed.

Lemma select_from_rank bs j i :
  bs !! j = Some true →
  select_from bs (count_ones (take j bs)) i = Ok (i + N.of_nat j).
Proof.
  revert j i; induction bs as [|b bs IH]; intros [|j] i H; simpl in *; try done.
  - injection H as ->. simpl. f_equal. lia.
  - rewrite count_ones_cons. specialize (IH j (N.succ i) H). destruct b.
    + destruct (N.eqb_spec (1 + count_ones (take j bs)) 0) as [?|_]; [lia|].
      replace (N.pred (1 + count_ones (take j bs))) with (count_ones (take j bs)) by lia.
      rewrite IH. f_equal. lia.
    + rewrite N.add_0_l, IH. f_equal. lia.
Qed.

Lemma select_from_total bs k i :
  k < count_ones bs → ∃ n, select_from bs k i = Ok n.
Proof.
  revert k i; induction bs as [|b bs IH]; intros k i H.
  - unfold count_ones, size_N in H; simpl in H. lia.
  - rewrite count_ones_cons in H. simpl. destruct b.
    + destruct (N.eqb_spec k 0); [eauto|]. apply IH. lia.
    + apply IH. lia.
Qed.

Section RankSelect.

Variable t : Trie.

Lemma terminal_lookup n b :
  terminal t n = Ok b ↔ terminal_flags_ t !! N.to_nat n = Some b.
Proof.
  unfold terminal, bv_get. rewrite read_Ok, get_lookup. done.
Qed.

Lemma to_key_id_spec n :
  n <= size_N (terminal_flags_ t) →
  to_key_id_ t n = Ok (count_ones (take (N.to_nat n) (terminal_flags_ t))).
Proof.
  intros H. unfold to_key_id_, rank.
  destruct (N.leb_spec n (size_N (terminal_flags_ t))); [done|lia].
Qed.

(** [rank (select k) = k], and the selected bit is set. *)
Lemma rank_select id n :
  to_node_id_ t id = Ok n →
  terminal t n = Ok true ∧ to_key_id_ t n = Ok id.
Proof.
  unfold to_node_id_, select. intros (j & -> & Hj & Hc)%select_from_spec.
  rewrite terminal_lookup. replace (N.to_nat (0 + N.of_nat j)) with j by lia.
  split; [done|]. rewrite to_key_id_spec.
  - replace (N.to_nat (0 + N.of_nat j)) with j by lia. by rewrite Hc.
  - apply lookup_lt_Some in Hj. unfold size_N. lia.
Qed.

Lemma select_total id :
  id < count_ones (terminal_flags_ t) → ∃ n, to_node_id_ t id = Ok n.
Proof. apply select_from_total. Qed.

(** [select (rank n) = n] whenever bit [n] is set. *)
Lemma select_rank n :
  terminal t n = Ok true →
  ∃ id, to_key_id_ t n = Ok id ∧ to_node_id_ t id = Ok n
        ∧ id < count_ones (terminal_flags_ t).
Proof.
  rewrite terminal_lookup. intros H.
  exists (count_ones (take (N.to_nat n) (terminal_flags_ t))). split; [|split].
  - apply to_key_id_spec. apply lookup_lt_Some in H. unfold size_N. lia.
  - unfold to_node_id_, select. rewrite select_from_rank by done. f_equal. lia.
  - by apply count_ones_take_lt.
Qed.

End RankSelect.

(** ** From the check to the invariants *)

Section CheckSound.

Variable t : Trie.

Lemma node_ids_spec n : n < num_nodes t → In n (node_ids t).
Proof.
  unfold num_nodes, bc_num_nodes, size_N, node_ids. intros H.
  apply in_map_iff. exists (N.to_nat n). split; [lia|]. apply in_seq. lia.
Qed.

Lemma codes_spec x : x < 256 → In x codes.
Proof.
  intros H. apply in_map_iff. exists (N.to_nat x). split; [lia|]. apply in_seq. lia.
Qed.

Lemma cell_at_lt n c : cell_at (bc_ t) n = Ok c → n < num_nodes t.
Proof. unfold cell_at. rewrite read_Ok. apply get_Some_lt. Qed.

Lemma check_lt n p : check t n = Ok p → n < num_nodes t.
Proof. unfold check, bc_check. intros H. inv_res. eauto using cell_at_lt. Qed.

Lemma is_leaf_lt n b : is_leaf t n = Ok b → n < num_nodes t.
Proof. unfold is_leaf, bc_is_leaf. intros H. inv_res. eauto using cell_at_lt. Qed.

Lemma base_lt n b : base t n = Ok b → n < num_nodes t.
Proof. unfold base, bc_base. intros H. inv_res. eauto using cell_at_lt. Qed.

Lemma link_lt n b : link t n = Ok b → n < num_nodes t.
Proof. unfold link, bc_link. intros H. inv_res. eauto using cell_at_lt. Qed.

Lemma node_reads n :
  n < num_nodes t →
  ∃ b p l k, base t n = Ok b ∧ check t n = Ok p ∧ is_leaf t n = Ok l ∧ link t n = Ok k.
Proof.
  intros H. destruct (get_lt_Some (bc_ t) n H) as [c Hc].
  exists (cell_base c), (cell_check c), (cell_is_leaf c), (cell_link c).
  unfold base, check, is_leaf, link, bc_base, bc_check, bc_is_leaf, bc_link, cell_at.
  rewrite Hc. done.
Qed.

Lemma terminal_lt n b : terminal t n = Ok b → n < size_N (terminal_flags_ t).
Proof. unfold terminal, bv_get. rewrite read_Ok. apply get_Some_lt. Qed.

Lemma is_true_at_Ok r : is_true_at r = true ↔ r = Ok true.
Proof. destruct r as [[]|]; simpl; split; congruence. Qed.

Lemma code_lt c : code_ t c < 256.
Proof. unfold code_. pose proof (Byte.to_N_bounded (nth (N.to_nat (to_N c)) (table_ t) "000"%byte)). lia. Qed.

Theorem well_formed_WF : well_formed t = true → WF t.
Proof.
  unfold well_formed, sizes_ok, table_ok, tree_ok, keys_ok, alphabet_ok, tail_ok.
  rewrite !andb_true_iff, !forallb_forall.
  intros [[[[[[[[[[S1 S2] S3] S4] S5] S6] [[T1 T2] T3]] [[R1 R2] R3]] [K1 K2]] [A1 A2]]
            [L1 L2]].
  apply N.ltb_lt in S1. apply N.leb_le in S2, S4, S6. apply N.eqb_eq in S3, S5.
  apply bool_decide_eq_true in T1.
  split; try done.
  - intros c. specialize (T2 (to_N c)). rewrite Byte.of_to_N in T2.
    destruct (table_at t (code_ t c + 256)) as [c'|] eqn:E.
    + rewrite bool_decide_eq_true in T2. rewrite T2; [done|].
      apply codes_spec. pose proof (Byte.to_N_bounded c). lia.
    + discriminate T2. apply codes_spec. pose proof (Byte.to_N_bounded c). lia.
  - intros x Hx. specialize (T3 x (codes_spec x Hx)).
    destruct (table_at t (x + 256)) as [c|]; [|done].
    exists c. split; [done|]. by apply N.eqb_eq.
  - intros [H1 H2]. rewrite H1, H2 in R1. done.
  - intros c Hc H1 H2. unfold parent_ok in H1.
    destruct (check t c) as [p|] eqn:E; [|done].
    specialize (R2 c (node_ids_spec c (check_lt _ _ E))).
    unfold parent_ok in R2. rewrite E in R2. rewrite H1, H2 in R2.
    destruct (N.eqb_spec c 0); [done|]. exact R2.
  - intros p b x Hp Hl Hb Hx.
    specialize (R3 p (node_ids_spec p (base_lt _ _ Hb))).
    rewrite Hp, Hl, Hb in R3. cbn [implb andb negb is_true_at] in R3.
    rewrite forallb_forall in R3.
    apply N.ltb_lt. apply R3. by apply codes_spec.
  - intros n Hn. specialize (K1 n). rewrite Hn in K1. apply K1.
    apply node_ids_spec. rewrite <-S3. eauto using terminal_lt.
  - intros n Hu Hl. specialize (K2 n (node_ids_spec n (is_leaf_lt _ _ Hl))).
    rewrite Hu, Hl in K2. by apply is_true_at_Ok.
  - intros c p e Hc Hu Hp He.
    specialize (A2 c (node_ids_spec c (check_lt _ _ Hp))).
    rewrite Hu, Hp, He in A2. destruct (N.eqb_spec c 0); [done|].
    by apply bool_decide_eq_true in A2.
  - intros Hb. rewrite Hb in L1. by apply bool_decide_eq_true in L1.
  - intros n p Hu Hl Hp.
    specialize (L2 n (node_ids_spec n (is_leaf_lt _ _ Hl))).
    by rewrite Hu, Hl, Hp in L2.
Qed.

End CheckSound.

(** In a well-formed dictionary the [reserve] calls go through. *)
Lemma reserve_max_length (t : Trie) : WF t → reserve (max_length_ t) = Ok tt.
Proof.
  intros HWF. unfold reserve.
  pose proof (wf_max_length t HWF). pose proof (wf_nodes_max t HWF).
  pose proof (wf_tail_max t HWF).
  destruct (N.leb_spec (max_length_ t) STRING_MAX_SIZE) as [|Hgt]; [done|].
  unfold STRING_MAX_SIZE, ID_MAX in *. lia.
Qed.

Lemma make_predictive_iterator_Ok (t : Trie) (key : list byte) :
  WF t → make_predictive_iterator t key = Ok (created t key).
Proof.
  intros HWF. unfold make_predictive_iterator. by rewrite (reserve_max_length t HWF).
Qed.

(** ** The tree of used nodes *)

Lemma lxor_cancel b c : N.lxor b (N.lxor b c) = c.
Proof. by rewrite <-N.lxor_assoc, N.lxor_nilpotent, N.lxor_0_l. Qed.

Lemma lxor_inj b x y : N.lxor b x = N.lxor b y → x = y.
Proof. intros H. by rewrite <-(lxor_cancel b x), H, lxor_cancel. Qed.

Section Tree.

Variable t : Trie.
Hypothesis HWF : WF t.

Lemma parent_ok_spec c :
  parent_ok t c = true ↔
  ∃ p b, check t c = Ok p ∧ is_leaf t p = Ok false ∧ base t p = Ok b
         ∧ N.lxor b c < 256.
Proof.
  unfold parent_ok. split.
  - destruct (check t c) as [p|]; [|done].
    destruct (is_leaf t p) as [[]|] eqn:El; try done.
    destruct (base t p) as [b|] eqn:Eb; [|done].
    intros H%N.ltb_lt. by exists p, b.
  - intros (p & b & -> & -> & -> & H). by apply N.ltb_lt.
Qed.

Lemma depth_of_le f n k : depth_of t f n = Some k → (k ≤ f)%nat.
Proof.
  revert n k; induction f as [|f IH]; intros n k; simpl.
  - destruct (n =? 0); [|done]. intros [= <-]. lia.
  - destruct (n =? 0); [intros [= <-]; lia|].
    destruct (parent_ok t n); [|done]. destruct (check t n) as [p|]; [|done].
    destruct (depth_of t f p) as [k'|] eqn:E; [|done].
    intros [= <-]. apply IH in E. lia.
Qed.

Lemma depth_of_mono f f' n k :
  depth_of t f n = Some k → (f ≤ f')%nat → depth_of t f' n = Some k.
Proof.
  revert f' n k; induction f as [|f IH]; intros f' n k; simpl.
  - destruct (N.eqb_spec n 0) as [->|]; [|done]. intros [= <-] _. by destruct f'.
  - destruct (N.eqb_spec n 0) as [->|Hn]; [intros [= <-] _; by destruct f'|].
    destruct (parent_ok t n) eqn:Ep; [|done].
    destruct (check t n) as [p|] eqn:Ec; [|done].
    destruct (depth_of t f p) as [k'|] eqn:E; [|done].
    intros [= <-] Hf. destruct f' as [|f']; [lia|]. simpl.
    destruct (N.eqb_spec n 0); [done|]. rewrite Ep, Ec.
    rewrite (IH f' p k' E); [done|lia].
Qed.

Lemma used_spec n : used t n = true ↔ ∃ k, depth_of t (length (bc_ t)) n = Some k.
Proof. unfold used. rewrite bool_decide_eq_true. done. Qed.

Lemma used_root : used t 0 = true.
Proof. apply used_spec. exists 0%nat. by destruct (length (bc_ t)). Qed.

Lemma used_inv c :
  used t c = true → c ≠ 0 →
  ∃ p, check t c = Ok p ∧ parent_ok t c = true ∧ used t p = true.
Proof.
  intros [k Hk]%used_spec Hc. destruct (length (bc_ t)) as [|f] eqn:Ef; simpl in Hk.
  - by destruct (N.eqb_spec c 0).
  - destruct (N.eqb_spec c 0); [done|].
    destruct (parent_ok t c) eqn:Ep; [|done].
    destruct (check t c) as [p|] eqn:Ec; [|done].
    destruct (depth_of t f p) as [k'|] eqn:E; [|done].
    exists p. split; [done|]. split; [done|].
    apply used_spec. exists k'. rewrite Ef. eapply depth_of_mono; [done|lia].
Qed.

Lemma child_det p a c c' : child t p a c → child t p a c' → c = c'.
Proof. intros (_ & b & Hb & -> & _) (_ & b' & Hb' & -> & _). congruence. Qed.

Lemma code_inj a a' : code_ t a = code_ t a' → a = a'.
Proof.
  intros H. pose proof (wf_decode_code t HWF a) as H1.
  pose proof (wf_decode_code t HWF a') as H2. rewrite H in H1. congruence.
Qed.

Lemma child_inj p a a' c : child t p a c → child t p a' c → a = a'.
Proof.
  intros (_ & b & Hb & -> & _) (_ & b' & Hb' & Hc & _).
  assert (b' = b) as -> by congruence. apply lxor_inj in Hc. by apply code_inj.
Qed.

Lemma child_parent_ok p a c : child t p a c → parent_ok t c = true.
Proof.
  intros (Hl & b & Hb & -> & Hc). apply parent_ok_spec.
  exists p, b. rewrite lxor_cancel. eauto using code_lt.
Qed.

Lemma child_edge p a c : child t p a c → check t c = Ok p ∧ edge_ t p c = Ok a.
Proof.
  intros (Hl & b & Hb & -> & Hc). split; [done|].
  unfold edge_. rewrite Hb; simpl. rewrite lxor_cancel. apply (wf_decode_code t HWF).
Qed.

Lemma child_used p a c :
  used t p = true → child t p a c → c ≠ 0 ∧ used t c = true.
Proof.
  intros Hp Hc. pose proof (child_parent_ok _ _ _ Hc) as Hok.
  destruct (child_edge _ _ _ Hc) as [Hck _].
  assert (used_parent t c = true) as Hup by (unfold used_parent; by rewrite Hck).
  assert (c ≠ 0) as Hc0.
  { intros ->. by apply (wf_root_orphan t HWF). }
  split; [done|]. by apply (wf_closed t HWF).
Qed.

Lemma used_child c :
  used t c = true → c ≠ 0 → ∃ p a, child t p a c ∧ used t p = true.
Proof.
  intros Hu Hc. destruct (used_inv c Hu Hc) as (p & Hck & Hok & Hp).
  apply parent_ok_spec in Hok as (p' & b & Hck' & Hl & Hb & Hlt).
  assert (p' = p) as -> by congruence.
  destruct (wf_code_decode t HWF _ Hlt) as (a & Ha & Hcode).
  exists p, a. split; [|done]. split; [done|].
  exists b. rewrite Hcode, lxor_cancel. done.
Qed.

(** *** Walks *)

Lemma walk_app m xs n ys k : walk t m xs n → walk t n ys k → walk t m (xs ++ ys) k.
Proof. induction 1; simpl; eauto using walk. Qed.

Lemma walk_snoc m xs p a c : walk t m xs p → child t p a c → walk t m (xs ++ [a]) c.
Proof. intros H1 H2. eapply walk_app; eauto using walk. Qed.

Lemma walk_app_inv m xs ys k :
  walk t m (xs ++ ys) k → ∃ n, walk t m xs n ∧ walk t n ys k.
Proof.
  revert m; induction xs as [|x xs IH]; intros m H; simpl in H.
  - eauto using walk.
  - inversion H; subst. destruct (IH _ H5) as (n & H1 & H2). eauto using walk.
Qed.

Lemma walk_det m bs n n' : walk t m bs n → walk t m bs n' → n = n'.
Proof.
  intros H; revert n'; induction H; intros n' H'; inversion H'; subst; [done|].
  apply IHwalk. by rewrite (child_det _ _ _ _ H H4).
Qed.

Lemma walk_used m bs n : used t m = true → walk t m bs n → used t n = true.
Proof.
  intros Hm H; induction H; [done|]. apply IHwalk. eapply child_used; eauto.
Qed.

Lemma walk_leaf m bs n : walk t m bs n → is_leaf t m = Ok true → bs = [] ∧ n = m.
Proof. intros H Hl; inversion H as [|? ? ? ? ? [Hl' _]]; subst; [done|congruence]. Qed.

Lemma walk_snoc_inv m bs a n :
  walk t m (bs ++ [a]) n → ∃ p, walk t m bs p ∧ child t p a n.
Proof.
  intros (p & H1 & H2)%walk_app_inv. exists p. split; [done|].
  inversion H2; subst. inversion H6; subst. done.
Qed.

Lemma walk_root_nil bs : walk t 0 bs 0 → bs = [].
Proof.
  destruct bs as [|a bs _] using rev_ind; [done|].
  intros (p & H1 & H2)%walk_snoc_inv.
  assert (used t p = true) as Hp by (eapply walk_used; eauto using used_root).
  by destruct (child_used _ _ _ Hp H2).
Qed.

(** Every node has one path from the root. *)
Lemma walk_unique bs bs' n : walk t 0 bs n → walk t 0 bs' n → bs = bs'.
Proof.
  revert bs' n; induction bs as [|a bs IH] using rev_ind; intros bs' n H H'.
  - inversion H; subst. symmetry. by apply walk_root_nil.
  - apply walk_snoc_inv in H as (p & H1 & H2).
    destruct bs' as [|a' bs' _] using rev_ind.
    + inversion H'; subst.
      assert (used t p = true) as Hp by (eapply walk_used; eauto using used_root).
      by destruct (child_used _ _ _ Hp H2).
    + apply walk_snoc_inv in H' as (p' & H1' & H2').
      destruct (child_edge _ _ _ H2) as [Hc _].
      destruct (child_edge _ _ _ H2') as [Hc' _].
      assert (p' = p) as -> by congruence.
      rewrite (child_inj _ _ _ _ H2 H2'). f_equal. eauto.
Qed.

(** The climb of [access] reads a path backwards. *)
Lemma climb f n k :
  depth_of t f n = Some k →
  ∃ bs, walk t 0 bs n ∧ length bs = k
        ∧ ∀ dec, access_up t f n dec = Ok (dec ++ rev bs).
Proof.
  revert n k; induction f as [|f IH]; intros n k; simpl.
  - destruct (N.eqb_spec n 0) as [->|]; [|done]. intros [= <-].
    exists []. split; [constructor|]. split; [done|]. intros dec. by rewrite app_nil_r.
  - destruct (N.eqb_spec n 0) as [->|Hn].
    { intros [= <-]. exists []. split; [constructor|]. split; [done|].
      intros dec. by rewrite app_nil_r. }
    destruct (parent_ok t n) eqn:Ep; [|done].
    destruct (check t n) as [p|] eqn:Ec; [|done].
    destruct (depth_of t f p) as [k'|] eqn:E; [|done]. intros [= <-].
    destruct (IH _ _ E) as (bs & Hw & Hlen & Hup).
    apply parent_ok_spec in Ep as (p' & b & Hck' & Hl & Hb & Hlt).
    assert (p' = p) as -> by congruence.
    destruct (wf_code_decode t HWF _ Hlt) as (a & Ha & Hcode).
    assert (child t p a n) as Hch.
    { split; [done|]. exists b. by rewrite Hcode, lxor_cancel. }
    exists (bs ++ [a]). split; [by eapply walk_snoc|].
    split; [rewrite length_app; simpl; lia|].
    intros dec. simpl. unfold edge_. rewrite Hb. simpl. rewrite Ha. simpl.
    rewrite Hup, rev_app_distr, <-app_assoc. done.
Qed.

Lemma used_climb n :
  used t n = true →
  ∃ bs, walk t 0 bs n
        ∧ ∀ dec, access_up t (N.to_nat (num_nodes t)) n dec = Ok (dec ++ rev bs).
Proof.
  intros [k Hk]%used_spec. destruct (climb _ _ _ Hk) as (bs & H1 & _ & H2).
  exists bs. split; [done|]. intros dec.
  unfold num_nodes, bc_num_nodes, size_N. rewrite Nat2N.id. apply H2.
Qed.

End Tree.

(** ** Suffixes: extraction against matching *)

Section Suffix.

Variable t : Trie.

Lemma extract_bin_acc cells tail_pos dec :
  extract_bin t cells tail_pos dec =
  let* s := extract_bin t cells tail_pos [] in Ok (dec ++ s).
Proof.
  revert tail_pos dec; induction cells as [|c cells IH]; intros tail_pos dec; simpl.
  - done.
  - destruct (boundary t tail_pos) as [[]|]; simpl; try done.
    rewrite IH, (IH _ [c]). destruct (extract_bin t cells _ []); simpl; [|done].
    by rewrite <-app_assoc.
Qed.

Lemma extract_text_acc cells dec :
  extract_text cells dec = let* s := extract_text cells [] in Ok (dec ++ s).
Proof.
  revert dec; induction cells as [|c cells IH]; intros dec; simpl.
  - done.
  - case_bool_decide; simpl; [by rewrite app_nil_r|].
    rewrite IH, (IH [c]). destruct (extract_text cells []); simpl; [|done].
    by rewrite <-app_assoc.
Qed.

Lemma extract_suffix_acc tail_pos dec :
  extract_suffix_ t tail_pos dec =
  let* s := extract_suffix_ t tail_pos [] in Ok (dec ++ s).
Proof.
  unfold extract_suffix_. destruct (bin_mode_ t).
  - destruct (negb (tail_pos =? 0)); simpl; [apply extract_bin_acc|by rewrite app_nil_r].
  - apply extract_text_acc.
Qed.

Lemma extract_suffix_Ok tail_pos dec k :
  extract_suffix_ t tail_pos dec = Ok k ↔
  ∃ s, extract_suffix_ t tail_pos [] = Ok s ∧ k = dec ++ s.
Proof.
  rewrite extract_suffix_acc, bind_Ok. split.
  - intros (s & H1 & [= <-]). eauto.
  - intros (s & H1 & ->). eauto.
Qed.

(** What [extract_bin] copies is matched by [match_bin]. *)
Lemma extract_match_bin cells tail_pos s :
  from (tail_ t) tail_pos = cells →
  extract_bin t cells tail_pos [] = Ok s →
  s ≠ [] ∧ match_bin t s tail_pos = Ok true.
Proof.
  revert tail_pos s; induction cells as [|c cells IH]; intros tail_pos s Hc H;
    simpl in H; [done|].
  apply from_cons_inv in Hc as [Hget Hfrom].
  destruct (boundary t tail_pos) as [[]|] eqn:Eb; simpl in H; [| |done].
  - injection H as <-. split; [done|]. simpl. rewrite Hget; simpl.
    rewrite bool_decide_eq_false_2 by (intros ?; done). by rewrite Eb.
  - rewrite extract_bin_acc in H. inv_res.
    destruct (IH _ _ eq_refl E) as [Hs Hm]. split; [done|]. simpl.
    rewrite Hget; simpl. rewrite bool_decide_eq_false_2 by (intros ?; done).
    rewrite Eb; simpl. done.
Qed.

(** What [extract_text] copies is matched by [match_text]. *)
Lemma extract_match_text cells tail_pos s :
  from (tail_ t) tail_pos = cells →
  extract_text cells [] = Ok s →
  match_text t s tail_pos = Ok true.
Proof.
  revert tail_pos s; induction cells as [|c cells IH]; intros tail_pos s Hc H;
    simpl in H; [done|].
  apply from_cons_inv in Hc as [Hget Hfrom].
  case_bool_decide as Hz.
  - injection H as <-. simpl. rewrite Hget; simpl. by rewrite bool_decide_eq_true_2.
  - rewrite extract_text_acc in H. inv_res. simpl.
    rewrite Hget; simpl. rewrite bool_decide_eq_false_2 by done.
    rewrite bool_decide_eq_false_2 by (intros ?; done). simpl. eauto.
Qed.

(** The inline loops of [access] against [extract_suffix_]. *)
Lemma access_tail_extract tail_pos dec :
  tail_pos ≠ 0 →
  (bin_mode_ t = false → get (tail_ t) tail_pos ≠ Some x00) →
  access_tail t tail_pos dec = extract_suffix_ t tail_pos dec.
Proof.
  intros H0 Hnul. unfold access_tail, extract_suffix_.
  destruct (bin_mode_ t).
  - destruct (N.eqb_spec tail_pos 0); done.
  - destruct (from (tail_ t) tail_pos) as [|c cells] eqn:E; [done|].
    apply from_cons_inv in E as [Hget _]. simpl.
    rewrite bool_decide_eq_false_2; [done|]. intros ->. by apply Hnul.
Qed.

Hypothesis HWF : WF t.

(** The suffix of a used leaf: it is extracted from any buffer, it is empty
    exactly at offset 0, it matches itself, and [access] copies it too. *)
Lemma leaf_suffix n tail_pos :
  used t n = true → is_leaf t n = Ok true → link t n = Ok tail_pos →
  ∃ s, (∀ dec, extract_suffix_ t tail_pos dec = Ok (dec ++ s))
       ∧ (tail_pos = 0 ↔ s = [])
       ∧ match_suffix_ t s tail_pos = Ok true
       ∧ tail_pos ≠ NOT_FOUND
       ∧ (tail_pos ≠ 0 → ∀ dec, access_tail t tail_pos dec = Ok (dec ++ s)).
Proof.
  intros Hu Hl Hk. pose proof (wf_suffix t HWF n tail_pos Hu Hl Hk) as Hs.
  unfold suffix_ok in Hs. destruct (N.eqb_spec tail_pos 0) as [->|Hp].
  - exists []. split; [|split; [done|split; [done|split; [done|done]]]].
    intros dec. rewrite app_nil_r. unfold extract_suffix_.
    destruct (bin_mode_ t) eqn:Eb; [done|].
    rewrite (get_from _ _ _ (wf_tail0 t HWF Eb)). done.
  - simpl in Hs.
    assert (tail_pos < size_N (tail_ t)) as Hlt.
    { destruct (from (tail_ t) tail_pos) as [|c cells] eqn:E.
      - destruct (bin_mode_ t); done.
      - apply from_cons_inv in E as [E _]. eauto using get_Some_lt. }
    assert (tail_pos ≠ NOT_FOUND) as Hnf.
    { pose proof (wf_tail_max t HWF). unfold NOT_FOUND. lia. }
    assert (∃ s, extract_suffix_ t tail_pos [] = Ok s ∧ s ≠ []
                 ∧ match_suffix_ t s tail_pos = Ok true
                 ∧ (bin_mode_ t = false → get (tail_ t) tail_pos ≠ Some x00))
      as (s & He & Hne & Hm & Hnul).
    { unfold extract_suffix_, match_suffix_. destruct (bin_mode_ t).
      - destruct (N.eqb_spec tail_pos 0); [done|]. simpl.
        destruct (extract_bin t (from (tail_ t) tail_pos) tail_pos []) as [s|] eqn:E;
          [|done].
        destruct (extract_match_bin _ _ _ eq_refl E) as [Hne Hm].
        exists s. destruct s; done.
      - destruct (from (tail_ t) tail_pos) as [|c cells] eqn:E; [done|].
        apply andb_true_iff in Hs as [Hc Hs].
        apply negb_true_iff, bool_decide_eq_false in Hc.
        destruct (extract_text (c :: cells) []) as [s|] eqn:E'; [|done].
        pose proof (extract_match_text _ _ _ E E') as Hm.
        pose proof E as [Hget _]%from_cons_inv.
        simpl in E'. rewrite bool_decide_eq_false_2 in E' by done.
        rewrite extract_text_acc in E'. inv_res.
        exists (c :: a). split; [|split; [done|split; [done|]]].
        + done.
        + intros _. congruence. }
    exists s. split; [|split; [done|split; [done|split; [done|]]]].
    + intros dec. rewrite extract_suffix_acc, He. done.
    + intros _ dec. rewrite access_tail_extract by done.
      rewrite extract_suffix_acc, He. done.
Qed.

End Suffix.

(** ** The registered keys are the keys at the terminal nodes *)

Section Keys.

Variable t : Trie.
Hypothesis HWF : WF t.

Lemma key_at_fun n bs k id k' id' :
  key_at t n bs k id → key_at t n bs k' id' → k = k' ∧ id = id'.
Proof.
  intros (_ & Hid & l & Hl & Hk) (_ & Hid' & l' & Hl' & Hk').
  split; [|congruence]. assert (l' = l) as -> by congruence.
  destruct l; [|congruence].
  destruct Hk as (p & Hp & Hk), Hk' as (p' & Hp' & Hk'). congruence.
Qed.

Lemma access_key_at id :
  id < num_keys t →
  ∃ n bs k, to_node_id_ t id = Ok n ∧ walk t 0 bs n ∧ key_at t n bs k id
            ∧ access t id = Ok k.
Proof.
  intros Hid. unfold num_keys in Hid.
  pose proof Hid as Hid'. rewrite (wf_num_keys t HWF) in Hid'.
  destruct (select_total t id Hid') as [n Hn].
  destruct (rank_select t id n Hn) as [Hterm Hrank].
  pose proof (wf_terminal_used t HWF n Hterm) as Hu.
  destruct (used_climb t HWF n Hu) as (bs & Hw & Hup).
  assert (n < num_nodes t) as Hlt.
  { rewrite <-(wf_flags t HWF). eauto using terminal_lt. }
  destruct (node_reads t n Hlt) as (b & p & l & lk & _ & _ & Hl & Hk).
  unfold access, access_fuel. destruct (N.leb_spec (num_keys_ t) id); [lia|].
  rewrite (reserve_max_length t HWF); cbn [bind].
  rewrite Hn; simpl. rewrite Hl; simpl.
  destruct l.
  - destruct (leaf_suffix t HWF n lk Hu Hl Hk) as (s & Hex & H0 & Hm & Hnf & Hacc).
    rewrite Hk; simpl. rewrite Hup; simpl. rewrite rev_involutive.
    destruct (N.eqb_spec lk 0) as [->|Hlk]; simpl.
    + exists n, bs, (bs ++ s). split; [done|]. split; [done|]. split.
      * split; [done|]. split; [done|]. exists true. split; [done|]. eauto.
      * assert (s = []) as -> by (by apply H0). by rewrite app_nil_r.
    + destruct (N.eqb_spec lk NOT_FOUND); [done|]. simpl.
      exists n, bs, (bs ++ s). split; [done|]. split; [done|]. split.
      * split; [done|]. split; [done|]. exists true. split; [done|]. eauto.
      * by apply Hacc.
  - rewrite Hup; simpl. rewrite rev_involutive.
    exists n, bs, bs. split; [done|]. split; [done|]. split; [|done].
    split; [done|]. split; [done|]. by exists false.
Qed.

Lemma key_at_registered n bs k id :
  walk t 0 bs n → key_at t n bs k id → registered t k id.
Proof.
  intros Hw Hk. pose proof Hk as (Hterm & Hrank & _).
  destruct (select_rank t n Hterm) as (id' & Hrank' & Hsel & Hlt).
  assert (id' = id) as -> by congruence.
  rewrite <-(wf_num_keys t HWF) in Hlt.
  destruct (access_key_at id Hlt) as (n' & bs' & k' & Hsel' & Hw' & Hk' & Hacc).
  assert (n' = n) as -> by congruence.
  rewrite (walk_unique t HWF _ _ _ Hw' Hw) in Hk'.
  destruct (key_at_fun _ _ _ _ _ _ Hk Hk') as [-> _]. done.
Qed.

Lemma registered_key_at k id :
  registered t k id ↔ ∃ n bs, walk t 0 bs n ∧ key_at t n bs k id.
Proof.
  split.
  - intros [Hid Hacc].
    destruct (access_key_at id Hid) as (n & bs & k' & _ & Hw & Hk & Hacc').
    assert (k' = k) as -> by congruence. eauto.
  - intros (n & bs & Hw & Hk). eauto using key_at_registered.
Qed.

(** *** lookup follows walks *)

Lemma lookup_walk m bs n rest :
  walk t m bs n → lookup_from t (bs ++ rest) m = lookup_from t rest n.
Proof.
  induction 1 as [|m a c bs n (Hl & b & Hb & -> & Hc) Hw IH]; [done|].
  simpl. rewrite Hl; simpl. rewrite Hb; simpl. rewrite Hc; simpl.
  rewrite bool_decide_eq_false_2 by (intros ?; done). exact IH.
Qed.

Lemma lookup_key_at n bs k id :
  walk t 0 bs n → key_at t n bs k id → lookup t k = Ok id.
Proof.
  intros Hw (Hterm & Hrank & l & Hl & Hk).
  assert (used t n = true) as Hu by (eapply walk_used; eauto using used_root).
  unfold lookup. destruct l.
  - destruct Hk as (lk & Hlk & Hk).
    destruct (leaf_suffix t HWF n lk Hu Hl Hlk) as (s & Hex & H0 & Hm & _).
    rewrite Hex in Hk. injection Hk as <-.
    rewrite (lookup_walk _ _ _ _ Hw).
    destruct s; simpl; rewrite Hl; simpl; rewrite Hlk; simpl.
    + assert (lk = 0) as -> by (by apply H0). done.
    + simpl in Hm. rewrite Hm. done.
  - subst k. rewrite <-(app_nil_r bs), (lookup_walk _ _ _ _ Hw). simpl.
    rewrite Hl; simpl. rewrite Hterm; simpl. done.
Qed.

End Keys.

(** C1. In a well-formed dictionary, decoding an id below [num_keys] and
    looking the decoded string up gives the id back:
    [lookup (access id) = id]. Well-formed dictionaries have [max_length_]
    within the nodes and the tail, so [access] gets past its [reserve]. *)
Theorem lookup_access (t : Trie) (id : id_type) :
  well_formed t = true →
  id < num_keys t →
  (let* key := access t id in lookup t key) = Ok id.
Proof.
  intros Hwf%well_formed_WF Hid.
  destruct (access_key_at t Hwf id Hid) as (n & bs & k & _ & Hw & Hk & Hacc).
  rewrite Hacc. simpl. eapply lookup_key_at; eauto.
Qed.

Lemma lookup_access_witness :
  well_formed Examples.text_trie = true ∧ 4 < num_keys Examples.text_trie
  ∧ (let* key := access Examples.text_trie 4 in lookup Examples.text_trie key) = Ok 4.
Proof.
  assert (well_formed Examples.text_trie = true) as Hwf by (vm_compute; reflexivity).
  assert (4 < num_keys Examples.text_trie) as Hid by reflexivity.
  split; [exact Hwf|]. split; [exact Hid|].
  exact (lookup_access Examples.text_trie 4 Hwf Hid).
Defined.

(** ** The predictive cursor *)

(** *** More fuel does not change a result *)

Section Fuel.

Import PredictiveIterator.

Lemma predictive_loop_mono t fuel fuel' it r :
  predictive_loop t fuel it = Ok r → (fuel ≤ fuel')%nat →
  predictive_loop t fuel' it = Ok r.
Proof.
  revert fuel' it; induction fuel as [|fuel IH]; intros fuel' it H Hle.
  - destruct fuel'; simpl in *; destruct (stack_ it); done.
  - destruct fuel' as [|fuel']; [lia|]. simpl in *.
    destruct (stack_ it) as [|top stack']; [done|].
    destruct (is_leaf t (node_id top)) as [[]|]; simpl in *; try done.
    destruct (base t (node_id top)) as [b|]; simpl in *; try done.
    destruct (push_children t _ b _ _ _) as [st|]; simpl in *; try done.
    destruct (terminal t (node_id top)) as [[]|]; simpl in *; try done.
    apply IH; [done|lia].
Qed.

Lemma predictive_next_mono fuel fuel' it r :
  predictive_next fuel it = Ok r → (fuel ≤ fuel')%nat →
  predictive_next fuel' it = Ok r.
Proof.
  unfold predictive_next, next_predictive_. intros H Hle.
  destruct (trie_ it) as [t|]; [|done].
  destruct (end_flag_ it); [done|].
  destruct (begin_flag_ it).
  - destruct (predictive_descend t _ _ _ _) as [[b it'|it']|]; simpl in *; try done.
    eauto using predictive_loop_mono.
  - eauto using predictive_loop_mono.
Qed.

Lemma predictive_hits_mono calls calls' fuel fuel' it hits :
  predictive_hits calls fuel it = Ok hits →
  (calls ≤ calls')%nat → (fuel ≤ fuel')%nat →
  predictive_hits calls' fuel' it = Ok hits.
Proof.
  revert calls' it hits; induction calls as [|calls IH];
    intros calls' it hits H Hc Hf; simpl in H; [done|].
  destruct calls' as [|calls']; [lia|]. simpl.
  apply bind_Ok in H as ([b it'] & Hn & H).
  rewrite (predictive_next_mono _ _ _ _ Hn Hf). simpl in *.
  destruct b; [|done].
  apply bind_Ok in H as (hs & Hh & H).
  rewrite (IH calls' it' hs Hh); [done|lia|done].
Qed.

Lemma drains_intro calls fuel it hits :
  predictive_hits calls fuel it = Ok hits → drains it hits.
Proof.
  intros H. exists (max calls fuel). intros calls' fuel' Hc Hf.
  eapply predictive_hits_mono; [done|lia|lia].
Qed.

Lemma drains_elim it hits :
  drains it hits → ∃ n, predictive_hits n n it = Ok hits.
Proof. intros [n H]. exists n. by apply H. Qed.

(** One call of [next], then the rest. *)
Lemma drains_hit fuel it it' hits :
  predictive_next fuel it = Ok (true, it') →
  drains it' hits →
  drains it ((key it', id it') :: hits).
Proof.
  intros Hn [n H]%drains_elim.
  apply (drains_intro (S n) (max fuel n)). simpl.
  rewrite (predictive_next_mono _ (max fuel n) _ _ Hn) by lia. simpl.
  rewrite (predictive_hits_mono _ n _ (fuel `max` n) _ _ H) by lia. done.
Qed.

Lemma drains_end fuel it it' :
  predictive_next fuel it = Ok (false, it') → drains it [].
Proof.
  intros Hn. apply (drains_intro 1 fuel). simpl. by rewrite Hn.
Qed.

(** The first call decides everything: a cursor whose next call behaves
    like the next call of a cursor that drains to [hits] drains to [hits]. *)
Lemma drains_like it1 it2 hits :
  (∀ fuel r, predictive_next fuel it2 = Ok r →
             ∃ fuel', predictive_next fuel' it1 = Ok r) →
  drains it2 hits → drains it1 hits.
Proof.
  intros Hlike [n H]%drains_elim. destruct n as [|n]; [done|]. simpl in H.
  apply bind_Ok in H as ([b it'] & Hn & H).
  destruct (Hlike _ _ Hn) as [fuel' Hn']. simpl in H. destruct b.
  - apply bind_Ok in H as (hs & Hh & [= <-]).
    eapply drains_hit; [done|]. by eapply drains_intro.
  - injection H as <-. by eapply drains_end.
Qed.

End Fuel.

(** *** One turn of the traversal loop *)

Section Scan.

Import PredictiveIterator.
Variable t : Trie.

Lemma push_children_app l1 l2 b n d stack :
  push_children t (l1 ++ l2) b n d stack =
  let* s := push_children t l1 b n d stack in push_children t l2 b n d s.
Proof.
  revert stack; induction l1 as [|a l1 IH]; intros stack; simpl; [done|].
  destruct (check t (N.lxor b (code_ t a))); simpl; [apply IH|done].
Qed.

(** Pushing the children last letter first leaves them first letter on top. *)
Lemma push_children_frames letters b n d stack frames :
  child_frames t letters b n d = Ok frames →
  push_children t (rev letters) b n d stack = Ok (frames ++ stack).
Proof.
  revert frames; induction letters as [|a letters IH]; intros frames H; simpl in H.
  - by injection H as <-.
  - apply bind_Ok in H as (ck & Hck & H). apply bind_Ok in H as (fs & Hfs & H).
    injection H as <-. simpl. rewrite push_children_app, (IH _ Hfs). simpl.
    rewrite Hck. simpl. by case_bool_decide.
Qed.

Lemma scan_nil fuel key buf id :
  predictive_next fuel (scanning t key [] buf id)
  = Ok (false, set_end_flag true (scanning t key [] buf id)).
Proof. by destruct fuel. Qed.

Lemma scan_leaf fuel key d c n stack buf id id' tail_pos k :
  is_leaf t n = Ok true → to_key_id_ t n = Ok id' → link t n = Ok tail_pos →
  extract_suffix_ t tail_pos (popped d c buf) = Ok k →
  predictive_next (S fuel) (scanning t key (Frame d c n :: stack) buf id)
  = Ok (true, scanning t key stack k id').
Proof.
  intros Hl Hid Hk He. unfold predictive_next, next_predictive_, popped in *.
  simpl. rewrite Hl. simpl. rewrite Hid. simpl. rewrite Hk. simpl.
  destruct (0 <? d)%nat; simpl; rewrite He; done.
Qed.

Lemma scan_terminal fuel key d c n stack buf id id' b frames :
  is_leaf t n = Ok false → base t n = Ok b →
  child_frames t (alphabet_ t) b n d = Ok frames →
  terminal t n = Ok true → to_key_id_ t n = Ok id' →
  predictive_next (S fuel) (scanning t key (Frame d c n :: stack) buf id)
  = Ok (true, scanning t key (frames ++ stack) (popped d c buf) id').
Proof.
  intros Hl Hb Hf Ht Hid. unfold predictive_next, next_predictive_, popped.
  simpl. rewrite Hl. simpl. rewrite Hb. simpl.
  destruct (0 <? d)%nat; simpl;
    rewrite (push_children_frames _ _ _ _ _ _ Hf); simpl;
    rewrite Ht; simpl; rewrite Hid; done.
Qed.

Lemma scan_plain fuel key d c n stack buf id b frames :
  is_leaf t n = Ok false → base t n = Ok b →
  child_frames t (alphabet_ t) b n d = Ok frames →
  terminal t n = Ok false →
  predictive_next (S fuel) (scanning t key (Frame d c n :: stack) buf id)
  = predictive_next fuel (scanning t key (frames ++ stack) (popped d c buf) id).
Proof.
  intros Hl Hb Hf Ht. unfold predictive_next, next_predictive_, popped.
  simpl. rewrite Hl. simpl. rewrite Hb. simpl.
  destruct (0 <? d)%nat; simpl;
    rewrite (push_children_frames _ _ _ _ _ _ Hf); simpl;
    rewrite Ht; simpl; done.
Qed.

(** The buffer of a popped child frame. *)
Lemma popped_child path c buf :
  path `prefix_of` buf → popped (S (length path)) c buf = path ++ [c].
Proof.
  intros [k ->]. unfold popped, set_back. simpl.
  assert (∃ y, resize (S (length path)) x00 (path ++ k) = path ++ [y]) as [y ->].
  { rewrite resize_spec. destruct k as [|x k].
    - exists x00. rewrite app_nil_r, take_ge by lia.
      by replace (S (length path) - length path)%nat with 1%nat by lia.
    - exists x. rewrite take_app_ge by lia.
      replace (S (length path) - length path)%nat with 1%nat by lia.
      rewrite length_app. simpl.
      replace (S (length path) - (length path + S (length k)))%nat with 0%nat by lia.
      simpl. by rewrite take_0, app_nil_r. }
  rewrite length_app. simpl.
  replace (pred (length path + 1)) with (length path + 0)%nat by lia.
  by rewrite insert_app_r.
Qed.

End Scan.

(** *** The traversal drains a subtree, then goes on with the stack below *)

Section Drain.

Import PredictiveIterator.
Variable t : Trie.

Lemma drains_below_app input stack path a R :
  drains_below t input stack path R → drains_below t input stack (path ++ [a]) R.
Proof.
  intros H buf id Hp. apply H. etrans; [|done]. by apply prefix_app_r.
Qed.

Lemma kids_drain input d b n path :
  (∀ c path' L, subtree t d c path' = Ok L →
     ∀ ch stack buf id R,
       popped (length path') ch buf = path' →
       drains_below t input stack path' R →
       drains (scanning t input (Frame (length path') ch c :: stack) buf id) (L ++ R)) →
  ∀ letters hits,
    kids_hits t (subtree t d) b n path letters = Ok hits →
    ∃ frames, child_frames t letters b n (length path) = Ok frames ∧
      ∀ stack R, drains_below t input stack path R →
                 drains_below t input (frames ++ stack) path (hits ++ R).
Proof.
  intros IHd. induction letters as [|a letters IH]; intros hits H; simpl in H.
  - injection H as <-. exists []. split; [done|]. intros stack R HR. exact HR.
  - apply bind_Ok in H as (ck & Hck & H). apply bind_Ok in H as (first & Hfirst & H).
    apply bind_Ok in H as (others & Hothers & H). injection H as <-.
    destruct (IH _ Hothers) as (frames & Hframes & Hdrain).
    simpl. rewrite Hck, Hframes. simpl.
    eexists. split; [done|]. intros stack R HR buf id Hp.
    case_bool_decide as Heq.
    + rewrite <-app_assoc. simpl.
      replace (S (length path)) with (length (path ++ [a]))
        by (rewrite length_app; simpl; lia).
      apply IHd; [done| |].
      * rewrite length_app. simpl. rewrite Nat.add_1_r. by apply popped_child.
      * apply drains_below_app. by apply Hdrain.
    + injection Hfirst as <-. simpl. by apply Hdrain.
Qed.

Lemma subtree_drains input d n path L :
  subtree t d n path = Ok L →
  ∀ c stack buf id R,
    popped (length path) c buf = path →
    drains_below t input stack path R →
    drains (scanning t input (Frame (length path) c n :: stack) buf id) (L ++ R).
Proof.
  revert n path L; induction d as [|d IHd]; intros n path L H; simpl in H; [done|].
  intros c stack buf id R Hpop HR.
  apply bind_Ok in H as (leaf & Hl & H). destruct leaf.
  - apply bind_Ok in H as (id' & Hid & H). apply bind_Ok in H as (lk & Hlk & H).
    apply bind_Ok in H as (k & Hk & H). injection H as <-. simpl.
    change (drains (scanning t input (Frame (length path) c n :: stack) buf id)
              ((PredictiveIterator.key (scanning t input stack k id'), PredictiveIterator.id (scanning t input stack k id')) :: R)).
    eapply (drains_hit 1).
    + eapply scan_leaf; eauto. by rewrite Hpop.
    + apply HR. apply extract_suffix_Ok in Hk as (s & _ & ->). by apply prefix_app_r.
  - apply bind_Ok in H as (b & Hb & H). apply bind_Ok in H as (kids & Hkids & H).
    apply bind_Ok in H as (tf & Htf & H).
    destruct (kids_drain input d b n path (fun c path' L => IHd c path' L) _ _ Hkids)
      as (frames & Hframes & Hdrain).
    destruct tf.
    + apply bind_Ok in H as (id' & Hid & H). injection H as <-. simpl.
      change (drains (scanning t input (Frame (length path) c n :: stack) buf id)
        ((PredictiveIterator.key (scanning t input (frames ++ stack) path id'),
          PredictiveIterator.id (scanning t input (frames ++ stack) path id'))
         :: kids ++ R)).
      eapply (drains_hit 1).
      * pose proof (scan_terminal t 0 input (length path) c n stack buf id id' b
          frames Hl Hb Hframes Htf Hid) as Hs.
        by rewrite Hpop in Hs.
      * by apply Hdrain.
    + injection H as <-.
      eapply (drains_like _ (scanning t input (frames ++ stack) path id)).
      * intros fuel r Hr. exists (S fuel).
        rewrite (scan_plain _ _ _ _ _ _ _ _ _ _ _ Hl Hb Hframes Htf).
        by rewrite Hpop.
      * by apply Hdrain.
Qed.

End Drain.

(** *** Lexicographic order *)

Lemma lex_lt_extend path x xs : lex_lt path (path ++ x :: xs).
Proof. induction path as [|a path IH]; simpl; [done|]. by right. Qed.

Lemma lex_lt_diverge path a xs a' ys :
  Byte.to_N a < Byte.to_N a' → lex_lt (path ++ a :: xs) (path ++ a' :: ys).
Proof. intros H. induction path as [|b path IH]; simpl; [by left|by right]. Qed.

Lemma lex_lt_prefixes path a a' k k' :
  Byte.to_N a < Byte.to_N a' →
  (path ++ [a]) `prefix_of` k → (path ++ [a']) `prefix_of` k' → lex_lt k k'.
Proof.
  intros H [xs ->] [ys ->]. rewrite <-!app_assoc. simpl. by apply lex_lt_diverge.
Qed.

Lemma lex_lt_irrefl k : ¬ lex_lt k k.
Proof.
  induction k as [|a k IH]; simpl; [by intros []|].
  intros [?|[_ ?]]; [lia|by apply IH].
Qed.

Lemma ascending_cons a l :
  ascending (a :: l) = true →
  ascending l = true ∧ ∀ a', a' ∈ l → Byte.to_N a < Byte.to_N a'.
Proof.
  revert a; induction l as [|b l IH]; intros a H.
  - split; [done|]. intros a' Ha'. by apply elem_of_nil in Ha'.
  - simpl in H. apply andb_true_iff in H as [Hab Hl]. apply N.ltb_lt in Hab.
    split; [done|]. intros a' [->|Ha']%elem_of_cons; [done|].
    destruct (IH b Hl) as [_ Hb]. specialize (Hb a' Ha'). lia.
Qed.

(** *** The hits of a subtree *)

Section Subtree.

Variable t : Trie.
Hypothesis HWF : WF t.

Lemma used_lt n : used t n = true → n < num_nodes t.
Proof.
  intros Hu. destruct (N.eq_dec n 0) as [->|Hn]; [apply (wf_root t HWF)|].
  destruct (used_inv t n Hu Hn) as (p & Hp & _). eauto using check_lt.
Qed.

Lemma walk_length path n : walk t 0 path n → (length path ≤ length (bc_ t))%nat.
Proof.
  intros Hw.
  assert (used t n = true) as Hu by (eapply walk_used; eauto using used_root).
  apply used_spec in Hu as [k Hk].
  destruct (climb t HWF _ _ _ Hk) as (bs & Hbs & Hlen & _).
  rewrite (walk_unique t HWF _ _ _ Hw Hbs), Hlen. eauto using depth_of_le.
Qed.

Lemma terminal_total n : n < num_nodes t → ∃ b, terminal t n = Ok b.
Proof.
  intros H. rewrite <-(wf_flags t HWF) in H.
  destruct (get_lt_Some _ _ H) as [b Hb]. exists b.
  unfold terminal, bv_get. by rewrite Hb.
Qed.

Lemma to_key_id_total n : n < num_nodes t → ∃ id, to_key_id_ t n = Ok id.
Proof.
  intros H. eexists. apply to_key_id_spec. rewrite (wf_flags t HWF). lia.
Qed.

Lemma below_prefix n path k id : below t n path k id → path `prefix_of` k.
Proof.
  intros (bs & n' & _ & _ & _ & l & _ & Hk). destruct l.
  - destruct Hk as (tp & _ & (s & _ & ->)%extract_suffix_Ok).
    rewrite <-app_assoc. by eexists.
  - subst k. by eexists.
Qed.

Lemma below_child n path a c k id :
  child t n a c → below t c (path ++ [a]) k id → below t n path k id.
Proof.
  intros Hc (bs & n' & Hw & Hk). exists (a :: bs), n'. split; [by econstructor|].
  by rewrite <-app_assoc in Hk.
Qed.

Lemma kids_spec d b n path :
  subtree_ok t d →
  walk t 0 path n → is_leaf t n = Ok false → base t n = Ok b →
  (length (bc_ t) < d + S (length path))%nat →
  ∀ letters, ascending letters = true →
    ∃ L, kids_hits t (subtree t d) b n path letters = Ok L
         ∧ (∀ k id, (k, id) ∈ L ↔
              ∃ a c, a ∈ letters ∧ child t n a c ∧ below t c (path ++ [a]) k id)
         ∧ StronglySorted lex_lt (L.*1).
Proof.
  intros IHd Hw Hl Hb Hd.
  assert (used t n = true) as Hu by (eapply walk_used; eauto using used_root).
  induction letters as [|a letters IH]; intros Hasc; simpl.
  - exists []. split; [done|]. split; [|constructor].
    intros k id. split; [by intros ?%elem_of_nil|].
    by intros (a & c & ?%elem_of_nil & _).
  - apply ascending_cons in Hasc as [Hasc Hlt].
    destruct (IH Hasc) as (others & Hothers & Hmem & Hsorted).
    pose proof (wf_block t HWF n b (code_ t a) Hu Hl Hb (code_lt t a)) as Hc.
    destruct (node_reads t _ Hc) as (_ & ck & _ & _ & _ & Hck & _ & _).
    rewrite Hck. simpl. rewrite Hothers.
    case_bool_decide as Heq.
    + subst ck.
      assert (child t n a (N.lxor b (code_ t a))) as Hch.
      { split; [done|]. by exists b. }
      destruct (IHd (N.lxor b (code_ t a)) (path ++ [a])) as (first & -> & Hfirst & Hs).
      { by eapply walk_snoc. }
      { rewrite length_app. simpl. lia. }
      simpl. eexists. split; [done|]. split.
      * intros k id. rewrite elem_of_app, Hfirst, Hmem. split.
        -- intros [H|(a' & c & Ha' & H)].
           ++ exists a, (N.lxor b (code_ t a)). split; [by left|done].
           ++ exists a', c. split; [by right|done].
        -- intros (a' & c & [->|Ha']%elem_of_cons & Hc' & H).
           ++ left. by rewrite (child_det t _ _ _ _ Hch Hc').
           ++ right. eauto.
      * rewrite fmap_app. apply StronglySorted_app_2; [|done|done].
        intros k1 k2 ([k1' id1] & -> & H1)%list_elem_of_fmap
                     ([k2' id2] & -> & H2)%list_elem_of_fmap. simpl.
        apply Hfirst, below_prefix in H1.
        apply Hmem in H2 as (a' & c & Ha' & _ & H2%below_prefix).
        eapply lex_lt_prefixes; eauto.
    + simpl. eexists. split; [done|]. split; [|done].
      intros k id. rewrite Hmem. split.
      * intros (a' & c & Ha' & H). exists a', c. split; [by right|done].
      * intros (a' & c & [->|Ha']%elem_of_cons & Hc' & H); [|eauto].
        destruct Hc' as (_ & b' & Hb' & -> & Hck').
        assert (b' = b) as -> by congruence. congruence.
Qed.

Lemma subtree_spec d : subtree_ok t d.
Proof.
  induction d as [|d IHd]; intros n path Hw Hd.
  { pose proof (walk_length _ _ Hw). lia. }
  assert (used t n = true) as Hu by (eapply walk_used; eauto using used_root).
  pose proof (used_lt n Hu) as Hlt.
  destruct (node_reads t n Hlt) as (b & _ & l & lk & Hb & _ & Hl & Hlk).
  destruct (to_key_id_total n Hlt) as [id Hid].
  simpl. rewrite Hl. simpl. destruct l.
  - pose proof (wf_leaf_terminal t HWF n Hu Hl) as Hterm.
    destruct (leaf_suffix t HWF n lk Hu Hl Hlk) as (s & Hex & _).
    rewrite Hid. simpl. rewrite Hlk. simpl. rewrite Hex. simpl.
    eexists. split; [done|]. split; [|repeat constructor].
    assert (key_at t n (path ++ []) (path ++ s) id) as Hkey.
    { split; [done|]. split; [done|]. exists true. split; [done|].
      exists lk. split; [done|]. by rewrite app_nil_r. }
    intros k id'. rewrite list_elem_of_singleton. split.
    + intros [= -> ->]. exists [], n. split; [constructor|done].
    + intros (bs & n' & Hw' & Hk).
      destruct (walk_leaf t _ _ _ Hw' Hl) as [-> ->].
      by destruct (key_at_fun t _ _ _ _ _ _ Hkey Hk) as [-> ->].
  - rewrite Hb. simpl.
    assert (length (bc_ t) < d + S (length path))%nat as Hd' by lia.
    destruct (kids_spec d b n path IHd Hw Hl Hb Hd' (alphabet_ t) (wf_ascending t HWF))
      as (kids & -> & Hmem & Hsorted). simpl.
    destruct (terminal_total n Hlt) as [tf Htf]. rewrite Htf. simpl.
    assert (∀ k id', (k, id') ∈ kids ↔
              ∃ a bs n', walk t n (a :: bs) n' ∧ key_at t n' (path ++ a :: bs) k id')
      as Hkids.
    { intros k id'. rewrite Hmem. split.
      - intros (a & c & _ & Hc & bs & n' & Hw' & Hk).
        exists a, bs, n'. split; [by econstructor|]. by rewrite <-app_assoc in Hk.
      - intros (a & bs & n' & Hw' & Hk). inversion Hw' as [|? ? c ? ? Hc Hw'']; subst.
        exists a, c. split; [|split; [done|]].
        + destruct (child_used t HWF _ _ _ Hu Hc) as [Hc0 Huc].
          destruct (child_edge t HWF _ _ _ Hc) as [Hck He].
          eapply (wf_edge_alphabet t HWF); eauto.
        + exists bs, n'. split; [done|]. by rewrite <-app_assoc. }
    assert (Forall (lex_lt path) kids.*1) as Hafter.
    { apply Forall_forall. intros k ([k' id'] & -> & H)%list_elem_of_fmap. simpl.
      apply Hmem in H as (a & c & _ & _ & [xs ->]%below_prefix).
      rewrite <-app_assoc. apply lex_lt_extend. }
    destruct tf.
    + rewrite Hid. simpl. eexists. split; [done|]. split.
      * intros k id'. rewrite elem_of_cons, Hkids. split.
        -- intros [[= -> ->]|(a & bs & n' & Hw' & Hk)].
           ++ exists [], n. split; [constructor|]. rewrite app_nil_r.
              split; [done|]. split; [done|]. by exists false.
           ++ by exists (a :: bs), n'.
        -- intros ([|a bs] & n' & Hw' & Hk).
           ++ inversion Hw'; subst. left. rewrite app_nil_r in Hk.
              destruct Hk as (_ & Hid' & l & Hl' & Hk).
              assert (l = false) as -> by congruence. congruence.
           ++ right. by exists a, bs, n'.
      * simpl. by constructor.
    + eexists. split; [done|]. split; [|done].
      intros k id'. rewrite Hkids. split.
      * intros (a & bs & n' & Hw' & Hk). by exists (a :: bs), n'.
      * intros ([|a bs] & n' & Hw' & Hk).
        -- inversion Hw'; subst. destruct Hk as (Hterm & _). congruence.
        -- by exists a, bs, n'.
Qed.

End Subtree.

(** ** The example scenario

    The keys "a", "an", "and", "ant" with the ids 0 to 3 (the example holds
    "bird" and "cat" besides): [lookup], the prefix cursor on "ant" and the
    predictive cursor on "an". *)
Example scenario :
  lookup Examples.text_trie (Examples.str "and") = Ok 2
  ∧ lookup Examples.text_trie (Examples.str "any") = Ok NOT_FOUND
  ∧ prefix_hits 4 (make_prefix_iterator Examples.text_trie (Examples.str "ant"))
    = Ok [(Examples.str "a", 0); (Examples.str "an", 1); (Examples.str "ant", 3)]
  ∧ (let* it := make_predictive_iterator Examples.text_trie (Examples.str "an") in
     predictive_hits 4 8 it)
    = Ok [(Examples.str "an", 1); (Examples.str "and", 2); (Examples.str "ant", 3)].
Proof. repeat split; vm_compute; reflexivity. Qed.

(** ** access outside the id range *)

(** C6. For an id at or above [num_keys], [access] returns the empty string
    and no fault, whatever the dictionary holds and whatever the fuel;
    [access] is a function of the dictionary and the id only, so there is no
    state it could change. *)
Theorem access_out_of_range (t : Trie) (id : id_type) :
  num_keys t <= id →
  access t id = Ok [] ∧ ∀ fuel, access_fuel t fuel id = Ok [].
Proof.
  intros H. unfold access, access_fuel, num_keys in *.
  destruct (N.leb_spec (num_keys_ t) id); [done|lia].
Qed.

Lemma access_out_of_range_witness :
  num_keys Examples.text_trie <= 6
  ∧ access Examples.text_trie 6 = Ok []
  ∧ ∀ fuel, access_fuel Examples.text_trie fuel 6 = Ok [].
Proof.
  assert (num_keys Examples.text_trie <= 6) as H by (vm_compute; discriminate).
  split; [exact H|]. exact (access_out_of_range Examples.text_trie 6 H).
Defined.

(** ** The two tail decoders *)




(** ** Where the engine departs from what is claimed of it *)

(** Where offset 0 of the tail is handled as the empty suffix: when no input
    is left, in text mode, and on extraction. *)
Lemma suffix_offset_0_where_guarded (t : Trie) :
  well_formed t = true →
  match_suffix_ t [] 0 = Ok true
  ∧ (∀ dec, extract_suffix_ t 0 dec = Ok dec)
  ∧ (bin_mode_ t = false → ∀ c rest, match_suffix_ t (c :: rest) 0 = Ok false).
Proof.
  intros HWF%well_formed_WF. split; [done|]. split.
  - intros dec. unfold extract_suffix_. destruct (bin_mode_ t) eqn:Eb; [done|].
    by rewrite (get_from _ _ _ (wf_tail0 t HWF Eb)).
  - intros Eb c rest. unfold match_suffix_. rewrite Eb. simpl.
    by rewrite (wf_tail0 t HWF Eb).
Qed.

(** C7. In binary mode [match_suffix_] has no guard for [tail_pos == 0] once
    input is left: it compares the input with the tail from offset 0 on. In
    the binary example, with the two bytes NUL NUL left and [tail_pos = 0],
    the match succeeds. *)
Theorem match_suffix_bin_at_offset_0 :
  well_formed Examples.bin_trie = true
  ∧ bin_mode_ Examples.bin_trie = true
  ∧ match_suffix_ Examples.bin_trie [x00; x00] 0 = Ok true.
Proof. repeat split; vm_compute; reflexivity. Qed.

(** C4. The same missing guard makes [lookup] find a string that is not a
    key: the binary example holds "a" and "b\0", and "a\0\0" is looked up as
    the id of "a". *)
Theorem lookup_finds_unregistered :
  well_formed Examples.bin_trie = true
  ∧ lookup Examples.bin_trie (Examples.str "a" ++ [x00; x00]) = Ok 0
  ∧ ¬ ∃ id, registered Examples.bin_trie (Examples.str "a" ++ [x00; x00]) id.
Proof.
  split; [vm_compute; reflexivity|]. split; [vm_compute; reflexivity|].
  intros (id & Hid & Hacc). unfold num_keys in Hid. simpl in Hid.
  assert (id = 0 ∨ id = 1) as [-> | ->] by lia; vm_compute in Hacc; discriminate.
Qed.

(** C9. [next_prefix_] reads [key_[pos_]] without comparing [pos_] with the
    length of the input. On the text example with the input "an", the first
    two calls report "a" and "an"; the cursor then sits on the branching
    node "an" with the input consumed, and the third call reads [key_[2]]
    of a two-byte input. *)
Theorem prefix_reads_past_input :
  well_formed Examples.text_trie = true
  ∧ ∃ it1 it2,
    prefix_next (make_prefix_iterator Examples.text_trie (Examples.str "an"))
      = Ok (true, it1)
    ∧ prefix_next it1 = Ok (true, it2)
    ∧ PrefixIterator.pos_ it2 = length (Examples.str "an")
    ∧ is_leaf Examples.text_trie (PrefixIterator.node_id_ it2) = Ok false
    ∧ prefix_next it2 = Err KeyBounds.
Proof.
  split; [vm_compute; reflexivity|].
  eexists _, _. split; [vm_compute; reflexivity|].
  split; [vm_compute; reflexivity|]. repeat split; vm_compute; reflexivity.
Qed.

(** C3. A key that sits in a leaf is reported only if it is the whole input:
    on the text example with the input "ants" the cursor reports "a" and
    "an" and stops, although "ant" is registered (id 3) and a prefix of
    "ants". *)
Theorem prefix_misses_leaf_key :
  well_formed Examples.text_trie = true
  ∧ prefix_hits 3 (make_prefix_iterator Examples.text_trie (Examples.str "ants"))
    = Ok [(Examples.str "a", 0); (Examples.str "an", 1)]
  ∧ registered Examples.text_trie (Examples.str "ant") 3
  ∧ Examples.str "ant" `prefix_of` Examples.str "ants".
Proof.
  split; [vm_compute; reflexivity|]. split; [vm_compute; reflexivity|].
  split; [split; vm_compute; reflexivity|]. by exists (Examples.str "s").
Qed.

(** ** Exhaustion of the cursors *)

(** Splits on the conditions an equation in the context branches on. *)
Ltac break_result H :=
  repeat first
    [ progress inv_res
    | match type of H with
      | context [if ?b then _ else _] => destruct b eqn:?
      | context [match ?f with Return _ _ => _ | Continue _ => _ end] =>
          destruct f eqn:?
      end ].

Section PrefixExhaustion.

Import PrefixIterator.
Variable t : Trie.

Lemma prefix_finish_false it it' :
  prefix_finish t it = Ok (false, it') → end_flag_ it' = true ∧ trie_ it' = trie_ it.
Proof.
  unfold prefix_finish. intros H. break_result H; try discriminate. done.
Qed.

Lemma prefix_loop_false rest it it' :
  prefix_loop t rest it = Ok (false, it') →
  end_flag_ it' = true ∧ trie_ it' = trie_ it.
Proof.
  revert it; induction rest as [|c rest IH]; intros it H; simpl in H.
  - break_result H; try discriminate. by apply prefix_finish_false.
  - apply bind_Ok in H as (leaf & El & H). destruct leaf.
    { by apply prefix_finish_false. }
    apply bind_Ok in H as (b & Eb & H). apply bind_Ok in H as (ck & Ec & H).
    case_bool_decide.
    { injection H as <-. done. }
    apply bind_Ok in H as (leaf' & El' & H). apply bind_Ok in H as (hit & Eh & H).
    destruct hit.
    { break_result H; discriminate. }
    apply IH in H as [H1 H2]. done.
Qed.

Lemma next_prefix_false it it' :
  next_prefix_ t it = Ok (false, it') → end_flag_ it' = true ∧ trie_ it' = trie_ it.
Proof.
  unfold next_prefix_. intros H.
  destruct (end_flag_ it) eqn:Ee; [by injection H as <-|].
  destruct (begin_flag_ it).
  - apply bind_Ok in H as (tf & Et & H). destruct tf.
    + break_result H; discriminate.
    + by apply prefix_loop_false in H.
  - by apply prefix_loop_false in H.
Qed.

End PrefixExhaustion.

Lemma prefix_next_false it it' :
  prefix_next it = Ok (false, it') → prefix_next it' = Ok (false, it').
Proof.
  unfold prefix_next. destruct (PrefixIterator.trie_ it) as [t|] eqn:Et.
  - intros [H1 H2]%next_prefix_false. rewrite H2, Et. unfold next_prefix_.
    by rewrite H1.
  - intros [= <-]. by rewrite Et.
Qed.

Section PredictiveExhaustion.

Import PredictiveIterator.
Variable t : Trie.

Lemma predictive_match_bin_flags rest n tail_pos it b it' :
  predictive_match_bin t rest n tail_pos it = Ok (b, it') →
  end_flag_ it' = end_flag_ it ∧ trie_ it' = trie_ it.
Proof.
  revert tail_pos it; induction rest as [|c rest IH]; intros tail_pos it H; simpl in H.
  - unfold predictive_yield_leaf in H. break_result H. done.
  - apply bind_Ok in H as (tc & Et & H). case_bool_decide.
    { by injection H as _ <-. }
    apply bind_Ok in H as (bf & Eb & H). destruct bf.
    + case_bool_decide; break_result H; done.
    + apply IH in H as [H1 H2]. done.
Qed.

Lemma predictive_match_text_flags rest n tail_pos it b it' :
  predictive_match_text t rest n tail_pos it = Ok (b, it') →
  end_flag_ it' = end_flag_ it ∧ trie_ it' = trie_ it.
Proof.
  revert tail_pos it; induction rest as [|c rest IH]; intros tail_pos it H; simpl in H.
  - unfold predictive_yield_leaf in H. break_result H. done.
  - apply bind_Ok in H as (tc & Et & H).
    destruct (bool_decide (c ≠ tc) || bool_decide (tc = x00)).
    { by injection H as _ <-. }
    apply IH in H as [H1 H2]. done.
Qed.

Lemma predictive_descend_trie rest pos n it f :
  predictive_descend t rest pos n it = Ok f →
  match f with
  | Return b it' => (b = false → end_flag_ it' = true) ∧ trie_ it' = trie_ it
  | Continue it' => trie_ it' = trie_ it ∧ end_flag_ it' = end_flag_ it
                    ∧ begin_flag_ it' = begin_flag_ it
  end.
Proof.
  revert pos n it; induction rest as [|c rest IH]; intros pos n it H;
    cbn [predictive_descend] in H.
  - injection H as <-. done.
  - apply bind_Ok in H as (leaf & El & H). destruct leaf.
    + apply bind_Ok in H as (tail_pos & Ek & H). destruct (tail_pos =? 0).
      { injection H as <-. done. }
      apply bind_Ok in H as ([b it'] & Er & H). injection H as <-. simpl.
      destruct (bin_mode_ t).
      * by apply predictive_match_bin_flags in Er as [-> ->].
      * by apply predictive_match_text_flags in Er as [-> ->].
    + apply bind_Ok in H as (b & Eb & H). apply bind_Ok in H as (ck & Ec & H).
      case_bool_decide.
      { injection H as <-. done. }
      apply IH in H. destruct f; simpl in *; intuition congruence.
Qed.

Lemma predictive_loop_false fuel it it' :
  predictive_loop t fuel it = Ok (false, it') →
  end_flag_ it' = true ∧ trie_ it' = trie_ it.
Proof.
  revert it; induction fuel as [|fuel IH]; intros it H; simpl in H;
    destruct (stack_ it) as [|top stack'] eqn:Es; try discriminate;
    try (by injection H as <-).
  apply bind_Ok in H as (leaf & El & H). destruct leaf.
  { break_result H; discriminate. }
  apply bind_Ok in H as (b & Eb & H). apply bind_Ok in H as (st & Est & H).
  apply bind_Ok in H as (tf & Et & H). destruct tf.
  { break_result H; discriminate. }
  apply IH in H as [H1 H2]. split; [done|].
  rewrite H2. simpl. by destruct (0 <? depth top)%nat.
Qed.

Lemma next_predictive_false fuel it it' :
  next_predictive_ t fuel it = Ok (false, it') →
  end_flag_ it' = true ∧ trie_ it' = trie_ it.
Proof.
  unfold next_predictive_. intros H.
  destruct (end_flag_ it) eqn:Ee; [by injection H as <-|].
  destruct (begin_flag_ it).
  - apply bind_Ok in H as (f & Ef & H). apply predictive_descend_trie in Ef.
    destruct f as [b it1|it1].
    + injection H as -> <-. destruct Ef as [H1 H2]. split; [by apply H1|done].
    + apply predictive_loop_false in H as [H1 H2]. destruct Ef as (H3 & _).
      split; [done|]. by rewrite H2, H3.
  - by apply predictive_loop_false in H.
Qed.

End PredictiveExhaustion.

Lemma predictive_next_false fuel fuel' it it' :
  predictive_next fuel it = Ok (false, it') →
  predictive_next fuel' it' = Ok (false, it').
Proof.
  unfold predictive_next. destruct (PredictiveIterator.trie_ it) as [t|] eqn:Et.
  - intros [H1 H2]%next_predictive_false. rewrite H2, Et. unfold next_predictive_.
    by rewrite H1.
  - intros [= <-]. by rewrite Et.
Qed.

(** C8. Once [next] has returned false on a cursor, prefix or predictive,
    every later call on it returns false as well and leaves the cursor, and
    with it the key and the id it shows, as it is. *)
Theorem exhaustion_is_permanent
  (pit pit' : PrefixIterator.t) (dit dit' : PredictiveIterator.t) (fuel : nat) :
  (prefix_next pit = Ok (false, pit') →
   ∀ n, prefix_next_n n pit' = Ok (false, pit'))
  ∧ (predictive_next fuel dit = Ok (false, dit') →
     ∀ n fuel', predictive_next_n n fuel' dit' = Ok (false, dit')).
Proof.
  split.
  - intros H%prefix_next_false n. induction n as [|n IH]; simpl; [done|].
    by rewrite H.
  - intros H n fuel'. induction n as [|n IH]; simpl.
    + by eapply predictive_next_false.
    + by rewrite (predictive_next_false _ fuel' _ _ H).
Qed.

Lemma exhaustion_is_permanent_witness :
  ∃ pit' dit dit',
    prefix_next (make_prefix_iterator Examples.text_trie (Examples.str "x"))
      = Ok (false, pit')
    ∧ make_predictive_iterator Examples.text_trie (Examples.str "x") = Ok dit
    ∧ predictive_next 300 dit = Ok (false, dit')
    ∧ (∀ n, prefix_next_n n pit' = Ok (false, pit'))
    ∧ (∀ n fuel', predictive_next_n n fuel' dit' = Ok (false, dit')).
Proof.
  eexists _, _, _.
  split; [lazy; reflexivity|]. split; [lazy; reflexivity|].
  split; [lazy; reflexivity|].
  split.
  - refine (proj1 (exhaustion_is_permanent
      (make_prefix_iterator Examples.text_trie (Examples.str "x")) _
      PredictiveIterator.empty PredictiveIterator.empty 0) _).
    lazy; reflexivity.
  - refine (proj2 (exhaustion_is_permanent
      PrefixIterator.empty PrefixIterator.empty
      (created Examples.text_trie (Examples.str "x")) _ 300) _).
    lazy; reflexivity.
Defined.

(** ** The serialized layout *)

Lemma read_raw_app l rest : read_raw (length l) (l ++ rest) = Ok (l, rest).
Proof. induction l as [|b l IH]; simpl; [done|]. by rewrite IH. Qed.

Section RoundTrip.

Variable bc_codec : codec bc_type.
Variable bits_codec : codec BitVector.
Variable vector_codec : codec (list byte).
Variable size_codec : codec N.
Variable bool_codec : codec bool.

Variable t : Trie.

Hypothesis bc_round_trip : round_trips bc_codec (bc_ t).
Hypothesis terminal_round_trip : round_trips bits_codec (terminal_flags_ t).
Hypothesis tail_round_trip : round_trips vector_codec (tail_ t).
Hypothesis boundary_round_trip : round_trips bits_codec (boundary_flags_ t).
Hypothesis alphabet_round_trip : round_trips vector_codec (alphabet_ t).
Hypothesis table_length : length (table_ t) = 512%nat.
Hypothesis num_keys_round_trip : round_trips size_codec (num_keys_ t).
Hypothesis max_length_round_trip : round_trips size_codec (max_length_ t).
Hypothesis bin_mode_round_trip : round_trips bool_codec (bin_mode_ t).

Lemma read_write rest :
  read_trie bc_codec bits_codec vector_codec size_codec bool_codec
    (write bc_codec bits_codec vector_codec size_codec bool_codec t [] ++ rest)
  = Ok (t, rest).
Proof.
  assert (resize 512 x00 (table_ t) = table_ t) as Hresize.
  { rewrite <-table_length. apply resize_all. }
  assert (∀ rest, read_raw 512 (table_ t ++ rest) = Ok (table_ t, rest)) as Hraw.
  { intros rest'. rewrite <-table_length. apply read_raw_app. }
  unfold write, read_trie. rewrite app_nil_l, Hresize, <-!app_assoc.
  rewrite bc_round_trip; cbn [bind fst snd].
  rewrite terminal_round_trip; cbn [bind fst snd].
  rewrite tail_round_trip; cbn [bind fst snd].
  rewrite boundary_round_trip; cbn [bind fst snd].
  rewrite alphabet_round_trip; cbn [bind fst snd].
  rewrite Hraw; cbn [bind fst snd].
  rewrite num_keys_round_trip; cbn [bind fst snd].
  rewrite max_length_round_trip; cbn [bind fst snd].
  rewrite bin_mode_round_trip; cbn [bind fst snd]. by destruct t.
Qed.

End RoundTrip.

(** C5. If each component serializer reads back what it wrote for the
    component of this dictionary (the contract of the backends), then
    reading the stream that [write] produced builds a dictionary on which
    [lookup], [access] and both cursors give the results of the original on
    every input. [write] and [read_trie] go through the nine components in
    the same order. *)
Theorem write_read_round_trip
  (bc_codec : codec bc_type) (bits_codec : codec BitVector)
  (vector_codec : codec (list byte)) (size_codec : codec N)
  (bool_codec : codec bool) (t : Trie) :
  round_trips bc_codec (bc_ t) →
  round_trips bits_codec (terminal_flags_ t) →
  round_trips vector_codec (tail_ t) →
  round_trips bits_codec (boundary_flags_ t) →
  round_trips vector_codec (alphabet_ t) →
  length (table_ t) = 512%nat →
  round_trips size_codec (num_keys_ t) →
  round_trips size_codec (max_length_ t) →
  round_trips bool_codec (bin_mode_ t) →
  ∃ t',
    read_trie bc_codec bits_codec vector_codec size_codec bool_codec
      (write bc_codec bits_codec vector_codec size_codec bool_codec t [])
    = Ok (t', [])
    ∧ (∀ key, lookup t' key = lookup t key)
    ∧ (∀ id, access t' id = access t id)
    ∧ (∀ key calls,
         prefix_hits calls (make_prefix_iterator t' key)
         = prefix_hits calls (make_prefix_iterator t key))
    ∧ (∀ key calls fuel,
         (let* it := make_predictive_iterator t' key in predictive_hits calls fuel it)
         = (let* it := make_predictive_iterator t key in
            predictive_hits calls fuel it)).
Proof.
  intros H1 H2 H3 H4 H5 H6 H7 H8 H9. exists t. split; [|done].
  rewrite <-(app_nil_r (write _ _ _ _ _ t [])). by apply read_write.
Qed.

Lemma write_read_round_trip_witness :
  ∃ t',
    Wire.read_back (Wire.write_trie Examples.text_trie) = Ok (t', [])
    ∧ (∀ key, lookup t' key = lookup Examples.text_trie key)
    ∧ (∀ id, access t' id = access Examples.text_trie id)
    ∧ (∀ key calls,
         prefix_hits calls (make_prefix_iterator t' key)
         = prefix_hits calls (make_prefix_iterator Examples.text_trie key))
    ∧ (∀ key calls fuel,
         (let* it := make_predictive_iterator t' key in predictive_hits calls fuel it)
         = (let* it := make_predictive_iterator Examples.text_trie key in
            predictive_hits calls fuel it)).
Proof.
  apply (write_read_round_trip Wire.bc_codec Wire.bits_codec Wire.vector_codec
           Wire.size_codec Wire.bool_codec Examples.text_trie);
    try (intros rest; vm_compute; reflexivity).
  vm_compute; reflexivity.
Defined.

(** ** The predictive cursor yields the keys that start with the input *)

Section PredictiveCorrect.

Import PredictiveIterator.
Variable t : Trie.
Hypothesis HWF : WF t.

Lemma key_at_prefix n path k id : key_at t n path k id → path `prefix_of` k.
Proof.
  intros Hk. apply (below_prefix t n path k id). exists [], n.
  split; [constructor|]. by rewrite app_nil_r.
Qed.

(** The registered keys that start with the path of a node are the keys at or
    below that node. *)
Lemma prefix_keys p m k id :
  walk t 0 p m → below t m p k id ↔ registered t k id ∧ p `prefix_of` k.
Proof.
  intros Hw. split.
  - intros Hb. split; [|by eapply below_prefix].
    destruct Hb as (bs & n' & Hw' & Hk).
    eapply (key_at_registered t HWF); [|done]. by eapply walk_app.
  - intros [(n' & bs0 & Hw0 & Hk)%(registered_key_at t HWF) Hp].
    pose proof (key_at_prefix _ _ _ _ Hk) as Hp0.
    destruct (prefix_weak_total _ _ _ Hp Hp0) as [[bs ->]|[xs ->]].
    + apply walk_app_inv in Hw0 as (m' & Hw1 & Hw2).
      rewrite <-(walk_det t _ _ _ _ Hw Hw1) in Hw2. by exists bs, n'.
    + destruct xs as [|x xs].
      * rewrite app_nil_r in *.
        assert (n' = m) as -> by (by eapply walk_det).
        exists [], m. split; [constructor|]. by rewrite app_nil_r.
      * apply walk_app_inv in Hw as (n'' & Hw1 & Hw2).
        rewrite <-(walk_det t _ _ _ _ Hw0 Hw1) in Hw2.
        inversion Hw2 as [|? ? ? ? ? [Hl _]]; subst.
        destruct Hk as (_ & _ & l & Hl' & Hk).
        assert (l = false) as -> by congruence. subst k.
        apply prefix_length in Hp. rewrite length_app in Hp. simpl in Hp. lia.
Qed.

(** Below a leaf there is the key of the leaf and nothing else. *)
Lemma leaf_keys buf n tail_pos s id k id' :
  walk t 0 buf n → is_leaf t n = Ok true → link t n = Ok tail_pos →
  to_key_id_ t n = Ok id →
  (∀ dec, extract_suffix_ t tail_pos dec = Ok (dec ++ s)) →
  registered t k id' ∧ buf `prefix_of` k ↔ k = buf ++ s ∧ id' = id.
Proof.
  intros Hw Hl Hlk Hid Hex.
  assert (used t n = true) as Hu by (eapply walk_used; eauto using used_root).
  assert (key_at t n (buf ++ []) (buf ++ s) id) as Hkey.
  { split; [by apply (wf_leaf_terminal t HWF)|]. split; [done|].
    exists true. split; [done|]. exists tail_pos. split; [done|].
    by rewrite app_nil_r. }
  rewrite <-(prefix_keys buf n k id' Hw). split.
  - intros (bs & n' & Hw' & Hk). destruct (walk_leaf t _ _ _ Hw' Hl) as [-> ->].
    by destruct (key_at_fun t _ _ _ _ _ _ Hkey Hk) as [-> ->].
  - intros [-> ->]. exists [], n. split; [constructor|done].
Qed.

(** *** The matching loops of the first phase *)

Lemma predictive_match_bin_spec n id rest tail_pos it s :
  bin_mode_ t = true → to_key_id_ t n = Ok id → tail_pos ≠ 0 →
  extract_bin t (from (tail_ t) tail_pos) tail_pos [] = Ok s →
  ∃ it', predictive_match_bin t rest n tail_pos it
         = Ok (bool_decide (rest `prefix_of` s), it')
         ∧ (rest `prefix_of` s → buf_ it' = buf_ it ++ s ∧ id_ it' = id).
Proof.
  intros Hbin Hid. revert tail_pos it s.
  induction rest as [|c rest IH]; intros tail_pos it s Hp Hs; simpl.
  - unfold predictive_yield_leaf, extract_suffix_. rewrite Hid, Hbin. simpl.
    destruct (N.eqb_spec tail_pos 0); [done|]. simpl.
    rewrite extract_bin_acc, Hs. simpl. eexists. split.
    + first [done | by rewrite bool_decide_eq_true_2 by apply prefix_nil].
    + done.
  - destruct (from (tail_ t) tail_pos) as [|tc cells] eqn:Ef; [done|].
    apply from_cons_inv in Ef as [Hget Hfrom]. rewrite Hget. simpl in *.
    destruct (boundary t tail_pos) as [bf|] eqn:Eb; [|done]. simpl in *.
    assert (∃ s', s = tc :: s'
                  ∧ if bf then s' = []
                    else extract_bin t cells (N.succ tail_pos) [] = Ok s')
      as (s' & -> & Hs').
    { destruct bf.
      - injection Hs as <-. by exists [].
      - rewrite extract_bin_acc in Hs. apply bind_Ok in Hs as (s' & Hs' & [= <-]).
        by exists s'. }
    case_bool_decide as Hc.
    { exists it. split; [|by intros ?%prefix_cons_inv_1].
      rewrite bool_decide_eq_false_2; [done|]. by intros ?%prefix_cons_inv_1. }
    subst tc. destruct bf.
    + subst s'. case_bool_decide as Hr.
      * subst rest. rewrite Hid. simpl. eexists. split.
        -- by rewrite bool_decide_eq_true_2.
        -- done.
      * eexists. split; [|intros H%prefix_cons_inv_2; by apply prefix_nil_inv in H].
        rewrite bool_decide_eq_false_2; [done|].
        intros H%prefix_cons_inv_2. by apply prefix_nil_inv in H.
    + rewrite <-Hfrom in Hs'.
      destruct (IH (N.succ tail_pos) (set_buf (buf_ it ++ [c]) it) s') as (it' & -> & Hit');
        [lia|done|].
      exists it'. split.
      * f_equal. f_equal. apply bool_decide_ext. split.
        -- apply prefix_cons.
        -- apply prefix_cons_inv_2.
      * intros H%prefix_cons_inv_2. destruct (Hit' H) as [-> ->].
        simpl. by rewrite <-app_assoc.
Qed.

Lemma predictive_match_text_spec n id rest tail_pos it s :
  bin_mode_ t = false → to_key_id_ t n = Ok id →
  extract_text (from (tail_ t) tail_pos) [] = Ok s →
  ∃ it', predictive_match_text t rest n tail_pos it
         = Ok (bool_decide (rest `prefix_of` s), it')
         ∧ (rest `prefix_of` s → buf_ it' = buf_ it ++ s ∧ id_ it' = id).
Proof.
  intros Hbin Hid. revert tail_pos it s.
  induction rest as [|c rest IH]; intros tail_pos it s Hs; simpl.
  - unfold predictive_yield_leaf, extract_suffix_. rewrite Hid, Hbin. simpl.
    rewrite extract_text_acc, Hs. simpl. eexists. split.
    + first [done | by rewrite bool_decide_eq_true_2 by apply prefix_nil].
    + done.
  - destruct (from (tail_ t) tail_pos) as [|tc cells] eqn:Ef; [done|].
    apply from_cons_inv in Ef as [Hget Hfrom]. rewrite Hget. simpl in *.
    case_bool_decide as Hz.
    { injection Hs as <-. rewrite orb_true_r. eexists. split.
      - rewrite bool_decide_eq_false_2; [done|]. apply prefix_nil_not.
      - by intros ?%prefix_nil_not. }
    rewrite extract_text_acc in Hs. apply bind_Ok in Hs as (s' & Hs' & [= <-]).
    rewrite orb_false_r. case_bool_decide as Hc.
    { eexists. split; [|by intros ?%prefix_cons_inv_1].
      rewrite bool_decide_eq_false_2; [done|]. by intros ?%prefix_cons_inv_1. }
    subst tc. rewrite <-Hfrom in Hs'.
    destruct (IH (N.succ tail_pos) (set_buf (buf_ it ++ [c]) it) s' Hs')
      as (it' & -> & Hit').
    exists it'. split.
    + f_equal. f_equal. apply bool_decide_ext. split.
      * apply prefix_cons.
      * apply prefix_cons_inv_2.
    + intros H%prefix_cons_inv_2. destruct (Hit' H) as [-> ->].
      simpl. by rewrite <-app_assoc.
Qed.

(** *** The first phase *)

Lemma predictive_descend_spec input id0 rest buf node :
  walk t 0 buf node →
  ∃ f, predictive_descend t rest (length buf) node (scanning t input [] buf id0)
       = Ok f ∧
    match f with
    | Continue it' =>
        ∃ m c, walk t 0 (buf ++ rest) m
               ∧ popped (length (buf ++ rest)) c (buf ++ rest) = buf ++ rest
               ∧ it' = scanning t input [Frame (length (buf ++ rest)) c m]
                         (buf ++ rest) id0
    | Return b it' =>
        end_flag_ it' = true ∧ trie_ it' = Some t
        ∧ ∀ k id, registered t k id ∧ (buf ++ rest) `prefix_of` k ↔
                  b = true ∧ k = key it' ∧ id = PredictiveIterator.id it'
    end.
Proof.
  revert buf node; induction rest as [|c rest IH]; intros buf node Hw.
  - rewrite app_nil_r. simpl. eexists. split; [done|]. simpl.
    destruct (last buf) as [b|] eqn:El.
    + exists node, b. split; [done|]. split; [|done].
      apply last_Some in El as [q ->]. rewrite length_app, Nat.add_1_r.
      apply popped_child. by apply prefix_app_r.
    + exists node, x00. split; [done|]. split; [|done].
      apply last_None in El as ->. done.
  - cbn [predictive_descend].
    assert (used t node = true) as Hu by (eapply walk_used; eauto using used_root).
    pose proof (used_lt t HWF node Hu) as Hlt.
    destruct (node_reads t node Hlt) as (b & _ & l & lk & Hb & _ & Hl & Hlk).
    rewrite Hl. cbn [bind]. destruct l.
    + destruct (to_key_id_total t HWF node Hlt) as [id Hid].
      destruct (leaf_suffix t HWF node lk Hu Hl Hlk) as (s & Hex & H0 & _).
      pose proof (λ k id', leaf_keys buf node lk s id k id' Hw Hl Hlk Hid Hex) as Hkeys.
      rewrite Hlk. cbn [bind]. destruct (N.eqb_spec lk 0) as [->|Hlk0].
      * eexists. split; [done|]. simpl. split; [done|]. split; [done|].
        assert (s = []) as -> by (by apply H0).
        intros k id'. split; [|by intros [? _]].
        intros [Hr Hp]. destruct (Hkeys k id') as [[-> _] _].
        { split; [done|]. by eapply prefix_app_l. }
        apply prefix_length in Hp. rewrite app_nil_r, length_app in Hp.
        simpl in Hp. lia.
      * assert (∃ it', (if bin_mode_ t
                        then predictive_match_bin t (c :: rest) node lk
                               (set_end_flag true (scanning t input [] buf id0))
                        else predictive_match_text t (c :: rest) node lk
                               (set_end_flag true (scanning t input [] buf id0)))
                       = Ok (bool_decide ((c :: rest) `prefix_of` s), it')
                       ∧ end_flag_ it' = true ∧ trie_ it' = Some t
                       ∧ ((c :: rest) `prefix_of` s →
                          buf_ it' = buf ++ s ∧ id_ it' = id))
          as (it' & -> & He & Ht & Hit').
        { pose proof (Hex []) as Hs. rewrite app_nil_l in Hs.
          unfold extract_suffix_ in Hs. destruct (bin_mode_ t) eqn:Ebin.
          - destruct (N.eqb_spec lk 0); [done|]. simpl in Hs.
            destruct (predictive_match_bin_spec node id (c :: rest) lk
                        (set_end_flag true (scanning t input [] buf id0)) s
                        Ebin Hid Hlk0 Hs) as (it' & Hm & Hit').
            exists it'. split; [done|].
            apply predictive_match_bin_flags in Hm as [-> ->]. done.
          - destruct (predictive_match_text_spec node id (c :: rest) lk
                        (set_end_flag true (scanning t input [] buf id0)) s
                        Ebin Hid Hs) as (it' & Hm & Hit').
            exists it'. split; [done|].
            apply predictive_match_text_flags in Hm as [-> ->]. done. }
        cbn [bind fst snd]. eexists. split; [done|]. simpl.
        split; [done|]. split; [done|]. intros k id'.
        case_bool_decide as Hp.
        -- destruct (Hit' Hp) as [Hbuf Hid']. unfold key, PredictiveIterator.id.
           rewrite Hbuf, Hid'. split.
           ++ intros [Hr Hpk]. split; [done|]. apply Hkeys.
              split; [done|]. by eapply prefix_app_l.
           ++ intros (_ & -> & ->). split.
              ** by apply Hkeys.
              ** by apply prefix_app.
        -- split; [|by intros [? _]]. intros [Hr Hpk].
           destruct (Hkeys k id') as [[-> _] _].
           { split; [done|]. by eapply prefix_app_l. }
           by apply prefix_app_inv in Hpk.
    + rewrite Hb. simpl.
      pose proof (wf_block t HWF node b (code_ t c) Hu Hl Hb (code_lt t c)) as Hc.
      destruct (node_reads t _ Hc) as (_ & ck & _ & _ & _ & Hck & _ & _).
      rewrite Hck. simpl. case_bool_decide as Hne.
      * eexists. split; [done|]. simpl. split; [done|]. split; [done|].
        intros k id'. split; [|by intros [? _]]. intros [Hr Hp].
        assert (below t node buf k id') as (bs & n' & Hw' & Hk).
        { apply prefix_keys; [done|]. split; [done|]. by eapply prefix_app_l. }
        apply key_at_prefix in Hk as Hpk. destruct bs as [|a bs].
        -- inversion Hw'; subst. destruct Hk as (_ & _ & l & Hl' & Hk).
           assert (l = false) as -> by congruence. subst k.
           apply prefix_length in Hp. rewrite app_nil_r, length_app in Hp.
           simpl in Hp. lia.
        -- inversion Hw' as [|? ? c' ? ? Hch _]; subst.
           destruct (prefix_weak_total _ _ _ Hp Hpk) as [H|H];
             apply prefix_app_inv, prefix_cons_inv_1 in H; subst;
             destruct Hch as (_ & b' & Hb' & -> & Hck');
             assert (b' = b) as -> by congruence; congruence.
      * assert (ck = node) as -> by (by destruct (decide (ck = node))).
        assert (child t node c (N.lxor b (code_ t c))) as Hch.
        { split; [done|]. by exists b. }
        pose proof (walk_snoc t _ _ _ _ _ Hw Hch) as Hw'.
        destruct (IH _ _ Hw') as (f & Hf & Hspec).
        rewrite length_app, Nat.add_1_r in Hf. exists f. split; [exact Hf|].
        by rewrite <-app_assoc in Hspec.
Qed.

End PredictiveCorrect.

Lemma StronglySorted_lex_NoDup (l : list (list byte)) :
  StronglySorted lex_lt l → NoDup l.
Proof.
  induction 1 as [|k l _ IH Hall]; constructor; [|done].
  intros Hin. rewrite Forall_forall in Hall. by apply (lex_lt_irrefl k), Hall.
Qed.

Section PredictiveDrains.

Variable t : Trie.
Hypothesis HWF : WF t.

(** With calls and fuel enough, the predictive cursor made from [p] reports
    the registered keys that start with [p], in ascending order. *)
Lemma predictive_drains p :
  ∃ hits, drains (created t p) hits
          ∧ (∀ k id, (k, id) ∈ hits ↔ registered t k id ∧ p `prefix_of` k)
          ∧ StronglySorted lex_lt (hits.*1).
Proof.
  destruct (predictive_descend_spec t HWF p 0 p [] 0 (walk_nil t 0))
    as (f & Hf & Hspec). simpl in Hf, Hspec.
  assert (∀ fuel, predictive_next fuel (created t p)
                  = match f with
                    | Return b it' => Ok (b, it')
                    | Continue it' => predictive_loop t fuel it'
                    end) as Hnext.
  { intros fuel. unfold predictive_next, next_predictive_. simpl.
    change (PredictiveIterator.set_begin_flag false (created t p))
      with (scanning t p [] [] 0).
    by rewrite Hf. }
  destruct f as [b it'|it'].
  - destruct Hspec as (He & Ht & Hkeys).
    assert (drains it' []) as Hend.
    { apply (drains_end 0 it' it'). unfold predictive_next, next_predictive_.
      by rewrite Ht, He. }
    destruct b.
    + exists [(PredictiveIterator.key it', PredictiveIterator.id it')].
      split; [|split].
      * eapply (drains_hit 0); [apply Hnext|done].
      * intros k id. rewrite list_elem_of_singleton, Hkeys. split.
        -- by intros [= -> ->].
        -- by intros (_ & -> & ->).
      * repeat constructor.
    + exists []. split; [|split].
      * eapply (drains_end 0). apply Hnext.
      * intros k id. rewrite Hkeys. split; [by intros ?%elem_of_nil|by intros [? _]].
      * constructor.
  - destruct Hspec as (m & c & Hw & Hpop & ->).
    destruct (subtree_spec t HWF (S (length (bc_ t))) m p Hw) as (L & Hsub & Hmem & Hs);
      [lia|].
    exists L. split; [|split; [|done]].
    + eapply (drains_like _ (scanning t p [PredictiveIterator.Frame (length p) c m] p 0)).
      * intros fuel r Hr. exists fuel. by rewrite Hnext.
      * rewrite <-(app_nil_r L).
        apply (subtree_drains t p _ m p L Hsub c [] p 0 [] Hpop).
        intros buf id _. apply (drains_end 0 _ _ (scan_nil t 0 p buf id)).
    + intros k id. rewrite Hmem. by apply prefix_keys.
Qed.

End PredictiveDrains.

(** C2. For a well-formed dictionary and any input [p], the predictive
    cursor is made from [p] without a fault; draining it ends, whenever
    calls and fuel are enough, and gives exactly the registered keys that
    start with [p], each with its id, each once, in strictly ascending
    lexicographic order of bytes (so a key comes before the keys it is a
    proper prefix of). *)
Theorem predictive_iterator_complete_sorted (t : Trie) (p : list byte) :
  well_formed t = true →
  ∃ it hits,
    make_predictive_iterator t p = Ok it
    ∧ (∃ n, ∀ calls fuel, (n ≤ calls)%nat → (n ≤ fuel)%nat →
         predictive_hits calls fuel it = Ok hits)
    ∧ (∀ k id, (k, id) ∈ hits ↔ registered t k id ∧ p `prefix_of` k)
    ∧ NoDup (hits.*1)
    ∧ StronglySorted lex_lt (hits.*1).
Proof.
  intros HWF%well_formed_WF.
  destruct (predictive_drains t HWF p) as (hits & Hd & Hm & Hs).
  exists (created t p), hits.
  split; [by apply make_predictive_iterator_Ok|].
  eauto using StronglySorted_lex_NoDup.
Qed.

Lemma predictive_iterator_complete_sorted_witness :
  well_formed Examples.text_trie = true
  ∧ ∃ it hits,
      make_predictive_iterator Examples.text_trie (Examples.str "an") = Ok it
      ∧ (∃ n, ∀ calls fuel, (n ≤ calls)%nat → (n ≤ fuel)%nat →
           predictive_hits calls fuel it = Ok hits)
      ∧ (∀ k id, (k, id) ∈ hits ↔
           registered Examples.text_trie k id ∧ Examples.str "an" `prefix_of` k)
      ∧ NoDup (hits.*1)
      ∧ StronglySorted lex_lt (hits.*1).
Proof.
  assert (well_formed Examples.text_trie = true) as Hwf by (vm_compute; reflexivity).
  split; [exact Hwf|].
  exact (predictive_iterator_complete_sorted Examples.text_trie (Examples.str "an") Hwf).
Defined.

(** * Further properties of the engine *)

(** ** A successful match is a match against the stored suffix *)

Section MatchExtract.

Variable t : Trie.

Lemma match_bin_extract rest tail_pos :
  match_bin t rest tail_pos = Ok true →
  extract_bin t (from (tail_ t) tail_pos) tail_pos [] = Ok rest.
Proof.
  revert tail_pos; induction rest as [|c rest IH]; intros tail_pos H; simpl in H;
    [done|].
  apply bind_Ok in H as (tc & Ht & H). apply read_Ok in Ht.
  case_bool_decide as Hc; [done|]. subst tc.
  apply bind_Ok in H as (bf & Hb & H).
  rewrite (get_from _ _ _ Ht). simpl. rewrite Hb. simpl. destruct bf.
  - injection H as H. apply bool_decide_eq_true in H. by subst rest.
  - rewrite extract_bin_acc, (IH _ H). done.
Qed.

Lemma match_text_extract rest tail_pos :
  match_text t rest tail_pos = Ok true →
  extract_text (from (tail_ t) tail_pos) [] = Ok rest.
Proof.
  revert tail_pos; induction rest as [|c rest IH]; intros tail_pos H; simpl in H.
  - apply bind_Ok in H as (tc & Ht & H). apply read_Ok in Ht.
    injection H as H. apply bool_decide_eq_true in H. subst tc.
    rewrite (get_from _ _ _ Ht). simpl. done.
  - apply bind_Ok in H as (tc & Ht & H). apply read_Ok in Ht.
    case_bool_decide as Hz; [done|]. case_bool_decide as Hc; [done|]. subst tc.
    simpl in H. rewrite (get_from _ _ _ Ht). simpl.
    rewrite bool_decide_eq_false_2 by done.
    rewrite extract_text_acc, (IH _ H). done.
Qed.

Lemma match_suffix_extract rest tail_pos dec :
  rest ≠ [] → (bin_mode_ t = true → tail_pos ≠ 0) →
  match_suffix_ t rest tail_pos = Ok true →
  extract_suffix_ t tail_pos dec = Ok (dec ++ rest).
Proof.
  intros Hne Hbin H. rewrite extract_suffix_acc.
  unfold match_suffix_, extract_suffix_ in *. destruct rest as [|c rest]; [done|].
  destruct (bin_mode_ t).
  - destruct (N.eqb_spec tail_pos 0) as [->|_]; [by destruct Hbin|]. simpl.
    by rewrite (match_bin_extract _ _ H).
  - by rewrite (match_text_extract _ _ H).
Qed.

End MatchExtract.

(** X1. Whenever [match_suffix_] accepts input that is not empty, at a tail
    position that in binary mode is not 0, the accepted bytes are the
    suffix stored there: [extract_suffix_] at the same position appends
    exactly these bytes. *)
Theorem match_then_extract (t : Trie) (rest : list byte) (tail_pos : N)
  (dec : list byte) :
  rest ≠ [] →
  (bin_mode_ t = true → tail_pos ≠ 0) →
  match_suffix_ t rest tail_pos = Ok true →
  extract_suffix_ t tail_pos dec = Ok (dec ++ rest).
Proof. apply match_suffix_extract. Qed.

Lemma match_then_extract_witness :
  Examples.str "ird" ≠ []
  ∧ (bin_mode_ Examples.text_trie = true → 1 ≠ 0)
  ∧ match_suffix_ Examples.text_trie (Examples.str "ird") 1 = Ok true
  ∧ extract_suffix_ Examples.text_trie 1 (Examples.str "b")
    = Ok (Examples.str "b" ++ Examples.str "ird").
Proof.
  assert (Examples.str "ird" ≠ []) as H1 by discriminate.
  assert (bin_mode_ Examples.text_trie = true → 1 ≠ 0) as H2 by (intros _; discriminate).
  assert (match_suffix_ Examples.text_trie (Examples.str "ird") 1 = Ok true) as H3
    by (vm_compute; reflexivity).
  split; [exact H1|]. split; [exact H2|]. split; [exact H3|].
  exact (match_then_extract Examples.text_trie (Examples.str "ird") 1
           (Examples.str "b") H1 H2 H3).
Defined.

(** ** What lookup returns *)

Section LookupSound.

Variable t : Trie.
Hypothesis HWF : WF t.

Lemma lookup_from_sound rest bs n id :
  walk t 0 bs n → lookup_from t rest n = Ok id → id ≠ NOT_FOUND →
  ∃ k, registered t k id ∧ k `prefix_of` (bs ++ rest)
       ∧ (bin_mode_ t = false → k = bs ++ rest).
Proof.
  revert bs n; induction rest as [|c rest IH]; intros bs n Hw H Hid;
    assert (used t n = true) as Hu by (eapply walk_used; eauto using used_root).
  - simpl in H. apply bind_Ok in H as (leaf & Hl & H). destruct leaf.
    + apply bind_Ok in H as (lk & Hlk & H).
      destruct (N.eqb_spec lk 0) as [->|]; simpl in H; [|congruence].
      destruct (leaf_suffix t HWF n 0 Hu Hl Hlk) as (s & Hex & H0 & _).
      assert (s = []) as -> by (by apply H0).
      exists bs. rewrite app_nil_r. split; [|done].
      eapply (key_at_registered t HWF); [done|].
      split; [by apply (wf_leaf_terminal t HWF)|]. split; [done|].
      exists true. split; [done|]. exists 0. split; [done|].
      by rewrite Hex, app_nil_r.
    + apply bind_Ok in H as (tf & Htf & H). destruct tf; [|congruence].
      exists bs. rewrite app_nil_r. split; [|done].
      eapply (key_at_registered t HWF); [done|].
      split; [done|]. split; [done|]. by exists false.
  - simpl in H. apply bind_Ok in H as (leaf & Hl & H). destruct leaf.
    + apply bind_Ok in H as (lk & Hlk & H). apply bind_Ok in H as (m & Hm & H).
      destruct m; simpl in H; [|congruence].
      destruct (leaf_suffix t HWF n lk Hu Hl Hlk) as (s & Hex & H0 & _).
      assert (registered t (bs ++ s) id) as Hreg.
      { eapply (key_at_registered t HWF); [done|].
        split; [by apply (wf_leaf_terminal t HWF)|]. split; [done|].
        exists true. split; [done|]. exists lk. split; [done|]. by rewrite Hex. }
      destruct (N.eqb_spec lk 0) as [->|Hlk0].
      * assert (s = []) as -> by (by apply H0).
        exists (bs ++ []). split; [done|]. rewrite app_nil_r.
        split; [by apply prefix_app_r|].
        intros Hbin. unfold match_suffix_ in Hm. rewrite Hbin in Hm. simpl in Hm.
        rewrite (wf_tail0 t HWF Hbin) in Hm. simpl in Hm. done.
      * pose proof (match_suffix_extract t (c :: rest) lk [] ltac:(done)
                      (fun _ => Hlk0) Hm) as He.
        rewrite Hex in He. injection He as ->.
        exists (bs ++ c :: rest). done.
    + apply bind_Ok in H as (b & Hb & H). apply bind_Ok in H as (ck & Hck & H).
      case_bool_decide as Hne; [congruence|].
      assert (ck = n) as -> by (by destruct (decide (ck = n))).
      assert (child t n c (N.lxor b (code_ t c))) as Hch.
      { split; [done|]. by exists b. }
      destruct (IH _ _ (walk_snoc t _ _ _ _ _ Hw Hch) H Hid) as (k & Hk).
      exists k. by rewrite <-app_assoc in Hk.
Qed.

Lemma match_text_total cells tail_pos s rest :
  from (tail_ t) tail_pos = cells → extract_text cells [] = Ok s →
  ∃ b, match_text t rest tail_pos = Ok b.
Proof.
  revert tail_pos s rest; induction cells as [|tc cells IH];
    intros tail_pos s rest Hf He; simpl in He; [done|].
  apply from_cons_inv in Hf as [Hget Hfrom].
  destruct rest as [|c rest]; simpl; rewrite Hget; simpl; [eauto|].
  case_bool_decide as Hz; simpl; [eauto|].
  case_bool_decide as Hc; [eauto|].
  rewrite extract_text_acc in He. apply bind_Ok in He as (s' & He & _).
  eapply IH; eauto.
Qed.

Lemma lookup_from_total rest bs n :
  bin_mode_ t = false → walk t 0 bs n → ∃ id, lookup_from t rest n = Ok id.
Proof.
  intros Hbin. revert bs n; induction rest as [|c rest IH]; intros bs n Hw;
    assert (used t n = true) as Hu by (eapply walk_used; eauto using used_root);
    pose proof (used_lt t HWF n Hu) as Hlt;
    destruct (node_reads t n Hlt) as (b & _ & l & lk & Hb & _ & Hl & Hlk);
    destruct (to_key_id_total t HWF n Hlt) as [id Hid];
    destruct (terminal_total t HWF n Hlt) as [tf Htf];
    cbn [lookup_from]; rewrite Hl; cbn [bind]; destruct l.
  - rewrite Hlk. simpl. destruct (negb (lk =? 0)); eauto.
  - rewrite Htf. simpl. destruct tf; eauto.
  - rewrite Hlk. cbn [bind]. unfold match_suffix_. rewrite Hbin.
    destruct (leaf_suffix t HWF n lk Hu Hl Hlk) as (s & Hex & _).
    specialize (Hex []). unfold extract_suffix_ in Hex. rewrite Hbin in Hex.
    destruct (match_text_total _ lk s (c :: rest) eq_refl Hex) as [m ->].
    simpl. destruct (negb m); eauto.
  - rewrite Hb. simpl.
    pose proof (wf_block t HWF n b (code_ t c) Hu Hl Hb (code_lt t c)) as Hc.
    destruct (node_reads t _ Hc) as (_ & ck & _ & _ & _ & Hck & _ & _).
    rewrite Hck. simpl. case_bool_decide as Hne; [eauto|].
    assert (ck = n) as -> by (by destruct (decide (ck = n))).
    eapply (IH (bs ++ [c])). eapply walk_snoc; [done|].
    split; [done|]. by exists b.
Qed.

Lemma registered_lookup k id : registered t k id → lookup t k = Ok id.
Proof.
  intros (n & bs & Hw & Hk)%(registered_key_at t HWF).
  by eapply (lookup_key_at t HWF).
Qed.

Lemma count_ones_le bs : count_ones bs <= size_N bs.
Proof.
  induction bs as [|b bs IH]; [done|]. rewrite count_ones_cons.
  unfold size_N in *. simpl. destruct b; lia.
Qed.

Lemma num_keys_le_max : num_keys t <= NOT_FOUND.
Proof.
  unfold num_keys. rewrite (wf_num_keys t HWF).
  pose proof (count_ones_le (terminal_flags_ t)).
  rewrite (wf_flags t HWF) in *. pose proof (wf_nodes_max t HWF).
  unfold NOT_FOUND. lia.
Qed.

End LookupSound.

(** X2. In a well-formed dictionary an id that [lookup] returns, other than
    [NOT_FOUND], is the id of a registered key, and that key is a prefix of
    the input; in text mode it is the input itself. *)
Theorem lookup_sound (t : Trie) (key : list byte) (id : id_type) :
  well_formed t = true →
  lookup t key = Ok id →
  id ≠ NOT_FOUND →
  ∃ k, id < num_keys t ∧ access t id = Ok k ∧ k `prefix_of` key
       ∧ (bin_mode_ t = false → k = key).
Proof.
  intros HWF%well_formed_WF H Hid.
  destruct (lookup_from_sound t HWF key [] 0 id (walk_nil t 0) H Hid)
    as (k & [Hlt Hacc] & Hp & Hk).
  exists k. done.
Qed.

Lemma lookup_sound_witness :
  well_formed Examples.text_trie = true
  ∧ lookup Examples.text_trie (Examples.str "bird") = Ok 4
  ∧ 4 ≠ NOT_FOUND
  ∧ ∃ k, 4 < num_keys Examples.text_trie ∧ access Examples.text_trie 4 = Ok k
         ∧ k `prefix_of` Examples.str "bird"
         ∧ (bin_mode_ Examples.text_trie = false → k = Examples.str "bird").
Proof.
  assert (well_formed Examples.text_trie = true) as H1 by (vm_compute; reflexivity).
  assert (lookup Examples.text_trie (Examples.str "bird") = Ok 4) as H2
    by (vm_compute; reflexivity).
  assert (4 ≠ NOT_FOUND) as H3 by discriminate.
  split; [exact H1|]. split; [exact H2|]. split; [exact H3|].
  exact (lookup_sound Examples.text_trie (Examples.str "bird") 4 H1 H2 H3).
Defined.

(** X3. In a well-formed text-mode dictionary [lookup] reads nothing out
    of bounds on any input and decides membership: it returns the id of a
    registered key and [NOT_FOUND] for every other string. *)
Theorem lookup_text_mode_decides (t : Trie) (key : list byte) :
  well_formed t = true →
  bin_mode_ t = false →
  (∃ id, lookup t key = Ok id)
  ∧ (∀ id, registered t key id → lookup t key = Ok id)
  ∧ ((¬ ∃ id, registered t key id) → lookup t key = Ok NOT_FOUND).
Proof.
  intros HWF%well_formed_WF Hbin.
  destruct (lookup_from_total t HWF key [] 0 Hbin (walk_nil t 0)) as [id Hid].
  split; [by exists id|]. split; [intros id'; by apply registered_lookup|].
  intros Hno. destruct (N.eq_dec id NOT_FOUND) as [->|Hne]; [done|].
  destruct (lookup_from_sound t HWF key [] 0 id (walk_nil t 0) Hid Hne)
    as (k & Hreg & _ & Hk).
  destruct Hno. exists id. specialize (Hk Hbin). simpl in Hk. by subst k.
Qed.

Lemma lookup_text_mode_decides_witness :
  well_formed Examples.text_trie = true
  ∧ bin_mode_ Examples.text_trie = false
  ∧ (∃ id, lookup Examples.text_trie (Examples.str "birds") = Ok id)
  ∧ (∀ id, registered Examples.text_trie (Examples.str "birds") id →
           lookup Examples.text_trie (Examples.str "birds") = Ok id)
  ∧ ((¬ ∃ id, registered Examples.text_trie (Examples.str "birds") id) →
     lookup Examples.text_trie (Examples.str "birds") = Ok NOT_FOUND).
Proof.
  assert (well_formed Examples.text_trie = true) as H1 by (vm_compute; reflexivity).
  assert (bin_mode_ Examples.text_trie = false) as H2 by reflexivity.
  split; [exact H1|]. split; [exact H2|].
  exact (lookup_text_mode_decides Examples.text_trie (Examples.str "birds") H1 H2).
Defined.

(** X4. In a well-formed dictionary [NOT_FOUND] is not the id of any key:
    [num_keys] does not exceed it, so a registered id is never mistaken
    for a miss. *)
Theorem not_found_is_no_id (t : Trie) :
  well_formed t = true →
  num_keys t <= NOT_FOUND
  ∧ ∀ k id, registered t k id → lookup t k = Ok id ∧ id ≠ NOT_FOUND.
Proof.
  intros HWF%well_formed_WF. pose proof (num_keys_le_max t HWF) as Hle.
  split; [done|]. intros k id Hreg. split; [by apply registered_lookup|].
  destruct Hreg as [Hlt _]. lia.
Qed.

Lemma not_found_is_no_id_witness :
  well_formed Examples.bin_trie = true
  ∧ num_keys Examples.bin_trie <= NOT_FOUND
  ∧ ∀ k id, registered Examples.bin_trie k id →
            lookup Examples.bin_trie k = Ok id ∧ id ≠ NOT_FOUND.
Proof.
  assert (well_formed Examples.bin_trie = true) as H1 by (vm_compute; reflexivity).
  split; [exact H1|]. exact (not_found_is_no_id Examples.bin_trie H1).
Defined.

(** ** What access returns *)

(** X5. In a well-formed dictionary [access] returns a string for every id:
    [reserve(max_length_)] goes through, the climb to the root ends within
    [num_nodes] steps and no read leaves its array. *)
Theorem access_never_faults (t : Trie) (id : id_type) :
  well_formed t = true → ∃ k, access t id = Ok k.
Proof.
  intros HWF%well_formed_WF. destruct (N.lt_ge_cases id (num_keys t)) as [H|H].
  - destruct (access_key_at t HWF id H) as (_ & _ & k & _ & _ & _ & Hk). eauto.
  - exists []. unfold access, access_fuel, num_keys in *.
    destruct (N.leb_spec (num_keys_ t) id); [done|lia].
Qed.

Lemma access_never_faults_witness :
  well_formed Examples.bin_trie = true
  ∧ ∃ k, access Examples.bin_trie 1 = Ok k.
Proof.
  assert (well_formed Examples.bin_trie = true) as H1 by (vm_compute; reflexivity).
  split; [exact H1|]. exact (access_never_faults Examples.bin_trie 1 H1).
Defined.

(** X6. In a well-formed dictionary two different ids below [num_keys]
    decode to different keys. *)
Theorem access_injective (t : Trie) (id1 id2 : id_type) (k : list byte) :
  well_formed t = true →
  id1 < num_keys t → id2 < num_keys t →
  access t id1 = Ok k → access t id2 = Ok k →
  id1 = id2.
Proof.
  intros HWF%well_formed_WF H1 H2 Ha1 Ha2.
  pose proof (registered_lookup t HWF k id1 (conj H1 Ha1)) as L1.
  pose proof (registered_lookup t HWF k id2 (conj H2 Ha2)) as L2.
  congruence.
Qed.

Lemma access_injective_witness :
  well_formed Examples.text_trie = true
  ∧ 2 < num_keys Examples.text_trie
  ∧ access Examples.text_trie 2 = Ok (Examples.str "and")
  ∧ 2 = 2.
Proof.
  assert (well_formed Examples.text_trie = true) as H1 by (vm_compute; reflexivity).
  assert (2 < num_keys Examples.text_trie) as H2 by reflexivity.
  assert (access Examples.text_trie 2 = Ok (Examples.str "and")) as H3
    by (vm_compute; reflexivity).
  split; [exact H1|]. split; [exact H2|]. split; [exact H3|].
  exact (access_injective Examples.text_trie 2 2 (Examples.str "and") H1 H2 H2 H3 H3).
Defined.

(** ** What the prefix cursor reports *)

Section PrefixSteps.

Import PrefixIterator.
Variable t : Trie.

Lemma prefix_hits_S calls it :
  prefix_hits (S calls) it =
  let* r := prefix_next it in
  if fst r then
    let* hits := prefix_hits calls (snd r) in
    Ok ((key (snd r), PrefixIterator.id (snd r)) :: hits)
  else Ok [].
Proof. done. Qed.

Lemma prefix_next_walking input pos node id :
  prefix_next (walking t input pos node id)
  = prefix_loop t (drop pos input) (walking t input pos node id).
Proof. done. Qed.

Lemma prefix_loop_step input pos node id rest :
  prefix_loop t rest (walking t input pos node id) =
  let* leaf := is_leaf t node in
  if leaf then prefix_finish t (walking t input pos node id)
  else
    match rest with
    | [] => Err KeyBounds
    | c :: rest' =>
        let* b := base t node in
        let* ck := check t (N.lxor b (code_ t c)) in
        if bool_decide (ck ≠ node)
        then Ok (false, Mk (Some t) input (S pos) node NOT_FOUND false true)
        else
          let* leaf' := is_leaf t (N.lxor b (code_ t c)) in
          let* hit := (if negb leaf' then terminal t (N.lxor b (code_ t c))
                       else Ok false) in
          if hit then
            let* id' := to_key_id_ t (N.lxor b (code_ t c)) in
            Ok (true, walking t input (S pos) (N.lxor b (code_ t c)) id')
          else prefix_loop t rest' (walking t input (S pos) (N.lxor b (code_ t c)) id)
    end.
Proof. by destruct rest. Qed.

Lemma prefix_finish_walking input pos node id :
  (pos ≤ length input)%nat →
  prefix_finish t (walking t input pos node id) =
  let* tail_pos := link t node in
  let* m := match_suffix_ t (drop pos input) tail_pos in
  if negb m then Ok (false, Mk (Some t) input pos node NOT_FOUND false true)
  else
    let* id' := to_key_id_ t node in
    Ok (true, Mk (Some t) input (length input) node id' false true).
Proof.
  intros H. unfold prefix_finish. simpl.
  destruct (Nat.ltb_spec (length input) pos); [lia|done].
Qed.

Lemma prefix_hits_exhausted calls input pos node id :
  prefix_hits (S calls) (Mk (Some t) input pos node id false true) = Ok [].
Proof. done. Qed.

Lemma prefix_hits_after_last calls input pos node id hits :
  prefix_hits calls (Mk (Some t) input pos node id false true) = Ok hits →
  hits = [].
Proof. destruct calls; [done|]. rewrite prefix_hits_exhausted. congruence. Qed.

(** The byte the cursor reads next, and the states before and after. *)
Lemma drop_cons_inv (input : list byte) pos c rest :
  drop pos input = c :: rest →
  input !! pos = Some c ∧ drop (S pos) input = rest
  ∧ take (S pos) input = take pos input ++ [c] ∧ (S pos ≤ length input)%nat.
Proof.
  intros H.
  assert (input !! pos = Some c) as Hc.
  { rewrite <-(Nat.add_0_r pos), <-lookup_drop, H. done. }
  split; [done|]. rewrite (drop_S _ _ _ Hc) in H. split; [congruence|].
  split; [by apply take_S_r|]. apply lookup_lt_Some in Hc. lia.
Qed.

(** A prefix of the input longer than [pos] goes on with the next byte. *)
Lemma prefix_take_split (k input : list byte) pos :
  k `prefix_of` input → (pos ≤ length k)%nat →
  k = take pos input ++ drop pos k ∧ drop pos k `prefix_of` drop pos input.
Proof.
  intros [z ->] Hp. rewrite take_app_le, drop_app_le by done.
  rewrite take_drop. split; [done|]. by apply prefix_app_r.
Qed.

End PrefixSteps.

Section PrefixSound.

Import PrefixIterator.
Variable t : Trie.
Hypothesis HWF : WF t.




(** On a leaf the cursor makes its last report: nothing, or the whole input. *)
Lemma prefix_leaf_hits input pos node id calls hits :
  (pos ≤ length input)%nat → is_leaf t node = Ok true →
  prefix_hits calls (walking t input pos node id) = Ok hits →
  ∃ tail_pos m, link t node = Ok tail_pos
    ∧ match_suffix_ t (drop pos input) tail_pos = Ok m
    ∧ if m then ∃ id', to_key_id_ t node = Ok id' ∧ hits = [(input, id')]
      else hits = [].
Proof.
  intros Hp Hl H. destruct calls as [|calls]; [done|].
  rewrite prefix_hits_S, prefix_next_walking, prefix_loop_step, Hl in H.
  cbn [bind] in H. rewrite prefix_finish_walking in H by done.
  apply bind_Ok in H as ([b' it'] & Hr & H).
  apply bind_Ok in Hr as (lk & Hlk & Hr). apply bind_Ok in Hr as (m & Hm & Hr).
  exists lk, m. split; [done|]. split; [done|]. destruct m; simpl in Hr.
  - apply bind_Ok in Hr as (id' & Hid & [= <- <-]). simpl in H.
    apply bind_Ok in H as (hs & Hhs & [= <-]).
    apply prefix_hits_after_last in Hhs as ->.
    exists id'. split; [done|]. unfold key. simpl. by rewrite take_ge.
  - injection Hr as <- <-. simpl in H. by injection H as <-.
Qed.


End PrefixSound.

Section PrefixBegin.

Import PrefixIterator.
Variable t : Trie.

Lemma prefix_next_begin input :
  prefix_next (make_prefix_iterator t input) =
  let* tf := terminal t 0 in
  if tf then
    let* id := to_key_id_ t 0 in
    Ok (true, walking t input 0 0 id)
  else prefix_next (walking t input 0 0 0).
Proof. done. Qed.

(** The hits of a cursor are the report of the first call, if the root is
    terminal, followed by the hits of the walk. *)
Lemma prefix_hits_begin input calls hits :
  prefix_hits calls (make_prefix_iterator t input) = Ok hits →
  ∃ tf id hs,
    terminal t 0 = Ok tf
    ∧ prefix_hits (if tf then pred calls else calls) (walking t input 0 0 id) = Ok hs
    ∧ hits = (if tf then ([], id) :: hs else hs)
    ∧ (tf = true → to_key_id_ t 0 = Ok id).
Proof.
  intros H. destruct calls as [|calls]; [done|].
  rewrite prefix_hits_S, prefix_next_begin in H.
  apply bind_Ok in H as ([b it'] & Hr & H).
  apply bind_Ok in Hr as (tf & Htf & Hr). destruct tf.
  - apply bind_Ok in Hr as (id & Hid & [= <- <-]). simpl in H.
    apply bind_Ok in H as (hs & Hhs & [= <-]).
    exists true, id, hs. done.
  - exists false, 0, hits. split; [done|]. split; [|done].
    rewrite prefix_hits_S, Hr. exact H.
Qed.

End PrefixBegin.



Section PrefixComplete.

Import PrefixIterator.
Variable t : Trie.
Hypothesis HWF : WF t.

(** A path that is a prefix of the input and longer than what the cursor has
    read passes through the child the cursor moves to. *)
Lemma walk_through input pos node c rest k n b :
  drop pos input = c :: rest → walk t 0 (take pos input) node →
  base t node = Ok b → walk t 0 k n → k `prefix_of` input → (pos < length k)%nat →
  check t (N.lxor b (code_ t c)) = Ok node
  ∧ ∃ xs, k = take (S pos) input ++ xs ∧ walk t (N.lxor b (code_ t c)) xs n.
Proof.
  intros Hd Hw Hb Hk Hp Hlen.
  destruct (drop_cons_inv _ _ _ _ Hd) as (_ & _ & Htake & _).
  destruct (prefix_take_split k input pos Hp ltac:(lia)) as [Heq Hpre].
  rewrite Hd in Hpre. destruct (drop pos k) as [|y xs] eqn:Ek.
  { apply (f_equal length) in Ek. rewrite length_drop in Ek. simpl in Ek. lia. }
  apply prefix_cons_inv_1 in Hpre as Hy. subst y.
  rewrite Heq in Hk. apply walk_app_inv in Hk as (m & Hm & Hk).
  rewrite <-(walk_det t _ _ _ _ Hw Hm) in Hk.
  inversion Hk as [|? ? ch ? ? (_ & b' & Hb' & Hch & Hck) Hk' E1 E2 E3].
  assert (b' = b) as -> by congruence. rewrite Hch in Hck, Hk'.
  split; [done|].
  exists xs. split; [|done]. by rewrite Heq at 1; rewrite Htake, <-app_assoc.
Qed.

Lemma prefix_walk_complete rest input pos node id calls hits :
  drop pos input = rest → (pos ≤ length input)%nat →
  walk t 0 (take pos input) node →
  prefix_hits calls (walking t input pos node id) = Ok hits →
  (∀ k n id', walk t 0 k n → is_leaf t n = Ok false → terminal t n = Ok true →
     to_key_id_ t n = Ok id' → k `prefix_of` input → (pos < length k)%nat →
     (k, id') ∈ hits)
  ∧ (∀ bs n id', walk t 0 bs n → is_leaf t n = Ok true →
       key_at t n bs input id' → (pos ≤ length bs)%nat → (input, id') ∈ hits).
Proof.
  revert pos node id calls hits.
  induction rest as [|c rest IH]; intros pos node id calls hits Hd Hp Hw H;
    assert (used t node = true) as Hu by (eapply walk_used; eauto using used_root);
    pose proof (used_lt t HWF node Hu) as Hlt;
    destruct (node_reads t node Hlt) as (b & _ & l & _ & Hb & _ & Hl & _);
    destruct l.
  1,3: split.
  1,3: intros k n id' Hk Hln _ _ Hpre Hlen;
    destruct (prefix_take_split k input pos Hpre ltac:(lia)) as [Heq _];
    rewrite Heq in Hk; apply walk_app_inv in Hk as (m & Hm & Hk);
    rewrite <-(walk_det t _ _ _ _ Hw Hm) in Hk;
    destruct (walk_leaf t _ _ _ Hk Hl) as [Hnil _];
    apply (f_equal length) in Hnil; rewrite length_drop in Hnil; simpl in Hnil; lia.
  1,2: intros bs n id' Hbs Hln Hkey Hlen;
    pose proof (key_at_prefix t _ _ _ _ Hkey) as Hpre;
    destruct (prefix_take_split bs input pos Hpre Hlen) as [Heq _];
    pose proof Hbs as Hbs'; rewrite Heq in Hbs';
    apply walk_app_inv in Hbs' as (m & Hm & Hbs');
    rewrite <-(walk_det t _ _ _ _ Hw Hm) in Hbs';
    destruct (walk_leaf t _ _ _ Hbs' Hl) as [Hnil ->];
    rewrite Hnil, app_nil_r in Heq;
    destruct Hkey as (_ & Hid & l' & Hl' & Hkey);
    assert (l' = true) as -> by congruence;
    destruct Hkey as (lk' & Hlk' & Hex');
    destruct (leaf_suffix t HWF node lk' Hu Hl Hlk') as (s & Hex & _ & Hmatch & _);
    rewrite Hex in Hex'; injection Hex' as Hin;
    assert (s = drop pos input) as ->
      by (apply (app_inv_head (take pos input)); rewrite take_drop; congruence);
    destruct (prefix_leaf_hits t _ _ _ _ _ _ Hp Hl H) as (lk & mt & Hlk & Hm' & Hhits);
    assert (lk = lk') as -> by congruence;
    assert (mt = true) as -> by congruence;
    destruct Hhits as (id'' & Hid'' & ->);
    assert (id'' = id') as -> by congruence;
    apply list_elem_of_singleton; done.
  - destruct calls as [|calls]; [done|].
    rewrite prefix_hits_S, prefix_next_walking, Hd, prefix_loop_step, Hl in H.
    done.
  - destruct calls as [|calls]; [done|].
    rewrite prefix_hits_S, prefix_next_walking, Hd, prefix_loop_step, Hl in H.
    cbn [bind] in H. rewrite Hb in H. cbn [bind] in H.
    apply bind_Ok in H as ([b' it'] & Hr & H).
    destruct (drop_cons_inv _ _ _ _ Hd) as (Hc & Hd' & Htake & Hlen).
    apply bind_Ok in Hr as (ck & Hck & Hr).
    assert (∀ k n, walk t 0 k n → k `prefix_of` input → (pos < length k)%nat →
              ck = node
              ∧ ∃ xs, k = take (S pos) input ++ xs
                      ∧ walk t (N.lxor b (code_ t c)) xs n) as Hthrough.
    { intros k n Hk Hpre Hlen'.
      destruct (walk_through _ _ _ _ _ _ _ _ Hd Hw Hb Hk Hpre Hlen') as [Hck' Hxs].
      split; [congruence|done]. }
    assert (∀ bs n, walk t 0 bs n → is_leaf t n = Ok true → bs `prefix_of` input →
              (pos ≤ length bs)%nat → (pos < length bs)%nat) as Hstrict.
    { intros bs n Hbs Hln Hpre Hle.
      destruct (decide (length bs = pos)) as [Heq|]; [|lia].
      destruct (prefix_take_split bs input pos Hpre Hle) as [Hbs' _].
      rewrite drop_ge, app_nil_r in Hbs' by lia. rewrite Hbs' in Hbs.
      rewrite (walk_det t _ _ _ _ Hbs Hw) in Hln. congruence. }
    case_bool_decide as Hne.
    { injection Hr as <- <-. simpl in H. injection H as <-. split.
      - intros k n id' Hk _ _ _ Hpre Hlen'.
        by destruct (Hthrough k n Hk Hpre Hlen') as [? _].
      - intros bs n id' Hbs Hln Hkey Hle.
        pose proof (key_at_prefix t _ _ _ _ Hkey) as Hpre.
        by destruct (Hthrough bs n Hbs Hpre (Hstrict _ _ Hbs Hln Hpre Hle)) as [? _]. }
    assert (ck = node) as -> by (by destruct (decide (ck = node))).
    assert (child t node c (N.lxor b (code_ t c))) as Hch.
    { split; [done|]. by exists b. }
    pose proof (walk_snoc t _ _ _ _ _ Hw Hch) as Hw'. rewrite <-Htake in Hw'.
    apply bind_Ok in Hr as (leaf' & Hl' & Hr). apply bind_Ok in Hr as (ht & Hht & Hr).
    assert (∃ hs, prefix_hits (if ht then calls else S calls)
                    (walking t input (S pos) (N.lxor b (code_ t c))
                       (if ht then PrefixIterator.id it' else id)) = Ok hs
                  ∧ (∀ h, h ∈ hs → h ∈ hits)
                  ∧ (ht = true → ∃ id', to_key_id_ t (N.lxor b (code_ t c)) = Ok id'
                                        ∧ (take (S pos) input, id') ∈ hits)
                  ∧ (ht = false → leaf' = true
                                  ∨ terminal t (N.lxor b (code_ t c)) = Ok false))
      as (hs & Hhs & Hsub & Hhead & Hnohit).
    { destruct ht.
      - apply bind_Ok in Hr as (id' & Hid & [= <- <-]). simpl in H.
        apply bind_Ok in H as (hs & Hhs & [= <-]).
        exists hs. split; [done|]. split; [by right|]. split; [|done].
        intros _. exists id'. split; [done|]. unfold key. simpl. by left.
      - exists hits. split.
        + rewrite prefix_hits_S, prefix_next_walking, Hd', Hr. exact H.
        + split; [done|]. split; [done|]. intros _.
          destruct leaf'; [by left|by right]. }
    destruct (IH _ _ _ _ _ Hd' Hlen Hw' Hhs) as [IH1 IH2]. split.
    + intros k n id' Hk Hln Hterm Hid Hpre Hlen'.
      destruct (Hthrough k n Hk Hpre Hlen') as (_ & xs & -> & Hxs).
      destruct xs as [|x xs].
      * inversion Hxs; subst. rewrite app_nil_r.
        destruct ht.
        -- destruct (Hhead eq_refl) as (id'' & Hid'' & Hin).
           by assert (id'' = id') as <- by congruence.
        -- destruct (Hnohit eq_refl) as [->|Hterm']; [congruence|].
           assert (leaf' = false) as -> by congruence.
           simpl in Hht. congruence.
      * apply Hsub. apply (IH1 _ n id' Hk Hln Hterm Hid Hpre).
        rewrite length_app, length_take_le by lia. simpl. lia.
    + intros bs n id' Hbs Hln Hkey Hle. apply Hsub.
      pose proof (key_at_prefix t _ _ _ _ Hkey) as Hpre.
      apply (IH2 bs n id' Hbs Hln Hkey).
      pose proof (Hstrict _ _ Hbs Hln Hpre Hle). lia.
Qed.

End PrefixComplete.

Section PrefixOverrun.

Import PrefixIterator.
Variable t : Trie.
Hypothesis HWF : WF t.

(** A key with a longer key behind it ends in a node that branches. *)
Lemma registered_branching k id k' id' :
  registered t k id → registered t k' id' → k `prefix_of` k' → k ≠ k' →
  ∃ n, walk t 0 k n ∧ is_leaf t n = Ok false ∧ terminal t n = Ok true
       ∧ to_key_id_ t n = Ok id.
Proof.
  intros Hk Hk' Hpre Hne.
  apply (registered_key_at t HWF) in Hk as (n & bs & Hw & Hkey).
  pose proof (key_at_prefix t _ _ _ _ Hkey) as Hbs.
  destruct Hkey as (Hterm & Hid & l & Hl & Hkey). destruct l.
  - destruct Hkey as (lk & Hlk & Hex').
    assert (used t n = true) as Hu by (eapply walk_used; eauto using used_root).
    destruct (leaf_suffix t HWF n lk Hu Hl Hlk) as (s & Hex & _).
    rewrite Hex in Hex'. injection Hex' as <-.
    destruct (leaf_keys t HWF bs n lk s id k' id' Hw Hl Hlk Hid Hex) as [Heq _].
    destruct Heq as [-> _]; [|done]. split; [done|]. by etrans.
  - subst k. by exists n.
Qed.

Lemma walk_start_branching m xs n :
  walk t m xs n → is_leaf t n = Ok false → is_leaf t m = Ok false.
Proof. intros H Hl. by inversion H as [|? ? ? ? ? [Hm _]]; subst. Qed.

(** From a node whose path is the input read so far, with the rest of the
    input leading to a node that branches, the cursor reads one byte more
    than the input has. *)
Lemma prefix_walk_overrun rest input pos node id n calls :
  drop pos input = rest → walk t 0 (take pos input) node →
  walk t node rest n → is_leaf t n = Ok false → (length rest < calls)%nat →
  prefix_hits calls (walking t input pos node id) = Err KeyBounds.
Proof.
  revert pos node id calls.
  induction rest as [|c rest IH]; intros pos node id calls Hd Hw Hr Hl Hc;
    (destruct calls as [|calls]; [simpl in Hc; lia|]);
    pose proof (walk_start_branching _ _ _ Hr Hl) as Hl0;
    rewrite prefix_hits_S, prefix_next_walking, Hd, prefix_loop_step, Hl0;
    cbn [bind]; [done|].
  inversion Hr as [|? ? ch ? ? Hch Hr' E1 E2 E3]. subst.
  pose proof Hch as (_ & b & Hb & -> & Hck).
  rewrite Hb. cbn [bind]. rewrite Hck. cbn [bind].
  rewrite bool_decide_eq_false_2 by (intros Hne; by apply Hne).
  destruct (drop_cons_inv _ _ _ _ Hd) as (_ & Hd' & Htake & _).
  pose proof (walk_snoc t _ _ _ _ _ Hw Hch) as Hw'. rewrite <-Htake in Hw'.
  assert (used t (N.lxor b (code_ t c)) = true) as Hu
    by (eapply walk_used; eauto using used_root).
  pose proof (used_lt t HWF _ Hu) as Hlt.
  destruct (terminal_total t HWF _ Hlt) as [tf Htf].
  destruct (to_key_id_total t HWF _ Hlt) as [id' Hid'].
  rewrite (walk_start_branching _ _ _ Hr' Hl). cbn [bind].
  rewrite Htf. cbn [bind negb andb]. destruct tf.
  - rewrite Hid'. cbn [bind fst snd].
    rewrite (IH (S pos) _ id' calls Hd' Hw' Hr' Hl) by (simpl in Hc; lia). done.
  - rewrite <-Hd', <-prefix_next_walking, <-prefix_hits_S.
    apply (IH (S pos) _ id (S calls) Hd' Hw' Hr' Hl). simpl in Hc. lia.
Qed.

End PrefixOverrun.

(** X8. When the prefix cursor of a well-formed dictionary runs to its end
    without a fault, it has reported every registered key that is a prefix
    of the input and either is the whole input or has a longer registered
    key behind it. *)
Theorem prefix_hits_complete (t : Trie) (input : list byte) (calls : nat)
  (hits : list hit) (k : list byte) (id : id_type) :
  well_formed t = true →
  prefix_hits calls (make_prefix_iterator t input) = Ok hits →
  registered t k id →
  k `prefix_of` input →
  (k = input ∨ ∃ k' id', registered t k' id' ∧ k `prefix_of` k' ∧ k ≠ k') →
  (k, id) ∈ hits.
Proof.
  intros HWF%well_formed_WF H Hk Hpre Hcase.
  destruct (prefix_hits_begin t _ _ _ H) as (tf & id0 & hs & Htf & Hhs & -> & Hid0).
  destruct (prefix_walk_complete t HWF input input 0 0 id0 _ hs eq_refl
              ltac:(lia) (walk_nil t 0) Hhs) as [Hbranch Hleaf].
  assert ((k, id) ∈ hs → (k, id) ∈ (if tf then ([], id0) :: hs else hs)) as Hsub.
  { intros Hin. destruct tf; [by right|done]. }
  assert (∀ n, walk t 0 k n → is_leaf t n = Ok false → terminal t n = Ok true →
               to_key_id_ t n = Ok id →
               (k, id) ∈ (if tf then ([], id0) :: hs else hs)) as Hb.
  { intros n Hw Hl Hterm Hid. destruct k as [|x k].
    - inversion Hw; subst. rewrite Htf in Hterm. injection Hterm as ->.
      rewrite (Hid0 eq_refl) in Hid. injection Hid as ->. by left.
    - apply Hsub. apply (Hbranch _ n id Hw Hl Hterm Hid Hpre). simpl. lia. }
  destruct Hcase as [->|(k' & id' & Hk' & Hpre' & Hne)].
  - apply (registered_key_at t HWF) in Hk as (n & bs & Hw & Hkey).
    pose proof Hkey as (Hterm & Hid & l & Hl & Hbody). destruct l.
    + apply Hsub. apply (Hleaf bs n id Hw Hl Hkey). lia.
    + subst bs. by apply (Hb n).
  - destruct (registered_branching t HWF _ _ _ _ Hk Hk' Hpre' Hne)
      as (n & Hw & Hl & Hterm & Hid).
    by apply (Hb n).
Qed.

Lemma prefix_hits_complete_witness :
  well_formed Examples.text_trie = true
  ∧ prefix_hits 4 (make_prefix_iterator Examples.text_trie (Examples.str "ant"))
    = Ok [(Examples.str "a", 0); (Examples.str "an", 1); (Examples.str "ant", 3)]
  ∧ registered Examples.text_trie (Examples.str "an") 1
  ∧ Examples.str "an" `prefix_of` Examples.str "ant"
  ∧ (Examples.str "an", 1)
    ∈ [(Examples.str "a", 0); (Examples.str "an", 1); (Examples.str "ant", 3)].
Proof.
  assert (well_formed Examples.text_trie = true) as H1 by (vm_compute; reflexivity).
  assert (prefix_hits 4 (make_prefix_iterator Examples.text_trie (Examples.str "ant"))
          = Ok [(Examples.str "a", 0); (Examples.str "an", 1); (Examples.str "ant", 3)])
    as H2 by (vm_compute; reflexivity).
  assert (registered Examples.text_trie (Examples.str "an") 1) as H3
    by (split; vm_compute; reflexivity).
  assert (registered Examples.text_trie (Examples.str "ant") 3) as H3'
    by (split; vm_compute; reflexivity).
  assert (Examples.str "an" `prefix_of` Examples.str "ant") as H4
    by (exists (Examples.str "t"); vm_compute; reflexivity).
  assert (Examples.str "an" ≠ Examples.str "ant") as H5
    by (vm_compute; discriminate).
  split; [exact H1|]. split; [exact H2|]. split; [exact H3|]. split; [exact H4|].
  apply (prefix_hits_complete Examples.text_trie (Examples.str "ant") 4 _ _ _
           H1 H2 H3 H4).
  right. exists (Examples.str "ant"), 3. split; [exact H3'|]. split; [exact H4|].
  exact H5.
Defined.

(** X9. In a well-formed dictionary, running the prefix cursor on an input
    that is a registered key with a longer registered key behind it ends in
    a read at [key_[pos_]] with [pos_] equal to the length of the input. *)
Theorem prefix_overruns_inner_key (t : Trie) (input : list byte) (id : id_type)
  (k' : list byte) (id' : id_type) (calls : nat) :
  well_formed t = true →
  registered t input id →
  registered t k' id' →
  input `prefix_of` k' →
  input ≠ k' →
  (length input + 1 < calls)%nat →
  prefix_hits calls (make_prefix_iterator t input) = Err KeyBounds.
Proof.
  intros HWF%well_formed_WF Hk Hk' Hpre Hne Hcalls.
  destruct (registered_branching t HWF _ _ _ _ Hk Hk' Hpre Hne)
    as (n & Hw & Hl & _).
  destruct calls as [|calls]; [lia|].
  rewrite prefix_hits_S, prefix_next_begin.
  assert (0 < num_nodes t) as H0 by (apply used_lt; [done|apply used_root]).
  destruct (terminal_total t HWF 0 H0) as [tf Htf].
  destruct (to_key_id_total t HWF 0 H0) as [id0 Hid0].
  rewrite Htf. cbn [bind]. destruct tf.
  - rewrite Hid0. cbn [bind fst snd].
    rewrite (prefix_walk_overrun t HWF input input 0 0 id0 n calls eq_refl
               (walk_nil t 0) Hw Hl) by lia.
    done.
  - rewrite <-prefix_hits_S.
    apply (prefix_walk_overrun t HWF input input 0 0 0 n (S calls) eq_refl
             (walk_nil t 0) Hw Hl).
    lia.
Qed.

Lemma prefix_overruns_inner_key_witness :
  well_formed Examples.text_trie = true
  ∧ registered Examples.text_trie (Examples.str "an") 1
  ∧ registered Examples.text_trie (Examples.str "and") 2
  ∧ prefix_hits 4 (make_prefix_iterator Examples.text_trie (Examples.str "an"))
    = Err KeyBounds.
Proof.
  assert (well_formed Examples.text_trie = true) as H1 by (vm_compute; reflexivity).
  assert (registered Examples.text_trie (Examples.str "an") 1) as H2
    by (split; vm_compute; reflexivity).
  assert (registered Examples.text_trie (Examples.str "and") 2) as H3
    by (split; vm_compute; reflexivity).
  assert (Examples.str "an" `prefix_of` Examples.str "and") as H4
    by (exists (Examples.str "d"); vm_compute; reflexivity).
  assert (Examples.str "an" ≠ Examples.str "and") as H5
    by (vm_compute; discriminate).
  split; [exact H1|]. split; [exact H2|]. split; [exact H3|].
  apply (prefix_overruns_inner_key Examples.text_trie (Examples.str "an") 1
           (Examples.str "and") 2 4 H1 H2 H3 H4 H5).
  simpl. lia.
Defined.

(** X10. When the root of a well-formed dictionary is a leaf whose suffix is
    not empty, the first call of the prefix cursor reports the empty key
    with the id 0 whatever the input is, although the empty key is not
    registered: the test of [terminal_flags_[0]] at the first call does not
    ask whether the root is a leaf. *)
Theorem prefix_reports_empty_key_on_leaf_root (t : Trie) (tail_pos : id_type)
  (input : list byte) :
  well_formed t = true →
  is_leaf t 0 = Ok true →
  link t 0 = Ok tail_pos →
  tail_pos ≠ 0 →
  (∃ it, prefix_next (make_prefix_iterator t input) = Ok (true, it)
         ∧ PrefixIterator.key it = [] ∧ PrefixIterator.id it = 0)
  ∧ ¬ ∃ id, registered t [] id.
Proof.
  intros HWF%well_formed_WF Hl Hlk Hne.
  pose proof (used_root t) as Hu.
  pose proof (used_lt t HWF 0 Hu) as H0.
  assert (terminal t 0 = Ok true) as Hterm by (by apply (wf_leaf_terminal t HWF)).
  assert (to_key_id_ t 0 = Ok 0) as Hid.
  { rewrite to_key_id_spec by lia. done. }
  split.
  - exists (walking t input 0 0 0). rewrite prefix_next_begin, Hterm. cbn [bind].
    rewrite Hid. done.
  - intros (id & Hreg).
    apply (registered_key_at t HWF) in Hreg as (n & bs & Hw & Hkey).
    pose proof (key_at_prefix t _ _ _ _ Hkey) as Hbs.
    apply prefix_nil_inv in Hbs as ->. inversion Hw; subst.
    destruct Hkey as (_ & _ & l & Hl' & Hkey).
    assert (l = true) as -> by congruence.
    destruct Hkey as (lk & Hlk' & Hex').
    assert (lk = tail_pos) as -> by congruence.
    destruct (leaf_suffix t HWF 0 tail_pos Hu Hl Hlk) as (s & Hex & Hs & _).
    rewrite Hex in Hex'. injection Hex' as ->. by apply Hne, Hs.
Qed.

Lemma prefix_reports_empty_key_on_leaf_root_witness :
  well_formed Examples.single_key_trie = true
  ∧ is_leaf Examples.single_key_trie 0 = Ok true
  ∧ link Examples.single_key_trie 0 = Ok 1
  ∧ (∃ it, prefix_next (make_prefix_iterator Examples.single_key_trie
                          (Examples.str "abc")) = Ok (true, it)
           ∧ PrefixIterator.key it = [] ∧ PrefixIterator.id it = 0)
  ∧ ¬ ∃ id, registered Examples.single_key_trie [] id.
Proof.
  assert (well_formed Examples.single_key_trie = true) as H1
    by (vm_compute; reflexivity).
  assert (is_leaf Examples.single_key_trie 0 = Ok true) as H2 by reflexivity.
  assert (link Examples.single_key_trie 0 = Ok 1) as H3 by reflexivity.
  assert (1 ≠ 0) as H4 by lia.
  split; [exact H1|]. split; [exact H2|]. split; [exact H3|].
  exact (prefix_reports_empty_key_on_leaf_root Examples.single_key_trie 1
           (Examples.str "abc") H1 H2 H3 H4).
Defined.

Section PrefixTotal.

Import PrefixIterator.
Variable t : Trie.
Hypothesis HWF : WF t.
Hypothesis Hbin : bin_mode_ t = false.



End PrefixTotal.


(** ** More on the predictive cursor, the stream layout and the empty key *)

Lemma lex_lt_prefix (p k : list byte) : p `prefix_of` k → ¬ lex_lt k p.
Proof.
  intros [z ->]. induction p as [|a p IH]; simpl.
  - intros H. by destruct z.
  - intros [H|[_ H]]; [lia|done].
Qed.

Section PredictiveRuns.

Variable t : Trie.
Hypothesis HWF : WF t.

(** A run that ends without a fault has not stopped early. *)
Lemma predictive_run calls fuel p it hits :
  make_predictive_iterator t p = Ok it →
  predictive_hits calls fuel it = Ok hits →
  (∀ k id, (k, id) ∈ hits ↔ registered t k id ∧ p `prefix_of` k)
  ∧ StronglySorted lex_lt (hits.*1).
Proof.
  rewrite (make_predictive_iterator_Ok t p HWF). intros [= <-] H.
  destruct (predictive_drains t HWF p) as (hits' & [n Hn] & Hmem & Hs).
  assert (hits = hits') as ->; [|done].
  pose proof (predictive_hits_mono calls (max calls n) fuel (max fuel n) _ _ H
                ltac:(lia) ltac:(lia)) as H1.
  rewrite (Hn (max calls n) (max fuel n)) in H1 by lia. congruence.
Qed.

Lemma registered_id_fun k id id' : registered t k id → registered t k id' → id = id'.
Proof.
  intros H1%(registered_lookup t HWF) H2%(registered_lookup t HWF). congruence.
Qed.

Lemma registered_total id : id < num_keys t → ∃ k, registered t k id.
Proof.
  intros Hid. destruct (access_key_at t HWF id Hid) as (_ & _ & k & _ & _ & _ & Hk).
  by exists k.
Qed.

End PredictiveRuns.

(** X12. Whenever a run of the predictive cursor of a well-formed dictionary
    ends without a fault, it has not stopped early, whatever the bounds on
    calls and fuel were: the hits are the registered keys that start with
    the input, and for each reported key and id [lookup] of the key gives
    the id and [access] of the id gives the key. *)
Theorem predictive_hits_agree_with_lookup (t : Trie) (p : list byte)
  (it : PredictiveIterator.t) (calls fuel : nat) (hits : list hit) :
  well_formed t = true →
  make_predictive_iterator t p = Ok it →
  predictive_hits calls fuel it = Ok hits →
  (∀ k id, registered t k id → p `prefix_of` k → (k, id) ∈ hits)
  ∧ Forall (fun h : hit => lookup t h.1 = Ok h.2 ∧ access t h.2 = Ok h.1
                           ∧ p `prefix_of` h.1) hits.
Proof.
  intros HWF%well_formed_WF Hit H.
  destruct (predictive_run t HWF _ _ _ _ _ Hit H) as [Hmem _]. split.
  - intros k id Hk Hp. by apply Hmem.
  - apply Forall_forall. intros [k id] [Hk Hp]%Hmem. simpl.
    split; [by apply registered_lookup|]. split; [apply Hk|done].
Qed.

Lemma predictive_hits_agree_with_lookup_witness :
  well_formed Examples.text_trie = true
  ∧ make_predictive_iterator Examples.text_trie (Examples.str "an")
    = Ok (created Examples.text_trie (Examples.str "an"))
  ∧ predictive_hits 4 8 (created Examples.text_trie (Examples.str "an"))
    = Ok [(Examples.str "an", 1); (Examples.str "and", 2); (Examples.str "ant", 3)]
  ∧ (∀ k id, registered Examples.text_trie k id → Examples.str "an" `prefix_of` k →
       (k, id) ∈ [(Examples.str "an", 1); (Examples.str "and", 2);
                  (Examples.str "ant", 3)])
  ∧ Forall (fun h : hit => lookup Examples.text_trie h.1 = Ok h.2
                           ∧ access Examples.text_trie h.2 = Ok h.1
                           ∧ Examples.str "an" `prefix_of` h.1)
      [(Examples.str "an", 1); (Examples.str "and", 2); (Examples.str "ant", 3)].
Proof.
  assert (well_formed Examples.text_trie = true) as H1 by (vm_compute; reflexivity).
  assert (make_predictive_iterator Examples.text_trie (Examples.str "an")
          = Ok (created Examples.text_trie (Examples.str "an"))) as Hit
    by (vm_compute; reflexivity).
  assert (predictive_hits 4 8 (created Examples.text_trie (Examples.str "an"))
          = Ok [(Examples.str "an", 1); (Examples.str "and", 2);
                (Examples.str "ant", 3)]) as H2 by (vm_compute; reflexivity).
  split; [exact H1|]. split; [exact Hit|]. split; [exact H2|].
  exact (predictive_hits_agree_with_lookup Examples.text_trie (Examples.str "an")
           _ 4 8 _ H1 Hit H2).
Defined.

(** X13. When the input of the predictive cursor is itself a registered key
    of a well-formed dictionary, that key is the first hit. *)
Theorem predictive_reports_input_first (t : Trie) (p : list byte) (id : id_type)
  (it : PredictiveIterator.t) (calls fuel : nat) (hits : list hit) :
  well_formed t = true →
  registered t p id →
  make_predictive_iterator t p = Ok it →
  predictive_hits calls fuel it = Ok hits →
  ∃ rest, hits = (p, id) :: rest.
Proof.
  intros HWF%well_formed_WF Hp Hit H.
  destruct (predictive_run t HWF _ _ _ _ _ Hit H) as [Hmem Hs].
  assert ((p, id) ∈ hits) as Hin by (by apply Hmem).
  destruct hits as [|[k id'] rest]; [by apply elem_of_nil in Hin|].
  exists rest. f_equal.
  destruct (Hmem k id') as [[Hk Hpk] _]; [by left|].
  apply elem_of_cons in Hin as [Heq|Hin].
  - done.
  - exfalso. simpl in Hs. apply StronglySorted_inv in Hs as [_ Hall].
    rewrite Forall_forall in Hall.
    apply (lex_lt_prefix p k Hpk), Hall.
    apply list_elem_of_fmap. by exists (p, id).
Qed.

Lemma predictive_reports_input_first_witness :
  well_formed Examples.text_trie = true
  ∧ registered Examples.text_trie (Examples.str "an") 1
  ∧ make_predictive_iterator Examples.text_trie (Examples.str "an")
    = Ok (created Examples.text_trie (Examples.str "an"))
  ∧ predictive_hits 4 8 (created Examples.text_trie (Examples.str "an"))
    = Ok [(Examples.str "an", 1); (Examples.str "and", 2); (Examples.str "ant", 3)]
  ∧ ∃ rest, [(Examples.str "an", 1); (Examples.str "and", 2); (Examples.str "ant", 3)]
            = (Examples.str "an", 1) :: rest.
Proof.
  assert (well_formed Examples.text_trie = true) as H1 by (vm_compute; reflexivity).
  assert (registered Examples.text_trie (Examples.str "an") 1) as H2
    by (split; vm_compute; reflexivity).
  assert (make_predictive_iterator Examples.text_trie (Examples.str "an")
          = Ok (created Examples.text_trie (Examples.str "an"))) as Hit
    by (vm_compute; reflexivity).
  assert (predictive_hits 4 8 (created Examples.text_trie (Examples.str "an"))
          = Ok [(Examples.str "an", 1); (Examples.str "and", 2);
                (Examples.str "ant", 3)]) as H3 by (vm_compute; reflexivity).
  split; [exact H1|]. split; [exact H2|]. split; [exact Hit|]. split; [exact H3|].
  exact (predictive_reports_input_first Examples.text_trie (Examples.str "an") 1
           _ 4 8 _ H1 H2 Hit H3).
Defined.

(** X14. With the empty input the predictive cursor of a well-formed
    dictionary lists the whole dictionary: a run that ends without a fault
    has as many hits as there are keys, and every id below [num_keys] is
    among them with the key it decodes to. *)
Theorem predictive_lists_every_key (t : Trie) (it : PredictiveIterator.t)
  (calls fuel : nat) (hits : list hit) :
  well_formed t = true →
  make_predictive_iterator t [] = Ok it →
  predictive_hits calls fuel it = Ok hits →
  length hits = N.to_nat (num_keys t)
  ∧ ∀ id, id < num_keys t → ∃ k, access t id = Ok k ∧ (k, id) ∈ hits.
Proof.
  intros HWF%well_formed_WF Hit H.
  destruct (predictive_run t HWF _ _ _ _ _ Hit H) as [Hmem Hs].
  assert (∀ k id, (k, id) ∈ hits ↔ registered t k id) as Hmem'.
  { intros k id. rewrite Hmem. split; [by intros [? _]|].
    intros Hk. split; [done|apply prefix_nil]. }
  split.
  - assert (NoDup hits) as Hnd.
    { eapply NoDup_fmap_1, (StronglySorted_lex_NoDup _ Hs). }
    assert (NoDup (hits.*2)) as Hnd2.
    { apply NoDup_fmap_2_strong; [|done].
      intros [k1 id1] [k2 id2] [_ H1]%Hmem' [_ H2]%Hmem'. simpl. intros ->.
      f_equal. congruence. }
    assert (hits.*2 ≡ₚ N.of_nat <$> seq 0 (N.to_nat (num_keys t))) as Hperm.
    { apply NoDup_Permutation; [done| |].
      - apply NoDup_fmap_2_strong; [|apply NoDup_seq].
        intros x y _ _. apply Nat2N.inj.
      - intros id. rewrite !list_elem_of_fmap. split.
        + intros ([k id'] & -> & [Hid _]%Hmem'). simpl.
          exists (N.to_nat id'). split; [lia|]. apply elem_of_seq. lia.
        + intros (y & -> & Hy%elem_of_seq).
          destruct (registered_total t HWF (N.of_nat y)) as [k Hk]; [lia|].
          exists (k, N.of_nat y). split; [done|]. by apply Hmem'. }
    apply Permutation_length in Hperm.
    by rewrite !length_fmap, length_seq in Hperm.
  - intros id Hid. destruct (registered_total t HWF id Hid) as [k Hk].
    exists k. split; [apply Hk|]. by apply Hmem'.
Qed.

Lemma predictive_lists_every_key_witness :
  well_formed Examples.text_trie = true
  ∧ make_predictive_iterator Examples.text_trie [] = Ok (created Examples.text_trie [])
  ∧ predictive_hits 7 16 (created Examples.text_trie [])
    = Ok [(Examples.str "a", 0); (Examples.str "an", 1); (Examples.str "and", 2);
          (Examples.str "ant", 3); (Examples.str "bird", 4); (Examples.str "cat", 5)]
  ∧ length [(Examples.str "a", 0); (Examples.str "an", 1); (Examples.str "and", 2);
            (Examples.str "ant", 3); (Examples.str "bird", 4); (Examples.str "cat", 5)]
    = N.to_nat (num_keys Examples.text_trie)
  ∧ ∀ id, id < num_keys Examples.text_trie →
      ∃ k, access Examples.text_trie id = Ok k
           ∧ (k, id) ∈ [(Examples.str "a", 0); (Examples.str "an", 1);
                        (Examples.str "and", 2); (Examples.str "ant", 3);
                        (Examples.str "bird", 4); (Examples.str "cat", 5)].
Proof.
  assert (well_formed Examples.text_trie = true) as H1 by (vm_compute; reflexivity).
  assert (make_predictive_iterator Examples.text_trie []
          = Ok (created Examples.text_trie [])) as Hit by (vm_compute; reflexivity).
  assert (predictive_hits 7 16 (created Examples.text_trie [])
          = Ok [(Examples.str "a", 0); (Examples.str "an", 1); (Examples.str "and", 2);
                (Examples.str "ant", 3); (Examples.str "bird", 4);
                (Examples.str "cat", 5)]) as H2 by (vm_compute; reflexivity).
  split; [exact H1|]. split; [exact Hit|]. split; [exact H2|].
  exact (predictive_lists_every_key Examples.text_trie _ 7 16 _ H1 Hit H2).
Defined.

Section Streams.

Variable bc_codec : codec bc_type.
Variable bits_codec : codec BitVector.
Variable vector_codec : codec (list byte).
Variable size_codec : codec N.
Variable bool_codec : codec bool.

(** [write] appends to the stream. *)
Lemma write_app t os :
  write bc_codec bits_codec vector_codec size_codec bool_codec t os
  = os ++ write bc_codec bits_codec vector_codec size_codec bool_codec t [].
Proof. unfold write. by rewrite app_nil_l, <-!app_assoc. Qed.

(** Reading stops where the dictionary ends. *)
Lemma read_write_rest t rest :
  components_round_trip bc_codec bits_codec vector_codec size_codec bool_codec t →
  read_trie bc_codec bits_codec vector_codec size_codec bool_codec
    (write bc_codec bits_codec vector_codec size_codec bool_codec t [] ++ rest)
  = Ok (t, rest).
Proof.
  intros (H1 & H2 & H3 & H4 & H5 & H6 & H7 & H8 & H9). by apply read_write.
Qed.

End Streams.

(** X15. [write] appends to the stream and the reading constructor stops
    where the dictionary ends: when the component serializers read back
    what they write for two dictionaries, writing the first and then the
    second to one stream and reading twice gives back the first and then
    the second, with nothing left over. *)
Theorem write_twice_read_twice
  (bc_codec : codec bc_type) (bits_codec : codec BitVector)
  (vector_codec : codec (list byte)) (size_codec : codec N)
  (bool_codec : codec bool) (t1 t2 : Trie) (os : list byte) :
  components_round_trip bc_codec bits_codec vector_codec size_codec bool_codec t1 →
  components_round_trip bc_codec bits_codec vector_codec size_codec bool_codec t2 →
  os = write bc_codec bits_codec vector_codec size_codec bool_codec t2
         (write bc_codec bits_codec vector_codec size_codec bool_codec t1 []) →
  ∃ rest,
    read_trie bc_codec bits_codec vector_codec size_codec bool_codec os
    = Ok (t1, rest)
    ∧ read_trie bc_codec bits_codec vector_codec size_codec bool_codec rest
      = Ok (t2, []).
Proof.
  intros H1 H2 ->.
  exists (write bc_codec bits_codec vector_codec size_codec bool_codec t2 []).
  split.
  - rewrite write_app. by apply read_write_rest.
  - rewrite <-(app_nil_r (write _ _ _ _ _ t2 [])). by apply read_write_rest.
Qed.

Lemma write_twice_read_twice_witness :
  ∃ rest,
    Wire.read_back
      (write Wire.bc_codec Wire.bits_codec Wire.vector_codec Wire.size_codec
         Wire.bool_codec Examples.bin_trie (Wire.write_trie Examples.text_trie))
    = Ok (Examples.text_trie, rest)
    ∧ Wire.read_back rest = Ok (Examples.bin_trie, []).
Proof.
  apply (write_twice_read_twice Wire.bc_codec Wire.bits_codec Wire.vector_codec
           Wire.size_codec Wire.bool_codec Examples.text_trie Examples.bin_trie).
  - repeat split; try (intros rest; vm_compute; reflexivity).
  - repeat split; try (intros rest; vm_compute; reflexivity).
  - reflexivity.
Defined.

(** X16. The id of the empty key: when the empty string is registered in a
    well-formed dictionary, its id is 0, [lookup] of the empty string gives
    0 and [access] of 0 gives the empty string. *)
Theorem empty_key_has_id_0 (t : Trie) (id : id_type) :
  well_formed t = true →
  registered t [] id →
  id = 0 ∧ lookup t [] = Ok 0 ∧ access t 0 = Ok [].
Proof.
  intros HWF%well_formed_WF Hreg.
  assert (id = 0) as ->.
  { pose proof Hreg as (n & bs & Hw & Hkey)%(registered_key_at t HWF).
    pose proof (key_at_prefix t _ _ _ _ Hkey) as Hbs.
    apply prefix_nil_inv in Hbs as ->. inversion Hw; subst.
    destruct Hkey as (_ & Hid & _).
    assert (to_key_id_ t 0 = Ok 0) as H0 by (rewrite to_key_id_spec by lia; done).
    congruence. }
  split; [done|]. split; [by apply registered_lookup|apply Hreg].
Qed.

Lemma empty_key_has_id_0_witness :
  well_formed Examples.empty_key_trie = true
  ∧ registered Examples.empty_key_trie [] 0
  ∧ 0 = 0 ∧ lookup Examples.empty_key_trie [] = Ok 0
  ∧ access Examples.empty_key_trie 0 = Ok [].
Proof.
  assert (well_formed Examples.empty_key_trie = true) as H1
    by (vm_compute; reflexivity).
  assert (registered Examples.empty_key_trie [] 0) as H2
    by (split; vm_compute; reflexivity).
  split; [exact H1|]. split; [exact H2|].
  exact (empty_key_has_id_0 Examples.empty_key_trie 0 H1 H2).
Defined.
